(** * Stock_Port: the ticker tagging engine

    A shallow embedding of [src/ingest/news/ticker_tagger.py] and of the two
    tables of [src/db/__init__.py] it writes to, with the properties of the
    specification stated over it.  The last part, Further properties,
    states what the code does beyond them, and covers
    [populate_sp500_tickers] as well.

    Conventions of the embedding:
    - a Python [str] is a [string] (the text is taken to be ASCII, so that
      [upper], [lower] and IGNORECASE act on the 26 letters only; where a
      property holds of the code on ASCII text only, its theorem says so
      with the hypothesis [is_ascii]);
    - what [json.loads] returns is a value of [json], of any JSON type,
      not only the list of strings that the loader expects;
    - a Python [float] confidence is an exact rational [Q]; rounding is not
      modelled;
    - a Python exception is a value of [exn] carried by [result];
    - a [dict] is an association list in insertion order;
    - the two DuckDB tables are lists of rows, and the constraints of their
      [CREATE TABLE] statements are checked on insertion. *)

From Stdlib Require Import QArith Qminmax Lqa Lia ZArith.
From Stdlib Require Import String Ascii List Bool Arith.
From Stdlib Require Import Sorting.Sorted Sorting.Permutation.
Import ListNotations.

Set Implicit Arguments.

(* ================================================================= *)
(** ** Python primitives *)

Module Py.

(** Exceptions that the modelled code can raise. *)
Inductive exn : Type :=
| TypeError
| AttributeError
| JSONDecodeError
| IndexError
| ConstraintException.

Inductive result (A : Type) : Type :=
| Ok (a : A)
| Raise (e : exn).

Arguments Ok {A} a.
Arguments Raise {A} e.

Definition bind {A B : Type} (r : result A) (k : A -> result B) : result B :=
  match r with
  | Ok a => k a
  | Raise e => Raise e
  end.

Notation "'let*' x ':=' r 'in' k" := (bind r (fun x => k))
  (at level 10, x name, r at level 100, k at level 200).

(** *** Characters *)

Definition code (c : ascii) : nat := nat_of_ascii c.

Definition is_upper (c : ascii) : bool := (65 <=? code c) && (code c <=? 90).
Definition is_lower (c : ascii) : bool := (97 <=? code c) && (code c <=? 122).
Definition is_digit (c : ascii) : bool := (48 <=? code c) && (code c <=? 57).

(** [\w] of the [re] module, on ASCII. *)
Definition is_word (c : ascii) : bool :=
  is_upper c || is_lower c || is_digit c || (code c =? 95).

(** [str.isspace] on one character: tab to carriage return, the four
    separators 28..31 and the blank. *)
Definition is_space (c : ascii) : bool :=
  ((9 <=? code c) && (code c <=? 13))
  || ((28 <=? code c) && (code c <=? 31))
  || (code c =? 32).

Definition upper_char (c : ascii) : ascii :=
  if is_lower c then ascii_of_nat (code c - 32) else c.

Definition lower_char (c : ascii) : ascii :=
  if is_upper c then ascii_of_nat (code c + 32) else c.

(** *** Strings *)

Fixpoint map_str (f : ascii -> ascii) (s : string) : string :=
  match s with
  | EmptyString => EmptyString
  | String c r => String (f c) (map_str f r)
  end.

Definition upper : string -> string := map_str upper_char.
Definition lower : string -> string := map_str lower_char.

Fixpoint all_chars (p : ascii -> bool) (s : string) : bool :=
  match s with
  | EmptyString => true
  | String c r => p c && all_chars p r
  end.

(** [s.startswith(p)] *)
Fixpoint startswith (p s : string) : bool :=
  match p, s with
  | EmptyString, _ => true
  | String a p', String b s' => Ascii.eqb a b && startswith p' s'
  | String _ _, EmptyString => false
  end.

(** [sub in s] *)
Fixpoint contains (sub s : string) : bool :=
  startswith sub s ||
  match s with
  | EmptyString => false
  | String _ r => contains sub r
  end.

(** [s.count(sub)]: occurrences that do not overlap, from the left.  [skip]
    is the number of characters still covered by the last occurrence. *)
Fixpoint count_from (sub s : string) (skip : nat) : nat :=
  match s with
  | EmptyString => 0
  | String _ r =>
      match skip with
      | S k => count_from sub r k
      | O => if startswith sub s
             then S (count_from sub r (String.length sub - 1))
             else count_from sub r 0
      end
  end.

Definition count (s sub : string) : nat :=
  match sub with
  | EmptyString => S (String.length s)
  | _ => count_from sub s 0
  end.

(** [s.lstrip()], [s.rstrip()], [s.strip()] *)
Fixpoint lstrip (s : string) : string :=
  match s with
  | EmptyString => EmptyString
  | String c r => if is_space c then lstrip r else s
  end.

Fixpoint rstrip (s : string) : string :=
  match s with
  | EmptyString => EmptyString
  | String c r =>
      match rstrip r with
      | EmptyString => if is_space c then EmptyString else String c EmptyString
      | r' => String c r'
      end
  end.

Definition strip (s : string) : string := rstrip (lstrip s).

(** [s[i:j]] for [0 <= i], [j <= len(s)] *)
Definition slice (s : string) (i j : nat) : string := substring i (j - i) s.

(** [s.split()]: the maximal runs of characters that are not blank.  [cur]
    is the run being read, reversed. *)
Definition rev_string (cs : list ascii) : string :=
  string_of_list_ascii (rev cs).

Fixpoint split_from (s : string) (cur : list ascii) : list string :=
  match s with
  | EmptyString => match cur with [] => [] | _ => [rev_string cur] end
  | String c r =>
      if is_space c
      then match cur with
           | [] => split_from r []
           | _ => rev_string cur :: split_from r []
           end
      else split_from r (c :: cur)
  end.

Definition split (s : string) : list string := split_from s [].

(** [sep.join(parts)] *)
Fixpoint join (sep : string) (parts : list string) : string :=
  match parts with
  | [] => EmptyString
  | [p] => p
  | p :: ps => (p ++ sep ++ join sep ps)%string
  end.

(** Truth value of a string: the empty string is false. *)
Definition truthy (s : string) : bool :=
  match s with EmptyString => false | _ => true end.

Definition mem (s : string) (l : list string) : bool :=
  existsb (String.eqb s) l.

(** *** Numbers *)

Definition Qlt_bool (a b : Q) : bool := negb (Qle_bool b a).

(** [min(a, b)] and [max(a, b)]: the first argument wins a tie. *)
Definition min2 (a b : Q) : Q := if Qlt_bool b a then b else a.
Definition max2 (a b : Q) : Q := if Qlt_bool a b then b else a.

(** [max(l)] of a list with first element [a]. *)
Definition max_list (a : Q) (l : list Q) : Q := fold_left max2 l a.

(** [sum(l)] *)
Definition sum (l : list Q) : Q := fold_left Qplus l 0.

Definition of_nat (n : nat) : Q := inject_Z (Z.of_nat n).

(** [max(l, key=f)] of a non-empty list: the first element of greatest
    key. *)
Definition max_by {A : Type} (key : A -> nat) (a : A) (l : list A) : A :=
  fold_left (fun best x => if key best <? key x then x else best) l a.

End Py.

Import Py.

(* ================================================================= *)
(** ** The [re] patterns of the tagger *)

Module Re.

(** One match object: [span()], [group(0)] and [groups()]. *)
Record rmatch : Type := mk_rmatch {
  m_start : nat;
  m_end : nat;
  m_group0 : string;
  m_groups : list string
}.

Definition is_word_opt (c : option ascii) : bool :=
  match c with Some a => is_word a | None => false end.

Definition head (s : string) : option ascii :=
  match s with EmptyString => None | String c _ => Some c end.

(** [\b] between the character before the position and the one after. *)
Definition boundary (prev next : option ascii) : bool :=
  xorb (is_word_opt prev) (is_word_opt next).

(** A pattern tried at one position of the text: given the character
    before the position and the text from the position on, the length of
    the match and its groups. *)
Definition attempt : Type :=
  option ascii -> string -> option (nat * list string).

(** A literal read at the head of [s]; with [ci] (IGNORECASE) letters are
    compared up to case.  Gives the text read, its last character and what
    follows it.  The case folded is that of the ASCII letters: of the
    letters outside ASCII that [re] folds onto them, the dotted and the
    dotless i, the long s and the Kelvin sign, none is in ASCII text. *)
Fixpoint literal (ci : bool) (lit s : string) (last : option ascii)
  : option (string * option ascii * string) :=
  match lit, s with
  | EmptyString, _ => Some (EmptyString, last, s)
  | String a lit', String b s' =>
      if (if ci then Ascii.eqb (lower_char a) (lower_char b) else Ascii.eqb a b)
      then match literal ci lit' s' (Some b) with
           | Some (t, l, rest) => Some (String b t, l, rest)
           | None => None
           end
      else None
  | String _ _, EmptyString => None
  end.

(** [\b(a1|a2|...)\b] tried at one position: the first alternative that can
    be read and is followed by a boundary. *)
Fixpoint alternation (ci : bool) (alts : list string) (prev : option ascii)
  (s : string) : option string :=
  match alts with
  | [] => None
  | a :: alts' =>
      match literal ci a s prev with
      | Some (t, l, rest) =>
          if boundary l (head rest) then Some t
          else alternation ci alts' prev s
      | None => alternation ci alts' prev s
      end
  end.

Definition word_alternation (ci : bool) (alts : list string) : attempt :=
  fun prev s =>
  if boundary prev (head s)
  then match alternation ci alts prev s with
       | Some t => Some (String.length t, [t])
       | None => None
       end
  else None.

(** [pattern.finditer(text)]: the matches from left to right, none
    overlapping the one before.  [try] is the pattern tried at one
    position; [skip] counts the characters still inside the last match. *)
Fixpoint finditer_from (try : attempt) (prev : option ascii) (s : string)
  (pos skip : nat) : list rmatch :=
  match s with
  | EmptyString => []
  | String c r =>
      match skip with
      | S k => finditer_from try (Some c) r (S pos) k
      | O =>
          match try prev s with
          | Some (len, groups) =>
              mk_rmatch pos (pos + len) (substring 0 len s) groups
                :: finditer_from try (Some c) r (S pos) (len - 1)
          | None => finditer_from try (Some c) r (S pos) 0
          end
      end
  end.

Definition finditer (try : attempt) (text : string) : list rmatch :=
  finditer_from try None text 0 0.

(** [re.findall] of a pattern with one group: the group of each match. *)
Definition findall (try : attempt) (text : string) : list string :=
  map (fun m => last (m_groups m) EmptyString) (finditer try text).

(** *** A backtracking matcher for the fixed patterns

    [TICKER_PATTERNS] and the templates of [_match_contextual_tickers] use
    classes, groups, alternatives and greedy repeats.  [run] reads a
    pattern at one position the way [re] does: the first alternative
    first, the longest repeat first, going back on failure.  The
    continuation [k] stands for the rest of the pattern. *)

Inductive regex : Type :=
| Eps
| Chr (p : ascii -> bool)
| Seq (r1 r2 : regex)
| Alt (r1 r2 : regex)
| Star (r : regex)
| Group (i : nat) (r : regex)
| WordBoundary.

Definition captures : Type := list (nat * string).

Definition cont : Type :=
  option ascii -> string -> nat -> captures -> option (nat * captures).

Fixpoint run (r : regex) (prev : option ascii) (s : string) (pos : nat)
  (caps : captures) (k : cont) {struct r} : option (nat * captures) :=
  match r with
  | Eps => k prev s pos caps
  | Chr p =>
      match s with
      | String c s' => if p c then k (Some c) s' (S pos) caps else None
      | EmptyString => None
      end
  | Seq r1 r2 =>
      run r1 prev s pos caps
          (fun prev' s' pos' caps' => run r2 prev' s' pos' caps' k)
  | Alt r1 r2 =>
      match run r1 prev s pos caps k with
      | Some x => Some x
      | None => run r2 prev s pos caps k
      end
  | Star r1 =>
      (fix star (fuel : nat) (prev : option ascii) (s : string) (pos : nat)
           (caps : captures) {struct fuel} : option (nat * captures) :=
         match fuel with
         | O => k prev s pos caps
         | S fuel' =>
             match run r1 prev s pos caps
                       (fun prev' s' pos' caps' =>
                          if (pos <? pos')%nat
                          then star fuel' prev' s' pos' caps'
                          else None) with
             | Some x => Some x
             | None => k prev s pos caps
             end
         end) (String.length s) prev s pos caps
  | Group i r1 =>
      run r1 prev s pos caps
          (fun prev' s' pos' caps' =>
             k prev' s' pos' ((i, substring 0 (pos' - pos) s) :: caps'))
  | WordBoundary =>
      if boundary prev (head s) then k prev s pos caps else None
  end.

Fixpoint capture (i : nat) (caps : captures) : string :=
  match caps with
  | [] => EmptyString
  | (j, t) :: r => if (i =? j)%nat then t else capture i r
  end.

(** A pattern with [groups] groups tried at one position. *)
Definition regex_try (groups : nat) (r : regex) : attempt :=
  fun prev s =>
  match run r prev s 0 [] (fun _ _ pos caps => Some (pos, caps)) with
  | Some (len, caps) =>
      Some (len, map (fun i => capture i caps) (seq 1 groups))
  | None => None
  end.

(** [r+], [r?], [r{1,n}] and a literal word, from the constructors. *)
Definition Plus (r : regex) : regex := Seq r (Star r).
Definition Opt (r : regex) : regex := Alt r Eps.

Fixpoint UpTo (n : nat) (r : regex) : regex :=
  match n with
  | O => Eps
  | S n' => Opt (Seq r (UpTo n' r))
  end.

Definition Repeat_1 (n : nat) (r : regex) : regex := Seq r (UpTo (n - 1) r).

Definition char_is (ci : bool) (a : ascii) : regex :=
  Chr (fun b => if ci then Ascii.eqb (lower_char a) (lower_char b)
                else Ascii.eqb a b).

Fixpoint Word (ci : bool) (w : string) : regex :=
  match w with
  | EmptyString => Eps
  | String a w' => Seq (char_is ci a) (Word ci w')
  end.

(** [[A-Z]] with and without IGNORECASE, [[a-z]] and [\s], on ASCII
    text: under IGNORECASE [[A-Z]] holds the 52 ASCII letters here, and
    not the four letters outside ASCII that [re] adds to them. *)
Definition upper_class (ci : bool) : regex :=
  Chr (fun c => is_upper c || (ci && is_lower c)).
Definition lower_class : regex := Chr is_lower.
Definition space_class : regex := Chr is_space.

(** [([A-Z]{1,5})] as group [i] *)
Definition ticker_group (ci : bool) (i : nat) : regex :=
  Group i (Repeat_1 5 (upper_class ci)).

End Re.

Import Re.

(* ================================================================= *)
(** ** The tables of [src/db/__init__.py] *)

Module Db.

(** A row of [ticker_symbols]; [created_at] is left out. *)
Record ticker_row : Type := mk_ticker_row {
  row_id : Z;
  row_symbol : string;
  row_company_name : option string;
  row_aliases : option string;
  row_sector : option string;
  row_market_cap : option string;
  row_is_active : bool
}.

(** A row of [article_ticker_associations]; [created_at] is left out. *)
Record association_row : Type := mk_association_row {
  assoc_id : Z;
  assoc_article_id : Z;
  assoc_ticker_id : Z;
  assoc_confidence : Q;
  assoc_match_method : string;
  assoc_context_snippet : string
}.

Record database : Type := mk_database {
  ticker_symbols : list ticker_row;
  article_ticker_associations : list association_row
}.

(** [SELECT * FROM ticker_symbols WHERE is_active = true] *)
Definition select_active (db : database) : list ticker_row :=
  filter row_is_active (ticker_symbols db).

(** [SELECT id FROM ticker_symbols WHERE symbol = ?] *)
Definition select_id_by_symbol (db : database) (symbol : string) : list Z :=
  map row_id (filter (fun r => String.eqb (row_symbol r) symbol)
                     (ticker_symbols db)).

(** [SELECT COALESCE(MAX(id), 0) + 1 FROM ticker_symbols]; [MAX] of no row
    is NULL. *)
Definition max_id (ids : list Z) : option Z :=
  match ids with
  | [] => None
  | i :: r => Some (fold_left Z.max r i)
  end.

Definition select_next_id (db : database) : Z :=
  match max_id (map row_id (ticker_symbols db)) with
  | Some m => m + 1
  | None => 0 + 1
  end.

Definition memZ (i : Z) (l : list Z) : bool := existsb (Z.eqb i) l.

Fixpoint distinctZ (l : list Z) : bool :=
  match l with
  | [] => true
  | i :: r => negb (memZ i r) && distinctZ r
  end.

Fixpoint distinct_str (l : list string) : bool :=
  match l with
  | [] => true
  | s :: r => negb (mem s r) && distinct_str r
  end.

(** [insert_dataframe(df, 'ticker_symbols')]: one [INSERT ... SELECT]
    statement, refused as a whole when it breaks [id INTEGER PRIMARY KEY]
    or [symbol TEXT UNIQUE]. *)
Definition insert_ticker_symbols (rows : list ticker_row) (db : database)
  : database * result unit :=
  let all := (ticker_symbols db ++ rows)%list in
  if distinctZ (map row_id all) && distinct_str (map row_symbol all)
  then (mk_database all (article_ticker_associations db), Ok tt)
  else (db, Raise ConstraintException).

(** [insert_dataframe(df, 'article_ticker_associations')]: refused as a
    whole when it breaks [id INTEGER PRIMARY KEY], the only constraint of
    that table. *)
Definition insert_associations (rows : list association_row) (db : database)
  : database * result unit :=
  let all := (article_ticker_associations db ++ rows)%list in
  if distinctZ (map assoc_id all)
  then (mk_database (ticker_symbols db) all, Ok tt)
  else (db, Raise ConstraintException).

(** The [Association] rows of one document and one symbol: the rows of the
    document whose [ticker_id] is the id of a [ticker_symbols] row of that
    symbol. *)
Definition associations_of (db : database) (article_id : Z) (symbol : string)
  : list association_row :=
  filter (fun a => Z.eqb (assoc_article_id a) article_id
                   && memZ (assoc_ticker_id a) (select_id_by_symbol db symbol))
         (article_ticker_associations db).

End Db.

(* ================================================================= *)
(** ** Dictionaries in insertion order *)

Section Dict.

Variable V : Type.

Definition dict : Type := list (string * V).

Fixpoint dict_get (d : dict) (k : string) : option V :=
  match d with
  | [] => None
  | (k', v) :: r => if String.eqb k' k then Some v else dict_get r k
  end.

(** [d[k] = v]: a key already there keeps its place. *)
Fixpoint dict_set (d : dict) (k : string) (v : V) : dict :=
  match d with
  | [] => [(k, v)]
  | (k', v') :: r =>
      if String.eqb k' k then (k, v) :: r else (k', v') :: dict_set r k v
  end.

Definition dict_keys (d : dict) : list string := map fst d.

Definition dict_has (d : dict) (k : string) : bool :=
  match dict_get d k with Some _ => true | None => false end.

End Dict.

(* ================================================================= *)
(** ** [ticker_tagger.py]: constants and data *)

Open Scope string_scope.
Open Scope Q_scope.

Definition TICKER_BLACKLIST : list string :=
  [ "THE"; "AND"; "FOR"; "ARE"; "BUT"; "NOT"; "YOU"; "ALL"; "CAN"; "HER";
    "WAS"; "ONE"; "OUR"; "HAD"; "DAY"; "GET"; "USE"; "MAN"; "NEW"; "NOW";
    "OLD"; "SEE"; "HIM"; "TWO"; "HOW"; "ITS"; "WHO"; "OIL"; "SIT"; "SET";
    "USA"; "CEO"; "CFO"; "CTO"; "IPO"; "SEC"; "FDA"; "FBI"; "CIA"; "NSA" ].

(** [TICKER_PATTERNS]: [\b([A-Z]{1,5})\b] and [\$([A-Z]{1,5})\b]. *)
Definition bare_ticker : regex :=
  Seq WordBoundary (Seq (ticker_group false 1) WordBoundary).

Definition dollar_ticker : regex :=
  Seq (char_is false "$") (Seq (ticker_group false 1) WordBoundary).

Definition TICKER_PATTERNS : list attempt :=
  [ regex_try 1 bare_ticker; regex_try 1 dollar_ticker ].

(** [list(set(l))]; the order of a Python set is not specified, the model
    keeps the first occurrences in order. *)
Fixpoint list_set (l : list string) : list string :=
  match l with
  | [] => []
  | s :: r => s :: filter (fun x => negb (String.eqb x s)) (list_set r)
  end.

Definition extract_tickers_from_text (text : string) : list string :=
  list_set
    (flat_map (fun pattern =>
                 filter (fun t => negb (mem t TICKER_BLACKLIST))
                        (findall pattern (upper text)))
              TICKER_PATTERNS).

(** A call [extract_tickers_from_text(text, **kwargs)].  The function has
    the single parameter [text], bound here by position, so that every
    keyword argument is unexpected and the call raises [TypeError] before
    the body runs. *)
Definition call_extract_tickers_from_text (text : string)
  (kwargs : list (string * bool)) : result (list string) :=
  match kwargs with
  | [] => Ok (extract_tickers_from_text text)
  | _ :: _ => Raise TypeError
  end.

Record TickerMatch : Type := mk_TickerMatch {
  symbol : string;
  company_name : string;
  positions : list (nat * nat);
  context_snippets : list string;
  confidence : Q;
  match_method : string
}.

(** What [json.loads] returns: [None], a [bool], a number, a [str], a
    [list] or a [dict] with its keys in order.  A number is read here
    for its truth value only, and the floats that are not finite behave
    as any number other than zero. *)
#[warnings="-register-all"] Inductive json : Type :=
| JNull
| JBool (b : bool)
| JNumber (n : Q)
| JString (s : string)
| JArray (items : list json)
| JObject (members : list (string * json)).

(** The [symbol_obj] dictionaries built by the loader; [aliases] holds
    whatever the payload decoded to. *)
Record symbol_obj : Type := mk_symbol_obj {
  obj_id : option Z;
  obj_symbol : string;
  obj_company_name : option string;
  obj_aliases : json;
  obj_sector : option string
}.

Record TickerTagger : Type := mk_TickerTagger {
  symbol_dict : dict symbol_obj;
  company_name_dict : dict symbol_obj;
  alias_dict : dict symbol_obj;
  known_symbols_pattern : option (list string);
  company_names_pattern : option (list string)
}.

(** Truth value of an optional string: [None] and [''] are false. *)
Definition truthy_opt (s : option string) : bool :=
  match s with Some t => truthy t | None => false end.

(** [x or ""] *)
Definition or_empty (s : option string) : string :=
  match s with Some t => t | None => "" end.

(* ================================================================= *)
(** ** Loading the reference set *)

Section Loader.

(** [json.loads] on an alias payload: the value it decodes to, or the
    exception raised on text that is not JSON. *)
Variable json_loads : string -> result json.

(** [json.loads(row.get('aliases', '[]')) if pd.notna(row.get('aliases'))
    and row.get('aliases') else []] *)
Definition decoded_aliases (row : Db.ticker_row) : result json :=
  match Db.row_aliases row with
  | Some payload => if truthy payload then json_loads payload
                    else Ok (JArray [])
  | None => Ok (JArray [])
  end.

(** [if symbol_obj['aliases']]: the truth value of a decoded value. *)
Definition json_truthy (v : json) : bool :=
  match v with
  | JNull => false
  | JBool b => b
  | JNumber n => negb (Qeq_bool n 0)
  | JString s => truthy s
  | JArray items => match items with [] => false | _ :: _ => true end
  | JObject members => match members with [] => false | _ :: _ => true end
  end.

(** [for alias in symbol_obj['aliases']]: a list gives its elements, a
    string its characters, a dictionary its keys; a number or a boolean
    cannot be iterated. *)
Definition json_iter (v : json) : result (list json) :=
  match v with
  | JArray items => Ok items
  | JString s =>
      Ok (map (fun c => JString (String c EmptyString))
              (list_ascii_of_string s))
  | JObject members => Ok (map (fun kv => JString (fst kv)) members)
  | JNull | JBool _ | JNumber _ => Raise TypeError
  end.

(** [alias.lower()]: only a string has the method. *)
Definition alias_lower (alias : json) : result string :=
  match alias with
  | JString s => Ok (lower s)
  | _ => Raise AttributeError
  end.

(** The alias loop: the entries stored before an exception stay
    stored. *)
Fixpoint store_aliases (obj : symbol_obj) (aliases : list json)
  (d : dict symbol_obj) : dict symbol_obj * result unit :=
  match aliases with
  | [] => (d, Ok tt)
  | alias :: rest =>
      match alias_lower alias with
      | Ok key => store_aliases obj rest (dict_set d key obj)
      | Raise e => (d, Raise e)
      end
  end.

(** One turn of the loop over the rows, for a row whose payload was
    decoded: the record goes into the symbol index and the name index,
    then into the alias index under each of its aliases. *)
Definition load_row (row : Db.ticker_row) (aliases : json)
  (t : TickerTagger) : TickerTagger * result unit :=
  let obj := mk_symbol_obj (Some (Db.row_id row)) (Db.row_symbol row)
                           (Db.row_company_name row) aliases
                           (Db.row_sector row) in
  let symbol_dict' := dict_set (symbol_dict t) (obj_symbol obj) obj in
  let company_name_dict' :=
    if truthy_opt (obj_company_name obj)
    then dict_set (company_name_dict t)
                  (lower (or_empty (obj_company_name obj))) obj
    else company_name_dict t in
  let stored :=
    if json_truthy (obj_aliases obj)
    then match json_iter (obj_aliases obj) with
         | Ok items => store_aliases obj items (alias_dict t)
         | Raise e => (alias_dict t, Raise e)
         end
    else (alias_dict t, Ok tt) in
  (mk_TickerTagger symbol_dict' company_name_dict' (fst stored)
                   (known_symbols_pattern t) (company_names_pattern t),
   snd stored).

(** The loop: the dictionaries are updated in place, so what was stored
    before an exception stays stored. *)
Fixpoint load_rows (rows : list Db.ticker_row) (t : TickerTagger)
  : TickerTagger * result unit :=
  match rows with
  | [] => (t, Ok tt)
  | row :: rest =>
      match decoded_aliases row with
      | Ok aliases =>
          match load_row row aliases t with
          | (t', Ok _) => load_rows rest t'
          | (t', Raise e) => (t', Raise e)
          end
      | Raise e => (t, Raise e)
      end
  end.

(** [_load_ticker_data]: [query] is the outcome of the [SELECT]; the
    [except Exception] clause logs and goes on. *)
Definition _load_ticker_data (query : result (list Db.ticker_row))
  (t : TickerTagger) : TickerTagger :=
  match query with
  | Ok rows => fst (load_rows rows t)
  | Raise _ => t
  end.

(** [sort(key=len, reverse=True)]: stable, longest first. *)
Fixpoint insert_by_len (x : string) (l : list string) : list string :=
  match l with
  | [] => [x]
  | y :: r =>
      if (String.length x <? String.length y)%nat
      then y :: insert_by_len x r
      else x :: l
  end.

Definition sort_by_len_desc (l : list string) : list string :=
  fold_right insert_by_len [] l.

(** [_compile_patterns]; a compiled pattern is given by its alternatives,
    [re.escape] making each of them a literal. *)
Definition _compile_patterns (t : TickerTagger) : TickerTagger :=
  let symbols := dict_keys (symbol_dict t) in
  let company_names := dict_keys (company_name_dict t) in
  mk_TickerTagger (symbol_dict t) (company_name_dict t) (alias_dict t)
    (match symbols with
     | [] => None
     | _ => Some (sort_by_len_desc symbols)
     end)
    (match company_names with
     | [] => None
     | _ =>
         match filter (fun name => (3 <? String.length name)%nat)
                      company_names with
         | [] => None
         | escaped_names => Some (sort_by_len_desc escaped_names)
         end
     end).

(** [TickerTagger()] *)
Definition new_TickerTagger (query : result (list Db.ticker_row))
  : TickerTagger :=
  _compile_patterns
    (_load_ticker_data query (mk_TickerTagger [] [] [] None None)).

End Loader.

(* ================================================================= *)
(** ** Context windows and confidence scores *)

(** [_extract_context(text, start, end, window)] *)
Definition _extract_context (text : string) (start end_ window : nat)
  : string :=
  let context_start := (start - window)%nat in
  let context_end := Nat.min (String.length text) (end_ + window) in
  let context := strip (slice text context_start context_end) in
  join " " (split context).

Definition financial_indicators : list string :=
  [ "stock"; "shares"; "trading"; "market"; "price"; "earnings";
    "revenue"; "investor"; "analyst"; "upgrade"; "downgrade" ].

Definition common_combinations : list string :=
  [ "THE"; "AND"; "FOR"; "ARE"; "BUT"; "NOT"; "YOU"; "ALL"; "CAN"; "HER";
    "WAS"; "ONE"; "OUR"; "HAD"; "BUT"; "SAID" ].

(** [for x in terms: if x in s: confidence += 0.1] *)
Definition add_terms (terms : list string) (s : string) (confidence : Q) : Q :=
  fold_left (fun c term => if contains term s then c + 0.1 else c)
            terms confidence.

Definition _calculate_pattern_confidence (ticker context full_text : string)
  : Q :=
  let confidence := 0.5 in
  let context_lower := lower context in
  let confidence := add_terms financial_indicators context_lower confidence in
  let confidence :=
    if contains ("$" ++ ticker) full_text then confidence + 0.2
    else confidence in
  let mention_count := count full_text ticker in
  let confidence := confidence + min2 (of_nat mention_count * 0.05) 0.2 in
  let confidence :=
    if mem ticker common_combinations then confidence * 0.1
    else confidence in
  min2 confidence 1.0.

Definition financial_terms : list string :=
  [ "stock"; "shares"; "ticker"; "symbol"; "trades"; "listed"; "nasdaq";
    "nyse" ].

Definition _calculate_contextual_confidence
  (ticker context matched_text : string) : Q :=
  let confidence := 0.7 in
  let confidence :=
    if contains "(" matched_text && contains ")" matched_text
    then confidence + 0.2 else confidence in
  let confidence :=
    add_terms financial_terms (lower matched_text) confidence in
  min2 confidence 1.0.

(* ================================================================= *)
(** ** The four matchers *)

(** [match.group(1)] *)
Definition group1 (m : rmatch) : string := hd "" (m_groups m).

(** [_match_known_symbols] *)
Definition known_symbol_hit (t : TickerTagger) (text : string) (m : rmatch)
  : list TickerMatch :=
  let symbol := upper (group1 m) in
  if mem symbol TICKER_BLACKLIST then []
  else match dict_get (symbol_dict t) symbol with
       | None => []
       | Some ticker_obj =>
           let context := _extract_context text (m_start m) (m_end m) 50 in
           [ mk_TickerMatch symbol (or_empty (obj_company_name ticker_obj))
               [(m_start m, m_end m)] [context] 0.9 "known_symbol" ]
       end.

Definition _match_known_symbols (t : TickerTagger) (text : string)
  : list TickerMatch :=
  match known_symbols_pattern t with
  | None => []
  | Some alts =>
      flat_map (known_symbol_hit t text)
               (finditer (word_alternation true alts) text)
  end.

(** [_match_company_names] *)
Definition company_name_hit (t : TickerTagger) (text : string) (m : rmatch)
  : list TickerMatch :=
  let name := lower (group1 m) in
  let ticker_obj :=
    match dict_get (company_name_dict t) name with
    | Some o => Some o
    | None => dict_get (alias_dict t) name
    end in
  match ticker_obj with
  | None => []
  | Some ticker_obj =>
      let context := _extract_context text (m_start m) (m_end m) 50 in
      [ mk_TickerMatch (obj_symbol ticker_obj)
          (or_empty (obj_company_name ticker_obj))
          [(m_start m, m_end m)] [context] 0.8 "company_name" ]
  end.

Definition _match_company_names (t : TickerTagger) (text : string)
  : list TickerMatch :=
  match company_names_pattern t with
  | None => []
  | Some alts =>
      flat_map (company_name_hit t text)
               (finditer (word_alternation true alts) text)
  end.

(** [_match_ticker_patterns]: the candidates come from a call of
    [extract_tickers_from_text] with the keyword [use_whitelist=False]. *)
Definition pattern_hit (ticker text : string) (m : rmatch)
  : list TickerMatch :=
  let context := _extract_context text (m_start m) (m_end m) 50 in
  let confidence := _calculate_pattern_confidence ticker context text in
  if Qlt_bool 0.3 confidence
  then [ mk_TickerMatch ticker "" [(m_start m, m_end m)] [context]
           confidence "pattern_match" ]
  else [].

Definition pattern_ticker_hits (t : TickerTagger) (text ticker : string)
  : list TickerMatch :=
  if dict_has (symbol_dict t) ticker then []
  else flat_map (pattern_hit ticker text)
                (finditer (word_alternation false [ticker]) text).

Definition _match_ticker_patterns (t : TickerTagger) (text : string)
  : result (list TickerMatch) :=
  let* potential_tickers :=
    call_extract_tickers_from_text text [("use_whitelist", false)] in
  Ok (flat_map (pattern_ticker_hits t text) potential_tickers).

(** The five templates of [_match_contextual_tickers]; the second, third
    and fourth are compiled with IGNORECASE. *)

(** [Company (TICKER)]: group 1 is a run of capitalized words,
    [[A-Z][a-z]+] repeated with [\s+] between them, and group 2 the ticker
    [[A-Z]{1,5}] between parentheses, blanks allowed around it. *)
Definition capitalized_word : regex :=
  Seq (upper_class false) (Plus lower_class).

Definition company_ticker_template : regex :=
  Seq (Group 1 (Seq capitalized_word
                    (Star (Seq (Plus space_class) capitalized_word))))
      (Seq (Star space_class)
           (Seq (char_is false "(")
                (Seq (Star space_class)
                     (Seq (ticker_group false 2)
                          (Seq (Star space_class) (char_is false ")")))))).

(** [\b([A-Z]{1,5})\s+(?:stock|shares|equity)] *)
Definition ticker_stock_template : regex :=
  Seq WordBoundary
      (Seq (ticker_group true 1)
           (Seq (Plus space_class)
                (Alt (Word true "stock")
                     (Alt (Word true "shares") (Word true "equity"))))).

(** [(?:trades|trading|listed)\s+as\s+([A-Z]{1,5})] *)
Definition trades_as_template : regex :=
  Seq (Alt (Word true "trades")
           (Alt (Word true "trading") (Word true "listed")))
      (Seq (Plus space_class)
           (Seq (Word true "as")
                (Seq (Plus space_class) (ticker_group true 1)))).

(** [ticker\s+(?:symbol\s+)?([A-Z]{1,5})] *)
Definition ticker_symbol_template : regex :=
  Seq (Word true "ticker")
      (Seq (Plus space_class)
           (Seq (Opt (Seq (Word true "symbol") (Plus space_class)))
                (ticker_group true 1))).

(** [\$([A-Z]{1,5})\b], as in [TICKER_PATTERNS] *)
Definition dollar_template : regex := dollar_ticker.

(** The compiled patterns, each given by its [finditer]. *)
Definition contextual_patterns : list (string -> list rmatch) :=
  [ finditer (regex_try 2 company_ticker_template);
    finditer (regex_try 1 ticker_stock_template);
    finditer (regex_try 1 trades_as_template);
    finditer (regex_try 1 ticker_symbol_template);
    finditer (regex_try 1 dollar_template) ].

Definition contextual_ticker (m : rmatch) : string :=
  upper (last (m_groups m) "").

Definition contextual_hit (text : string) (m : rmatch) : list TickerMatch :=
  let groups := m_groups m in
  let ticker := contextual_ticker m in
  if mem ticker TICKER_BLACKLIST then []
  else
    let context := _extract_context text (m_start m) (m_end m) 100 in
    let confidence :=
      _calculate_contextual_confidence ticker context (m_group0 m) in
    let company_name :=
      if (1 <? length groups)%nat then hd "" groups else "" in
    if Qlt_bool 0.5 confidence
    then [ mk_TickerMatch ticker company_name [(m_start m, m_end m)]
             [context] confidence "contextual_match" ]
    else [].

Definition _match_contextual_tickers (text : string) : list TickerMatch :=
  flat_map (fun pattern => flat_map (contextual_hit text) (pattern text))
           contextual_patterns.

(* ================================================================= *)
(** ** Merging the mentions of one symbol *)

(** [symbol_matches[match.symbol].append(match)] on a [defaultdict(list)] *)
Definition group_append (d : dict (list TickerMatch)) (m : TickerMatch)
  : dict (list TickerMatch) :=
  match dict_get d (symbol m) with
  | Some l => dict_set d (symbol m) (l ++ [m])%list
  | None => dict_set d (symbol m) [m]
  end.

Definition group_by_symbol (matches : list TickerMatch)
  : dict (list TickerMatch) :=
  fold_left group_append matches [].

(** The key of [max(methods, key=...)]; a method not in the table has
    rank 0. *)
Definition method_rank (m : string) : nat :=
  if String.eqb m "known_symbol" then 4
  else if String.eqb m "company_name" then 3
  else if String.eqb m "contextual_match" then 2
  else if String.eqb m "pattern_match" then 1
  else 0.

(** The confidence of a group from the confidences of its mentions and the
    number of its spans. *)
Definition weighted_confidence (first : Q) (others : list Q) : Q :=
  max_list first others * 0.7
  + (sum (first :: others) / of_nat (length (first :: others))) * 0.3.

Definition boosted_confidence (final_confidence : Q) (mention_count : nat)
  : Q :=
  if (1 <? mention_count)%nat
  then min2 (final_confidence * (1 + of_nat mention_count * 0.05)) 1.0
  else final_confidence.

Definition final_confidence_of (first : TickerMatch)
  (others : list TickerMatch) : Q :=
  boosted_confidence
    (weighted_confidence (confidence first) (map confidence others))
    (length (flat_map positions (first :: others))).

(** The body of the loop over the groups. *)
Definition merge_group (symbol : string) (match_list : list TickerMatch)
  : list TickerMatch :=
  match match_list with
  | [] => []
  | first :: others =>
      let all_positions := flat_map positions match_list in
      let all_contexts := flat_map context_snippets match_list in
      let methods := map match_method match_list in
      let company_names :=
        filter truthy (map company_name match_list) in
      let best_company_name :=
        match company_names with
        | [] => ""
        | n :: ns => max_by String.length n ns
        end in
      [ mk_TickerMatch symbol best_company_name all_positions
          (firstn 5 all_contexts)
          (final_confidence_of first others)
          (max_by method_rank (match_method first)
                  (map match_method others)) ]
  end.

(** [sort(key=lambda m: m.confidence, reverse=True)]: stable, greatest
    first. *)
Fixpoint insert_by_confidence (x : TickerMatch) (l : list TickerMatch)
  : list TickerMatch :=
  match l with
  | [] => [x]
  | y :: r =>
      if Qlt_bool (confidence x) (confidence y)
      then y :: insert_by_confidence x r
      else x :: l
  end.

Definition sort_by_confidence_desc (l : list TickerMatch) : list TickerMatch :=
  fold_right insert_by_confidence [] l.

Definition _deduplicate_and_score (matches : list TickerMatch) (text : string)
  : list TickerMatch :=
  sort_by_confidence_desc
    (flat_map (fun g => merge_group (fst g) (snd g))
              (group_by_symbol matches)).

(* ================================================================= *)
(** ** Tagging one document *)

(** [f"{title} {text}" if title else text] *)
Definition full_text_of (title text : string) : string :=
  if truthy title then title ++ " " ++ text else text.

Definition tag_article_text (t : TickerTagger) (title text : string)
  (article_id : option Z) : result (list TickerMatch) :=
  let full_text := full_text_of title text in
  if negb (truthy (strip full_text)) then Ok []
  else
    let known_matches := _match_known_symbols t full_text in
    let company_matches := _match_company_names t full_text in
    let* pattern_matches := _match_ticker_patterns t full_text in
    let contextual_matches :=
      _match_contextual_tickers full_text in
    Ok (_deduplicate_and_score
          (known_matches ++ company_matches ++ pattern_matches
           ++ contextual_matches)%list
          full_text).

(* ================================================================= *)
(** ** Persisting the results of one document *)

(** The ticker row created for a symbol that is not in the table yet. *)
Definition new_ticker_row (next_id : Z) (m : TickerMatch) : Db.ticker_row :=
  Db.mk_ticker_row next_id (symbol m)
    (if truthy (company_name m) then Some (company_name m) else None)
    (Some "[]") None None true.

(** The get-or-create step of the loop: the id of the symbol's row. *)
Definition get_or_create_ticker (m : TickerMatch) (db : Db.database)
  : Db.database * result Z :=
  match Db.select_id_by_symbol db (symbol m) with
  | ticker_id :: _ => (db, Ok ticker_id)
  | [] =>
      let next_id := Db.select_next_id db in
      match Db.insert_ticker_symbols [new_ticker_row next_id m] db with
      | (db', Raise e) => (db', Raise e)
      | (db', Ok _) =>
          match Db.select_id_by_symbol db' (symbol m) with
          | ticker_id :: _ => (db', Ok ticker_id)
          | [] => (db', Raise IndexError)
          end
      end
  end.

(** The loop over the results; [associations_data] grows by one row per
    result, with the manual id [len(associations_data) + 1]. *)
Fixpoint collect_associations (article_id : Z) (matches : list TickerMatch)
  (associations_data : list Db.association_row) (db : Db.database)
  : Db.database * result (list Db.association_row) :=
  match matches with
  | [] => (db, Ok associations_data)
  | m :: rest =>
      match get_or_create_ticker m db with
      | (db', Raise e) => (db', Raise e)
      | (db', Ok ticker_id) =>
          let row :=
            Db.mk_association_row
              (Z.of_nat (length associations_data) + 1)
              article_id ticker_id (confidence m) (match_method m)
              (hd "" (context_snippets m)) in
          collect_associations article_id rest
            (associations_data ++ [row])%list db'
      end
  end.

Definition persist_ticker_associations (article_id : Z)
  (ticker_matches : list TickerMatch) (db : Db.database)
  : Db.database * result unit :=
  match ticker_matches with
  | [] => (db, Ok tt)
  | _ =>
      match collect_associations article_id ticker_matches [] db with
      | (db', Raise e) => (db', Raise e)
      | (db', Ok []) => (db', Ok tt)
      | (db', Ok associations_data) =>
          Db.insert_associations associations_data db'
      end
  end.

(* ================================================================= *)
(** ** Populating the reference set *)

(** [sp500_tickers]: symbol, name and sector. *)
Definition sp500_tickers : list (string * string * string) :=
  [ ("AAPL", "Apple Inc.", "Technology");
    ("MSFT", "Microsoft Corporation", "Technology");
    ("GOOGL", "Alphabet Inc.", "Technology");
    ("AMZN", "Amazon.com Inc.", "Consumer Discretionary");
    ("TSLA", "Tesla Inc.", "Consumer Discretionary");
    ("META", "Meta Platforms Inc.", "Communication Services");
    ("NVDA", "NVIDIA Corporation", "Technology");
    ("JPM", "JPMorgan Chase & Co.", "Financials");
    ("V", "Visa Inc.", "Information Technology");
    ("JNJ", "Johnson & Johnson", "Health Care") ].

(** A row of the data frame that [populate_sp500_tickers] builds.  Its
    columns stand in the order of the keys of the dictionaries: [id],
    [symbol], [company_name], [sector], [market_cap], [aliases],
    [is_active]; [created_at] is left out. *)
Record sp500_frame_row : Type := mk_sp500_frame_row {
  frame_id : Z;
  frame_symbol : string;
  frame_company_name : string;
  frame_sector : string;
  frame_market_cap : string;
  frame_aliases : string;
  frame_is_active : bool
}.

(** [INSERT INTO ticker_symbols SELECT * FROM temp_df] takes the columns
    of the frame by position, into [id], [symbol], [company_name],
    [aliases], [sector], [market_cap], [is_active]: the fourth column of
    the frame lands in [aliases], the fifth in [sector], the sixth in
    [market_cap]. *)
Definition select_star (r : sp500_frame_row) : Db.ticker_row :=
  Db.mk_ticker_row (frame_id r) (frame_symbol r)
    (Some (frame_company_name r)) (Some (frame_sector r))
    (Some (frame_market_cap r)) (Some (frame_aliases r))
    (frame_is_active r).

(** The loop of [populate_sp500_tickers]: a symbol that has a row is
    skipped, another one gets a frame row with the manual id
    [len(ticker_data) + 1]. *)
Fixpoint sp500_ticker_data (tickers : list (string * string * string))
  (ticker_data : list sp500_frame_row) (db : Db.database)
  : list sp500_frame_row :=
  match tickers with
  | [] => ticker_data
  | (symbol, name, sector) :: rest =>
      match Db.select_id_by_symbol db symbol with
      | _ :: _ => sp500_ticker_data rest ticker_data db
      | [] =>
          sp500_ticker_data rest
            (ticker_data
             ++ [ mk_sp500_frame_row
                    (Z.of_nat (length ticker_data) + 1) symbol name sector
                    "large" "[]" true ])%list
            db
      end
  end.

Definition populate_sp500_tickers (db : Db.database)
  : Db.database * result unit :=
  match sp500_ticker_data sp500_tickers [] db with
  | [] => (db, Ok tt)
  | ticker_data => Db.insert_ticker_symbols (map select_star ticker_data) db
  end.

(* ================================================================= *)
(** ** Reference values used in the statements *)

(** The Mention built from a template hit, before any filter. *)
Definition contextual_mention (text : string) (m : rmatch) : TickerMatch :=
  let ticker := contextual_ticker m in
  let context := _extract_context text (m_start m) (m_end m) 100 in
  mk_TickerMatch ticker
    (if (1 <? length (m_groups m))%nat then hd "" (m_groups m) else "")
    [(m_start m, m_end m)] [context]
    (_calculate_contextual_confidence ticker context (m_group0 m))
    "contextual_match".

(** The decoder on the payloads of the examples: [[]], the payload this
    repository writes, is the empty list, [[1]] is a list that holds a
    number, and [{oops] is not JSON. *)
Definition json_loads_sample (payload : string) : result json :=
  if String.eqb payload "[]" then Ok (JArray [])
  else if String.eqb payload "[1]" then Ok (JArray [JNumber 1])
  else Raise JSONDecodeError.

Definition sample_row (id : Z) (symbol name payload : string)
  : Db.ticker_row :=
  Db.mk_ticker_row id symbol (Some name) (Some payload) None None true.

(** A reference set with one record. *)
Definition aapl_tagger : TickerTagger :=
  new_TickerTagger json_loads_sample
    (Ok [sample_row 1 "AAPL" "Apple Inc." "[]"]).

(** The mentions of one symbol among the raw matches, in order. *)
Definition mentions_of (sym : string) (matches : list TickerMatch)
  : list TickerMatch :=
  filter (fun m => String.eqb (symbol m) sym) matches.

(** The merged confidence in the words of the specification: the weighted
    sum of the greatest and the mean confidence, boosted and capped when
    the symbol has more than one span. *)
Definition maximum (first : Q) (others : list Q) : Q :=
  fold_right Qmax first others.

Definition mean (l : list Q) : Q :=
  fold_right Qplus 0 l / of_nat (length l).

Definition spec_final_confidence (first : Q) (others : list Q)
  (span_count : nat) : Q :=
  let c := maximum first others * 0.7 + mean (first :: others) * 0.3 in
  if (1 <? span_count)%nat
  then Qmin (c * (1 + of_nat span_count * 0.05)) 1
  else c.

(** What every matcher gives its Mentions: one span, and a confidence
    between 0.55, the least score of a kept pattern match, and 1. *)
Definition emitted (m : TickerMatch) : Prop :=
  length (positions m) = 1%nat /\ 0.55 <= confidence m <= 1.

(** A reference set whose one symbol is a blacklisted token. *)
Definition allstate_tagger : TickerTagger :=
  new_TickerTagger json_loads_sample
    (Ok [sample_row 1 "ALL" "Allstate Corporation" "[]"]).

(** The candidates of the pattern matcher, had the call of
    [extract_tickers_from_text] been made without the keyword. *)
Definition pattern_candidates (t : TickerTagger) (text : string)
  : list TickerMatch :=
  flat_map (pattern_ticker_hits t text) (extract_tickers_from_text text).

(** The values that the alias loop runs through without an exception:
    a false value, which skips the loop, or a value that can be iterated
    and gives strings only. *)
Definition is_str (v : json) : bool :=
  match v with JString _ => true | _ => false end.

Definition alias_loop_ok (aliases : json) : bool :=
  negb (json_truthy aliases)
  || match json_iter aliases with
     | Ok items => forallb is_str items
     | Raise _ => false
     end.

(** A row whose alias payload can be read: it decodes, and the alias
    loop runs through what it decodes to. *)
Definition readable (json_loads : string -> result json)
  (row : Db.ticker_row) : Prop :=
  exists aliases,
    decoded_aliases json_loads row = Ok aliases
    /\ alias_loop_ok aliases = true.

(** Three records, the second with a payload that is not JSON. *)
Definition rows_with_malformed_aliases : list Db.ticker_row :=
  [ sample_row 1 "AAPL" "Apple Inc." "[]";
    sample_row 2 "MSFT" "Microsoft Corporation" "{oops";
    sample_row 3 "GOOGL" "Alphabet Inc." "[]" ].

(** Three records, the second with a payload that decodes to a list
    holding a number. *)
Definition rows_with_ill_typed_aliases : list Db.ticker_row :=
  [ sample_row 1 "AAPL" "Apple Inc." "[]";
    sample_row 2 "MSFT" "Microsoft Corporation" "[1]";
    sample_row 3 "GOOGL" "Alphabet Inc." "[]" ].

(** Results of two documents, and the tables after the first was
    persisted into empty tables. *)
Definition aapl_result : TickerMatch :=
  mk_TickerMatch "AAPL" "Apple Inc." [(0, 4)%nat] ["AAPL rose"] 0.9
                 "known_symbol".

Definition msft_result : TickerMatch :=
  mk_TickerMatch "MSFT" "" [(0, 14)%nat] ["trades as MSFT"] 0.8
                 "contextual_match".

Definition empty_database : Db.database := Db.mk_database [] [].

Definition database_after_article_7 : Db.database :=
  fst (persist_ticker_associations 7 [aapl_result] empty_database).

(** A second mention of AAPL, by its company name. *)
Definition aapl_name_mention : TickerMatch :=
  mk_TickerMatch "AAPL" "Apple Inc." [(10, 20)%nat] ["AAPL rose, Apple Inc led"]
                 0.8 "company_name".

(** The four matchers and the merge step as [tag_article_text] chains
    them, with [pattern_candidates] in the place of the call that
    raises. *)
Definition merged_candidates (t : TickerTagger) (text : string)
  : list TickerMatch :=
  _deduplicate_and_score
    (_match_known_symbols t text ++ _match_company_names t text
     ++ pattern_candidates t text ++ _match_contextual_tickers text)%list
    text.

(** A result reduced to its symbol, company name, spans, method and
    confidence in lowest terms. *)
Definition summary (r : TickerMatch)
  : string * string * list (nat * nat) * string * Q :=
  (symbol r, company_name r, positions r, match_method r,
   Qred (confidence r)).

Definition empty_tagger : TickerTagger :=
  new_TickerTagger json_loads_sample (Ok []).

(** The character before the end of [s], or [prev] when [s] is empty. *)
Fixpoint last_char (prev : option ascii) (s : string) : option ascii :=
  match s with
  | EmptyString => prev
  | String c r => last_char (Some c) r
  end.

(** A string of word characters, not empty: what [\b] delimits. *)
Definition word_string (s : string) : Prop :=
  s <> "" /\ all_chars is_word s = true.

(* ================================================================= *)
(** ** Reference values for the further properties *)

(** The order of the results: [a] may stand before [b]. *)
Definition confidence_ge (a b : TickerMatch) : Prop :=
  confidence b <= confidence a.

(** The Mention built from a whole-word hit of a candidate, before the
    threshold. *)
Definition pattern_mention (ticker text : string) (m : rmatch)
  : TickerMatch :=
  let context := _extract_context text (m_start m) (m_end m) 50 in
  mk_TickerMatch ticker "" [(m_start m, m_end m)] [context]
    (_calculate_pattern_confidence ticker context text) "pattern_match".

(** The one result of two mentions of AAPL. *)
Definition aapl_merged : TickerMatch :=
  hd aapl_result (_deduplicate_and_score [aapl_result; aapl_name_mention] "").

(** A known symbol and an unknown token in one text. *)
Definition aapl_known_mention : TickerMatch :=
  hd aapl_result (_match_known_symbols aapl_tagger "AAPL beat ZYXQ").

Definition zyxq_pattern_mention : TickerMatch :=
  hd aapl_result (pattern_candidates aapl_tagger "AAPL beat ZYXQ").

(** A word as [str.split] cuts it: not empty, no blank character. *)
Definition nonblank_word (s : string) : Prop :=
  s <> "" /\ all_chars (fun c => negb (is_space c)) s = true.

(** What the constraints of [ticker_symbols] keep true of the table: no
    two rows share an id ([PRIMARY KEY]) or a symbol ([UNIQUE]). *)
Definition ticker_table_ok (db : Db.database) : Prop :=
  NoDup (map Db.row_id (Db.ticker_symbols db))
  /\ NoDup (map Db.row_symbol (Db.ticker_symbols db)).

(** The association row [a] records the result [m] of document
    [article_id] in the tables [db]: score, method and first snippet of
    [m], and the id of the one [ticker_symbols] row of its symbol. *)
Definition stored_as (db : Db.database) (article_id : Z)
  (a : Db.association_row) (m : TickerMatch) : Prop :=
  Db.assoc_article_id a = article_id
  /\ Db.assoc_confidence a = confidence m
  /\ Db.assoc_match_method a = match_method m
  /\ Db.assoc_context_snippet a = hd "" (context_snippets m)
  /\ Db.select_id_by_symbol db (symbol m) = [Db.assoc_ticker_id a].

(** [w] stands in [text] between [pre] and [post], with a word boundary
    [\b] on each side. *)
Definition delimited (text pre w post : string) : Prop :=
  text = pre ++ w ++ post
  /\ boundary (last_char None pre) (head (w ++ post)) = true
  /\ boundary (last_char (last_char None pre) w) (head post) = true.

(** ASCII text: the text on which [re] and [str] behave as embedded
    here.  Under IGNORECASE the patterns of the code also fold four
    letters outside ASCII, and [lower], [upper] and [\b] know the letters
    of every script, which the embedding does not follow. *)
Definition is_ascii (s : string) : bool :=
  all_chars (fun c => (code c <? 128)%nat) s.

(** The rows of a query carry ASCII company names. *)
Definition ascii_names (query : result (list Db.ticker_row)) : bool :=
  match query with
  | Ok rows =>
      forallb (fun row => match Db.row_company_name row with
                          | Some name => is_ascii name
                          | None => true
                          end) rows
  | Raise _ => true
  end.

(** The tagger with another alias index. *)
Definition with_alias_dict (t : TickerTagger) (d : dict symbol_obj)
  : TickerTagger :=
  mk_TickerTagger (symbol_dict t) (company_name_dict t) d
                  (known_symbols_pattern t) (company_names_pattern t).

(** The Mention of a company name. *)
Definition allstate_name_mention : TickerMatch :=
  hd aapl_result
     (_match_company_names allstate_tagger "Allstate Corporation shares fell").

(** A token of the shape [[A-Z]{1,5}]. *)
Definition ticker_shaped (s : string) : Prop :=
  (1 <= String.length s <= 5)%nat /\ all_chars is_upper s = true.

(** The record that the loader builds from a row and its alias list. *)
Definition row_obj (row : Db.ticker_row) (aliases : json)
  : symbol_obj :=
  mk_symbol_obj (Some (Db.row_id row)) (Db.row_symbol row)
                (Db.row_company_name row) aliases (Db.row_sector row).

(** What the three indexes of a tagger promise: an entry leads to a
    record that carries its key, as symbol, as company name in lower
    case, or as one of its aliases in lower case. *)
Definition indexes_sound (t : TickerTagger) : Prop :=
  (forall k obj, dict_get (symbol_dict t) k = Some obj -> obj_symbol obj = k)
  /\ (forall k obj,
        dict_get (company_name_dict t) k = Some obj ->
        exists name,
          obj_company_name obj = Some name /\ truthy name = true
          /\ k = lower name)
  /\ (forall k obj,
        dict_get (alias_dict t) k = Some obj ->
        exists items alias,
          json_iter (obj_aliases obj) = Ok items
          /\ In (JString alias) items /\ k = lower alias).

(** The tables after one ticker row was created with the first free
    id. *)
Definition database_with_zyxq : Db.database :=
  Db.mk_database
    [Db.mk_ticker_row 1 "ZYXQ" None (Some "[]") None None true] [].

(** The groups that a pattern can set. *)
Fixpoint groups_of (r : regex) : list nat :=
  match r with
  | Eps | Chr _ | WordBoundary => []
  | Seq r1 r2 | Alt r1 r2 => (groups_of r1 ++ groups_of r2)%list
  | Star r1 => groups_of r1
  | Group i r1 => i :: groups_of r1
  end.

(** A Mention read by a template from lower-case text. *)
Definition zyxq_contextual_mention : TickerMatch :=
  hd aapl_result (_match_contextual_tickers "trades as zyxq on NASDAQ").

(* ================================================================= *)
(** * Properties *)

(** ** Arithmetic of the scores *)

Lemma Qlt_bool_true (a b : Q) : Qlt_bool a b = true <-> a < b.
Proof.
  unfold Qlt_bool. rewrite negb_true_iff.
  split; intro H.
  - apply Qnot_le_lt. intro Hle. apply Qle_bool_iff in Hle. congruence.
  - destruct (Qle_bool b a) eqn:E; [|reflexivity].
    apply Qle_bool_iff in E. exfalso. apply (Qlt_not_le _ _ H E).
Qed.

Lemma Qlt_bool_false (a b : Q) : Qlt_bool a b = false <-> b <= a.
Proof.
  unfold Qlt_bool. rewrite negb_false_iff. apply Qle_bool_iff.
Qed.

Lemma min2_cases (a b : Q) :
  (min2 a b = a /\ a <= b) \/ (min2 a b = b /\ b < a).
Proof.
  unfold min2. destruct (Qlt_bool b a) eqn:E.
  - right. split; [reflexivity | now apply Qlt_bool_true].
  - left. split; [reflexivity | now apply Qlt_bool_false].
Qed.

Lemma max2_cases (a b : Q) :
  (max2 a b = a /\ b <= a) \/ (max2 a b = b /\ a < b).
Proof.
  unfold max2. destruct (Qlt_bool a b) eqn:E.
  - right. split; [reflexivity | now apply Qlt_bool_true].
  - left. split; [reflexivity | now apply Qlt_bool_false].
Qed.

Lemma min2_Qmin (a b : Q) : min2 a b == Qmin a b.
Proof.
  destruct (min2_cases a b) as [[-> H] | [-> H]].
  - symmetry. now apply Q.min_l.
  - symmetry. apply Q.min_r. now apply Qlt_le_weak.
Qed.

(** Splits on every [min2] of the goal and of the context and leaves
    linear arithmetic. *)
Ltac split_min2_at a b :=
  let E := fresh "Emin" in
  let H := fresh "Hmin" in
  destruct (min2_cases a b) as [[E H] | [E H]]; rewrite E in *; clear E.

Ltac split_min2 :=
  repeat match goal with
         | |- context [min2 ?a ?b] => split_min2_at a b
         | _ : context [min2 ?a ?b] |- _ => split_min2_at a b
         end.

Lemma of_nat_nonneg (n : nat) : 0 <= of_nat n.
Proof.
  unfold of_nat. change 0 with (inject_Z 0). rewrite <- Zle_Qle. lia.
Qed.

Lemma of_nat_S (n : nat) : of_nat (S n) == of_nat n + 1.
Proof.
  unfold of_nat. rewrite Nat2Z.inj_succ. unfold Z.succ.
  rewrite inject_Z_plus. reflexivity.
Qed.

Lemma of_nat_pos (n : nat) : (0 < n)%nat -> 1 <= of_nat n.
Proof.
  intro H. unfold of_nat. change 1 with (inject_Z 1).
  rewrite <- Zle_Qle. lia.
Qed.

(** The keyword loops only add to the score. *)
Lemma add_terms_ge (terms : list string) (s : string) (c : Q) :
  c <= add_terms terms s c.
Proof.
  unfold add_terms. revert c.
  induction terms as [|term terms IH]; intro c; simpl.
  - apply Qle_refl.
  - destruct (contains term s).
    + eapply Qle_trans; [|apply IH]. lra.
    + apply IH.
Qed.

Lemma add_terms_none (terms : list string) (s : string) (c : Q) :
  existsb (fun term => contains term s) terms = false ->
  add_terms terms s c = c.
Proof.
  unfold add_terms. revert c.
  induction terms as [|term terms IH]; intro c; cbn [fold_left existsb];
    [reflexivity|].
  intro H. apply orb_false_iff in H as [H1 H2].
  rewrite H1. now apply IH.
Qed.

(** A loop body that appends at most one item is a filter and a map. *)
Lemma flat_map_optional (A B : Type) (f : A -> list B) (p : A -> bool)
  (g : A -> B) (l : list A) :
  (forall a, f a = if p a then [g a] else []) ->
  flat_map f l = map g (filter p l).
Proof.
  intro H. induction l as [|a l IH]; cbn [flat_map filter map];
    [reflexivity|].
  rewrite H, IH. destruct (p a); reflexivity.
Qed.

(* ================================================================= *)
(** ** Scores of the pattern and contextual matchers *)

Lemma contextual_confidence_bounds (ticker context matched_text : string) :
  0.7 <= _calculate_contextual_confidence ticker context matched_text <= 1.
Proof.
  unfold _calculate_contextual_confidence.
  set (c0 := if contains "(" matched_text && contains ")" matched_text
             then 0.7 + 0.2 else 0.7).
  assert (H0 : 0.7 <= c0) by (subst c0; destruct (_ && _); lra).
  pose proof (add_terms_ge financial_terms (lower matched_text) c0) as H1.
  split_min2; lra.
Qed.

(** C10. The contextual score is never below its base 0.7 (and never above
    1), so it passes the [confidence > 0.5] test, and a template hit yields
    a Mention exactly when its ticker is not blacklisted. *)
Theorem contextual_confidence_at_least_base :
  forall (ticker context matched_text text : string) (m : rmatch),
    0.7 <= _calculate_contextual_confidence ticker context matched_text <= 1
    /\ Qlt_bool 0.5
         (_calculate_contextual_confidence ticker context matched_text) = true
    /\ contextual_hit text m =
         (if mem (contextual_ticker m) TICKER_BLACKLIST then []
          else [contextual_mention text m])
    /\ _match_contextual_tickers text =
         flat_map
           (fun pattern =>
              map (contextual_mention text)
                  (filter (fun h => negb (mem (contextual_ticker h)
                                              TICKER_BLACKLIST))
                          (pattern text)))
           contextual_patterns.
Proof.
  intros ticker context matched_text text m.
  assert (Hhit : forall h, contextual_hit text h =
            (if mem (contextual_ticker h) TICKER_BLACKLIST then []
             else [contextual_mention text h])).
  { intro h. unfold contextual_hit.
    destruct (mem (contextual_ticker h) TICKER_BLACKLIST); [reflexivity|].
    match goal with |- context [Qlt_bool 0.5 ?c] =>
      assert (Hc : Qlt_bool 0.5 c = true)
    end.
    { apply Qlt_bool_true.
      pose proof (contextual_confidence_bounds (contextual_ticker h)
        (_extract_context text (m_start h) (m_end h) 100) (m_group0 h)).
      lra. }
    rewrite Hc. reflexivity. }
  split; [apply contextual_confidence_bounds|].
  split.
  { apply Qlt_bool_true.
    pose proof (contextual_confidence_bounds ticker context matched_text).
    lra. }
  split; [apply Hhit|].
  unfold _match_contextual_tickers.
  induction contextual_patterns as [|pattern rest IH];
    cbn [flat_map]; [reflexivity|].
  rewrite IH. f_equal.
  apply flat_map_optional. intro h. rewrite Hhit.
  destruct (mem (contextual_ticker h) TICKER_BLACKLIST); reflexivity.
Qed.

(** What [_calculate_pattern_confidence] computes, with the repetition
    term written out: 0.05 for every occurrence, the first included. *)
Lemma pattern_confidence_formula (ticker context full_text : string) :
  _calculate_pattern_confidence ticker context full_text ==
  Qmin ((add_terms financial_indicators (lower context) 0.5
         + (if contains ("$" ++ ticker) full_text then 0.2 else 0)
         + Qmin (of_nat (count full_text ticker) * 0.05) 0.2)
        * (if mem ticker common_combinations then 0.1 else 1))
       1.
Proof.
  unfold _calculate_pattern_confidence.
  set (base := add_terms financial_indicators (lower context) 0.5).
  set (rep := of_nat (count full_text ticker) * 0.05).
  destruct (Q.min_spec rep 0.2) as [[Hr Er] | [Hr Er]];
    set (bonus := Qmin rep 0.2) in *;
    destruct (contains ("$" ++ ticker) full_text),
             (mem ticker common_combinations);
    match goal with
    | |- _ == Qmin ?a ?b =>
        destruct (Q.min_spec a b) as [[Ho Eo] | [Ho Eo]];
        set (out := Qmin a b) in *
    end;
    split_min2; lra.
Qed.

(** C8 (the code departs from it). A candidate that occurs exactly once
    in the document, with no financial term around it, no [$] form and
    not on the penalty list, scores 0.55: the single occurrence already
    earns the 0.05 of the repetition term, where the specification has
    0.5 and no repetition bonus. *)
Theorem pattern_confidence_single_occurrence :
  forall ticker context full_text : string,
    count full_text ticker = 1%nat ->
    contains ("$" ++ ticker) full_text = false ->
    existsb (fun term => contains term (lower context)) financial_indicators
    = false ->
    mem ticker common_combinations = false ->
    _calculate_pattern_confidence ticker context full_text == 0.55
    /\ ~ _calculate_pattern_confidence ticker context full_text == 0.5.
Proof.
  intros ticker context full_text Hcount Hdollar Hterms Hcommon.
  assert (E : _calculate_pattern_confidence ticker context full_text
              == 0.55).
  { unfold _calculate_pattern_confidence.
    rewrite (add_terms_none _ _ _ Hterms), Hdollar, Hcount, Hcommon.
    vm_compute. reflexivity. }
  split; [exact E|].
  intro E'. rewrite E in E'. vm_compute in E'. discriminate.
Qed.

Lemma pattern_confidence_single_occurrence_witness :
  count "ZYXQ rose" "ZYXQ" = 1%nat
  /\ _calculate_pattern_confidence "ZYXQ" "ZYXQ rose" "ZYXQ rose" == 0.55.
Proof.
  split; [reflexivity|].
  apply (pattern_confidence_single_occurrence "ZYXQ" "ZYXQ rose" "ZYXQ rose");
    reflexivity.
Defined.

(* ================================================================= *)
(** ** Tagging: blank text and the pattern step *)

Lemma lstrip_blank (s : string) :
  all_chars is_space s = true -> lstrip s = "".
Proof.
  induction s as [|c r IH]; cbn [all_chars lstrip]; [reflexivity|].
  intro H. apply andb_true_iff in H as [Hc Hr].
  rewrite Hc. now apply IH.
Qed.

Lemma strip_blank (s : string) :
  all_chars is_space s = true -> strip s = "".
Proof.
  intro H. unfold strip. rewrite (lstrip_blank _ H). reflexivity.
Qed.

(** C9. When the combined text is empty or holds only white space, tagging
    returns the empty list and raises nothing. *)
Theorem tag_article_text_blank :
  forall (t : TickerTagger) (title text : string) (article_id : option Z),
    all_chars is_space (full_text_of title text) = true ->
    tag_article_text t title text article_id = Ok [].
Proof.
  intros t title text article_id H.
  unfold tag_article_text. rewrite (strip_blank _ H). reflexivity.
Qed.

Lemma tag_article_text_blank_witness :
  all_chars is_space (full_text_of "" "   ") = true
  /\ tag_article_text aapl_tagger "" "   " (Some 1%Z) = Ok [].
Proof.
  split; [reflexivity|].
  apply tag_article_text_blank. reflexivity.
Defined.

(** The call in [_match_ticker_patterns] passes a keyword that
    [extract_tickers_from_text] does not have. *)
Lemma _match_ticker_patterns_raises (t : TickerTagger) (text : string) :
  _match_ticker_patterns t text = Raise TypeError.
Proof. reflexivity. Qed.

(** C2 (the code departs from it). On every text that is not blank the
    pattern step raises [TypeError], nothing catches it, and tagging
    raises instead of returning a result. *)
Theorem tag_article_text_raises :
  forall (t : TickerTagger) (title text : string) (article_id : option Z),
    strip (full_text_of title text) <> "" ->
    tag_article_text t title text article_id = Raise TypeError.
Proof.
  intros t title text article_id H.
  unfold tag_article_text.
  destruct (strip (full_text_of title text)) as [|c r]; [congruence|].
  cbn [truthy negb]. rewrite _match_ticker_patterns_raises. reflexivity.
Qed.

Lemma tag_article_text_raises_witness :
  strip (full_text_of "Markets" "ZYXQ shares rose") <> ""
  /\ tag_article_text empty_tagger "Markets" "ZYXQ shares rose" None
     = Raise TypeError.
Proof.
  split; [vm_compute; discriminate|].
  apply tag_article_text_raises. vm_compute. discriminate.
Defined.

(* ================================================================= *)
(** ** Dictionaries and grouping *)

Section DictFacts.

Variable V : Type.
Implicit Types (d : dict V) (k : string) (v : V).

Lemma dict_get_set_eq d k v : dict_get (dict_set d k v) k = Some v.
Proof.
  induction d as [|[k0 v0] r IH]; cbn [dict_set dict_get].
  - now rewrite String.eqb_refl.
  - destruct (String.eqb k0 k) eqn:E; cbn [dict_get].
    + now rewrite String.eqb_refl.
    + now rewrite E.
Qed.

Lemma dict_get_set_neq d k k' v :
  k' <> k -> dict_get (dict_set d k v) k' = dict_get d k'.
Proof.
  intro Hne.
  assert (Hk : String.eqb k k' = false)
    by (apply String.eqb_neq; congruence).
  induction d as [|[k0 v0] r IH]; cbn [dict_set dict_get].
  - now rewrite Hk.
  - destruct (String.eqb k0 k) eqn:E; cbn [dict_get].
    + apply String.eqb_eq in E. subst k0. now rewrite Hk.
    + now rewrite IH.
Qed.

Lemma dict_set_keys_in d k v k' :
  In k' (dict_keys (dict_set d k v)) -> k' = k \/ In k' (dict_keys d).
Proof.
  unfold dict_keys.
  induction d as [|[k0 v0] r IH]; cbn [dict_set map fst In].
  - intros [H | []]. now left.
  - destruct (String.eqb k0 k) eqn:E; cbn [map fst In].
    + intros [H | H]; [now left | right; now right].
    + intros [H | H]; [right; now left |].
      destruct (IH H) as [H' | H']; [now left | right; now right].
Qed.

Lemma dict_set_keys_nodup d k v :
  NoDup (dict_keys d) -> NoDup (dict_keys (dict_set d k v)).
Proof.
  unfold dict_keys.
  induction d as [|[k0 v0] r IH]; cbn [dict_set map fst]; intro H.
  - constructor; [intros [] | constructor].
  - inversion H as [|? ? Hnin Hr]; subst.
    destruct (String.eqb k0 k) eqn:E; cbn [map fst].
    + apply String.eqb_eq in E. subst k0. now constructor.
    + constructor; [|now apply IH].
      intro Hin. apply dict_set_keys_in in Hin as [Hin | Hin].
      * subst k0. now rewrite String.eqb_refl in E.
      * now apply Hnin.
Qed.

Lemma dict_set_keys_iff d k v k' :
  In k' (dict_keys (dict_set d k v)) <-> k' = k \/ In k' (dict_keys d).
Proof.
  split; [apply dict_set_keys_in|].
  unfold dict_keys.
  induction d as [|[k0 v0] r IH]; cbn [dict_set map fst In].
  - intros [-> | []]. now left.
  - destruct (String.eqb k0 k) eqn:E; cbn [map fst In].
    + apply String.eqb_eq in E. subst k0.
      intros [-> | [-> | H]]; [now left | now left | now right].
    + intros [-> | [-> | H]]; [right; apply IH; now left | now left |].
      right. apply IH. now right.
Qed.

Lemma dict_get_in d k v :
  NoDup (dict_keys d) -> In (k, v) d -> dict_get d k = Some v.
Proof.
  unfold dict_keys.
  induction d as [|[k0 v0] r IH]; cbn [map fst In dict_get];
    intros Hnd Hin; [contradiction|].
  inversion Hnd as [|? ? Hnin Hr]; subst.
  destruct Hin as [Heq | Hin].
  - inversion Heq; subst. now rewrite String.eqb_refl.
  - destruct (String.eqb k0 k) eqn:E.
    + apply String.eqb_eq in E. subst k0. exfalso. apply Hnin.
      change k with (fst (k, v)). now apply in_map.
    + now apply IH.
Qed.

End DictFacts.

Lemma mentions_of_app (sym : string) (l1 l2 : list TickerMatch) :
  mentions_of sym (l1 ++ l2) = (mentions_of sym l1 ++ mentions_of sym l2)%list.
Proof. unfold mentions_of. apply filter_app. Qed.

Lemma group_by_symbol_snoc (seen : list TickerMatch) (m : TickerMatch) :
  group_by_symbol (seen ++ [m]) = group_append (group_by_symbol seen) m.
Proof. unfold group_by_symbol. now rewrite fold_left_app. Qed.

(** The group stored under a symbol is the list of its mentions. *)
Lemma group_by_symbol_get (seen : list TickerMatch) (k : string) :
  dict_get (group_by_symbol seen) k =
  match mentions_of k seen with
  | [] => None
  | l => Some l
  end.
Proof.
  induction seen as [|m seen IH] using rev_ind; [reflexivity|].
  rewrite group_by_symbol_snoc, mentions_of_app.
  unfold group_append.
  destruct (String.eqb (symbol m) k) eqn:E.
  - apply String.eqb_eq in E. subst k.
    assert (Hm : mentions_of (symbol m) [m] = [m])
      by (unfold mentions_of; cbn [filter]; now rewrite String.eqb_refl).
    rewrite Hm, IH.
    destruct (mentions_of (symbol m) seen) as [|x l];
      rewrite dict_get_set_eq; reflexivity.
  - assert (Hm : mentions_of k [m] = [])
      by (unfold mentions_of; cbn [filter]; now rewrite E).
    rewrite Hm, app_nil_r.
    apply String.eqb_neq in E.
    destruct (dict_get (group_by_symbol seen) (symbol m));
      rewrite dict_get_set_neq by congruence; apply IH.
Qed.

Lemma group_by_symbol_nodup (seen : list TickerMatch) :
  NoDup (dict_keys (group_by_symbol seen)).
Proof.
  induction seen as [|m seen IH] using rev_ind; [constructor|].
  rewrite group_by_symbol_snoc. unfold group_append.
  destruct (dict_get (group_by_symbol seen) (symbol m));
    now apply dict_set_keys_nodup.
Qed.

Lemma group_by_symbol_in (seen : list TickerMatch) (k : string)
  (l : list TickerMatch) :
  In (k, l) (group_by_symbol seen) ->
  l = mentions_of k seen /\ l <> [].
Proof.
  intro Hin.
  pose proof (dict_get_in _ _ _ (group_by_symbol_nodup seen) Hin) as Hget.
  rewrite group_by_symbol_get in Hget.
  destruct (mentions_of k seen) as [|x r]; [discriminate|].
  inversion Hget; subst. split; [reflexivity | discriminate].
Qed.

(** The stable sort keeps the items. *)
Lemma insert_by_confidence_in (x y : TickerMatch) (l : list TickerMatch) :
  In y (insert_by_confidence x l) <-> y = x \/ In y l.
Proof.
  induction l as [|z l IH]; cbn [insert_by_confidence In].
  - intuition auto.
  - destruct (Qlt_bool (confidence x) (confidence z)); cbn [In].
    + rewrite IH. intuition auto.
    + intuition auto.
Qed.

Lemma sort_by_confidence_desc_in (y : TickerMatch) (l : list TickerMatch) :
  In y (sort_by_confidence_desc l) <-> In y l.
Proof.
  unfold sort_by_confidence_desc.
  induction l as [|x l IH]; cbn [fold_right In]; [reflexivity|].
  rewrite insert_by_confidence_in, IH. intuition auto.
Qed.

(** Every result is the merge of the mentions of its symbol, of which
    there is at least one. *)
Lemma deduplicate_and_score_in (matches : list TickerMatch) (text : string)
  (r : TickerMatch) :
  In r (_deduplicate_and_score matches text) ->
  exists first others,
    mentions_of (symbol r) matches = first :: others
    /\ merge_group (symbol r) (first :: others) = [r].
Proof.
  unfold _deduplicate_and_score. rewrite sort_by_confidence_desc_in.
  rewrite in_flat_map. intros [[k l] [Hg Hr]]. cbn [fst snd] in Hr.
  apply group_by_symbol_in in Hg as [Hl Hne].
  destruct l as [|first others]; [congruence|].
  cbn [merge_group In] in Hr. destruct Hr as [Hr | []].
  assert (Hk : symbol r = k) by (now rewrite <- Hr).
  exists first, others. rewrite Hk. split; [now symmetry|].
  cbn [merge_group]. now rewrite Hr.
Qed.

(** And every symbol with a mention has a result. *)
Lemma deduplicate_and_score_complete (matches : list TickerMatch)
  (text : string) (m : TickerMatch) :
  In m matches ->
  exists r, In r (_deduplicate_and_score matches text)
            /\ symbol r = symbol m.
Proof.
  intro Hm.
  assert (Hin : In m (mentions_of (symbol m) matches)).
  { unfold mentions_of. apply filter_In. split; [assumption|].
    apply String.eqb_refl. }
  pose proof (group_by_symbol_get matches (symbol m)) as Hget.
  destruct (mentions_of (symbol m) matches) as [|first others] eqn:E;
    [contradiction|].
  assert (Hg : In (symbol m, first :: others) (group_by_symbol matches)).
  { clear - Hget. induction (group_by_symbol matches) as [|[k0 v0] d IH];
      cbn [dict_get] in Hget; [discriminate|].
    destruct (String.eqb k0 (symbol m)) eqn:Ek.
    - apply String.eqb_eq in Ek. inversion Hget; subst. now left.
    - right. now apply IH. }
  eexists. split.
  - unfold _deduplicate_and_score. rewrite sort_by_confidence_desc_in.
    apply in_flat_map. eexists. split; [exact Hg|].
    cbn [fst snd merge_group]. left. reflexivity.
  - reflexivity.
Qed.

(* ================================================================= *)
(** ** The merged confidence *)

Lemma max_list_ge_first (a : Q) (l : list Q) : a <= max_list a l.
Proof.
  unfold max_list. revert a.
  induction l as [|x l IH]; intro a; cbn [fold_left]; [apply Qle_refl|].
  eapply Qle_trans; [|apply IH].
  destruct (max2_cases a x) as [[-> H] | [-> H]]; lra.
Qed.

Lemma max_list_ge (a : Q) (l : list Q) (x : Q) :
  In x l -> x <= max_list a l.
Proof.
  unfold max_list. revert a.
  induction l as [|y l IH]; intros a Hin; [contradiction|].
  cbn [fold_left]. destruct Hin as [-> | Hin]; [|now apply IH].
  eapply Qle_trans; [|apply (max_list_ge_first (max2 a x) l)].
  destruct (max2_cases a x) as [[-> H] | [-> H]]; lra.
Qed.

Lemma max_list_in (a : Q) (l : list Q) : In (max_list a l) (a :: l).
Proof.
  unfold max_list. revert a.
  induction l as [|y l IH]; intro a; cbn [fold_left]; [now left|].
  destruct (IH (max2 a y)) as [H | H].
  - rewrite <- H.
    destruct (max2_cases a y) as [[-> _] | [-> _]];
      [now left | right; now left].
  - right. now right.
Qed.

Lemma maximum_ge_first (a : Q) (l : list Q) : a <= maximum a l.
Proof.
  unfold maximum. induction l as [|x l IH]; cbn [fold_right];
    [apply Qle_refl|].
  eapply Qle_trans; [exact IH | apply Q.le_max_r].
Qed.

Lemma maximum_ge (a : Q) (l : list Q) (x : Q) :
  In x l -> x <= maximum a l.
Proof.
  unfold maximum. induction l as [|y l IH]; intro Hin; [contradiction|].
  cbn [fold_right]. destruct Hin as [-> | Hin].
  - apply Q.le_max_l.
  - eapply Qle_trans; [now apply IH | apply Q.le_max_r].
Qed.

Lemma maximum_in (a : Q) (l : list Q) :
  exists x, In x (a :: l) /\ maximum a l == x.
Proof.
  unfold maximum. induction l as [|y l [x [Hin Hx]]]; cbn [fold_right].
  - exists a. split; [now left | reflexivity].
  - destruct (Q.max_spec y (fold_right Qmax a l)) as [[_ E] | [_ E]].
    + exists x. split; [|now rewrite E].
      destruct Hin as [<- | Hin]; [now left | right; now right].
    + exists y. split; [right; now left | exact E].
Qed.

(** [max(confidences)] is the greatest confidence. *)
Lemma max_list_maximum (a : Q) (l : list Q) : max_list a l == maximum a l.
Proof.
  apply Qle_antisym.
  - destruct (max_list_in a l) as [<- | Hin].
    + apply maximum_ge_first.
    + now apply maximum_ge.
  - destruct (maximum_in a l) as [x [[<- | Hin] E]]; rewrite E.
    + apply max_list_ge_first.
    + now apply max_list_ge.
Qed.

Lemma fold_left_Qplus (l : list Q) (a : Q) :
  fold_left Qplus l a == a + fold_right Qplus 0 l.
Proof.
  revert a. induction l as [|x l IH]; intro a; cbn [fold_left fold_right].
  - ring.
  - rewrite IH. ring.
Qed.

(** [sum(confidences)] is the sum of the confidences. *)
Lemma sum_fold_right (l : list Q) : sum l == fold_right Qplus 0 l.
Proof. unfold sum. rewrite fold_left_Qplus. ring. Qed.

Lemma weighted_confidence_spec (first : Q) (others : list Q) :
  weighted_confidence first others ==
  maximum first others * 0.7 + mean (first :: others) * 0.3.
Proof.
  unfold weighted_confidence, mean.
  rewrite max_list_maximum, sum_fold_right. reflexivity.
Qed.

Lemma boosted_confidence_spec (c c' : Q) (n : nat) :
  c == c' ->
  boosted_confidence c n ==
  if (1 <? n)%nat then Qmin (c' * (1 + of_nat n * 0.05)) 1 else c'.
Proof.
  intro E. unfold boosted_confidence.
  destruct (1 <? n)%nat; [|exact E].
  rewrite min2_Qmin.
  assert (Ep : c * (1 + of_nat n * 0.05) == c' * (1 + of_nat n * 0.05))
    by (rewrite E; reflexivity).
  set (x := c * (1 + of_nat n * 0.05)) in *.
  set (y := c' * (1 + of_nat n * 0.05)) in *.
  destruct (Q.min_spec x 1.0) as [[H1 E1] | [H1 E1]];
    destruct (Q.min_spec y 1) as [[H2 E2] | [H2 E2]];
    set (mx := Qmin x 1.0) in *; set (my := Qmin y 1) in *; lra.
Qed.

Lemma fold_right_Qplus_bounds (lo hi : Q) (l : list Q) :
  (forall x, In x l -> lo <= x <= hi) ->
  of_nat (length l) * lo <= fold_right Qplus 0 l <= of_nat (length l) * hi.
Proof.
  induction l as [|x l IH]; intro H.
  - cbn [length fold_right]. change (of_nat 0) with 0. lra.
  - cbn [length fold_right]. rewrite of_nat_S.
    assert (Hx : lo <= x <= hi) by (apply H; now left).
    assert (Hl : forall y, In y l -> lo <= y <= hi)
      by (intros y Hy; apply H; now right).
    specialize (IH Hl). lra.
Qed.

Lemma mean_bounds (lo hi : Q) (l : list Q) :
  l <> [] ->
  (forall x, In x l -> lo <= x <= hi) ->
  lo <= mean l <= hi.
Proof.
  intros Hne H. unfold mean.
  assert (Hn : 1 <= of_nat (length l)).
  { apply of_nat_pos. destruct l; [congruence | cbn; lia]. }
  pose proof (fold_right_Qplus_bounds l H) as [Hlo Hhi].
  split.
  - apply Qle_shift_div_l; [lra|]. lra.
  - apply Qle_shift_div_r; [lra|]. lra.
Qed.

Lemma maximum_bounds (lo hi : Q) (a : Q) (l : list Q) :
  (forall x, In x (a :: l) -> lo <= x <= hi) ->
  lo <= maximum a l <= hi.
Proof.
  intro H. destruct (maximum_in a l) as [x [Hin E]]. rewrite E.
  now apply H.
Qed.

Lemma spec_final_confidence_unit (first : Q) (others : list Q) (n : nat) :
  (forall x, In x (first :: others) -> 0 <= x <= 1) ->
  0 <= spec_final_confidence first others n <= 1.
Proof.
  intro H. unfold spec_final_confidence.
  pose proof (maximum_bounds H) as HM.
  assert (Hne : first :: others <> []) by discriminate.
  pose proof (mean_bounds Hne H) as Hm.
  set (M := maximum first others) in *.
  set (mu := mean (first :: others)) in *.
  destruct (1 <? n)%nat; [|lra].
  pose proof (of_nat_nonneg n) as Hn.
  assert (H0 : 0 <= (M * 0.7 + mu * 0.3) * (1 + of_nat n * 0.05)) by nra.
  set (x := (M * 0.7 + mu * 0.3) * (1 + of_nat n * 0.05)) in *.
  destruct (Q.min_spec x 1) as [[H1 E1] | [H1 E1]];
    set (mx := Qmin x 1) in *; lra.
Qed.

Lemma final_confidence_of_spec (first : TickerMatch)
  (others : list TickerMatch) :
  final_confidence_of first others ==
  spec_final_confidence (confidence first) (map confidence others)
    (length (flat_map positions (first :: others))).
Proof.
  unfold final_confidence_of, spec_final_confidence.
  apply boosted_confidence_spec, weighted_confidence_spec.
Qed.

(** The confidence of a result, from the mentions of its symbol. *)
Lemma deduplicate_and_score_confidence (matches : list TickerMatch)
  (text : string) (r : TickerMatch) :
  In r (_deduplicate_and_score matches text) ->
  exists first others,
    mentions_of (symbol r) matches = first :: others
    /\ confidence r ==
       spec_final_confidence (confidence first) (map confidence others)
         (length (flat_map positions (first :: others))).
Proof.
  intro Hr.
  destruct (deduplicate_and_score_in _ _ _ Hr) as [first [others [Hm Hg]]].
  exists first, others. split; [exact Hm|].
  cbn [merge_group] in Hg. inversion Hg as [Hrec]. cbn [confidence].
  apply final_confidence_of_spec.
Qed.

(** C7. The confidence of a result is the weighted sum of the greatest
    and the mean confidence of the mentions of its symbol, boosted by the
    number of spans and capped at 1 when there is more than one span; with
    mention confidences in [0,1] it lies in [0,1]. *)
Theorem merged_confidence_formula :
  forall (matches : list TickerMatch) (text : string) (r : TickerMatch),
    In r (_deduplicate_and_score matches text) ->
    exists first others,
      mentions_of (symbol r) matches = first :: others
      /\ confidence r ==
         spec_final_confidence (confidence first) (map confidence others)
           (length (flat_map positions (first :: others)))
      /\ ((forall m, In m matches -> 0 <= confidence m <= 1) ->
          0 <= confidence r <= 1).
Proof.
  intros matches text r Hr.
  destruct (deduplicate_and_score_confidence _ _ _ Hr)
    as [first [others [Hm Hc]]].
  exists first, others. split; [exact Hm|].
  split; [exact Hc|].
  intro Hall. rewrite Hc.
  apply spec_final_confidence_unit.
  intros x Hx. change (In x (map confidence (first :: others))) in Hx.
  apply in_map_iff in Hx as [m [<- Hin]]. apply Hall.
  assert (Hin' : In m (mentions_of (symbol r) matches))
    by (rewrite Hm; exact Hin).
  unfold mentions_of in Hin'. now apply filter_In in Hin'.
Qed.

Lemma merged_confidence_formula_witness :
  exists r,
    In r (_deduplicate_and_score [aapl_result; aapl_name_mention] "")
    /\ 0 <= confidence r <= 1.
Proof.
  assert (Hin : In (hd aapl_result
                      (_deduplicate_and_score
                         [aapl_result; aapl_name_mention] ""))
                   (_deduplicate_and_score
                      [aapl_result; aapl_name_mention] ""))
    by (vm_compute; left; reflexivity).
  eexists. split; [exact Hin|].
  destruct (merged_confidence_formula _ _ _ Hin) as [f [o [_ [_ Hb]]]].
  apply Hb. intros m [<- | [<- | []]]; cbn [confidence aapl_result
    aapl_name_mention]; lra.
Defined.

(* ================================================================= *)
(** ** One more mention *)

Lemma of_nat_le (n m : nat) : (n <= m)%nat -> of_nat n <= of_nat m.
Proof. intro H. unfold of_nat. rewrite <- Zle_Qle. lia. Qed.


(** One more mention never lowers the merged score: [n] mentions of
    greatest confidence [M] and sum [sigma] against the same with one more
    of confidence [c]. *)


Lemma fold_right_Qplus_insert (l1 l2 : list Q) (c : Q) :
  fold_right Qplus 0 (l1 ++ c :: l2) == fold_right Qplus 0 (l1 ++ l2) + c.
Proof.
  induction l1 as [|x l1 IH]; cbn [app fold_right].
  - ring.
  - rewrite IH. ring.
Qed.


(** The sum of a list is at least its greatest item plus the lower bound
    for each of the others. *)
Lemma sum_ge_maximum (lo hi a : Q) (l : list Q) :
  (forall x, In x (a :: l) -> lo <= x <= hi) ->
  maximum a l + (of_nat (length (a :: l)) - 1) * lo
  <= fold_right Qplus 0 (a :: l).
Proof.
  intro H. destruct (maximum_in a l) as [x [Hin E]]. rewrite E.
  destruct (in_split _ _ Hin) as [p [q Hpq]]. rewrite Hpq in *.
  rewrite fold_right_Qplus_insert, length_app. cbn [length].
  rewrite Nat.add_succ_r, of_nat_S, <- length_app.
  assert (Hpq' : forall y, In y (p ++ q) -> lo <= y <= hi).
  { intros y Hy. apply H. apply in_app_iff in Hy as [Hy | Hy];
      apply in_app_iff; [now left | right; now right]. }
  pose proof (fold_right_Qplus_bounds (p ++ q) Hpq') as [Hlo _].
  lra.
Qed.


Lemma emitted_span_count (ms : list TickerMatch) :
  (forall x, In x ms -> emitted x) ->
  length (flat_map positions ms) = length ms.
Proof.
  induction ms as [|m ms IH]; intro H; [reflexivity|].
  cbn [flat_map length]. rewrite length_app, IH.
  - destruct (H m (or_introl eq_refl)) as [-> _]. reflexivity.
  - intros x Hx. apply H. now right.
Qed.



(* ================================================================= *)
(** ** What the matchers emit *)

Lemma literal_startswith (lit s : string) (last : option ascii)
  (r : string * option ascii * string) :
  literal false lit s last = Some r -> startswith lit s = true.
Proof.
  revert s last r.
  induction lit as [|a lit IH]; intros s last r; [reflexivity|].
  destruct s as [|b s]; cbn [literal startswith]; [discriminate|].
  destruct (Ascii.eqb a b); [|discriminate].
  destruct (literal false lit s (Some b)) as [[[t l] rest]|] eqn:E;
    [|discriminate].
  intros _. cbn [andb]. eapply IH. exact E.
Qed.

Lemma word_literal_startswith (ticker : string) (prev : option ascii)
  (s : string) (r : nat * list string) :
  word_alternation false [ticker] prev s = Some r ->
  startswith ticker s = true.
Proof.
  unfold word_alternation. destruct (boundary prev (head s)); [|discriminate].
  cbn [alternation].
  destruct (literal false ticker s prev) as [[[t l] rest]|] eqn:E;
    [|discriminate].
  intros _. eapply literal_startswith. exact E.
Qed.

Lemma finditer_from_contains (ticker : string)
  (try : attempt) :
  (forall prev s r, try prev s = Some r -> startswith ticker s = true) ->
  forall (s : string) (prev : option ascii) (pos skip : nat),
    finditer_from try prev s pos skip <> [] -> contains ticker s = true.
Proof.
  intros Htry s.
  induction s as [|c s IH]; intros prev pos skip H;
    cbn [finditer_from] in H; [congruence|].
  cbn [contains]. apply orb_true_iff.
  destruct skip as [|k].
  - destruct (try prev (String c s)) as [[len groups]|] eqn:E.
    + left. eapply Htry. exact E.
    + right. eapply IH. exact H.
  - right. eapply IH. exact H.
Qed.

Lemma contains_count_from (a : ascii) (sub s : string) :
  contains (String a sub) s = true ->
  (1 <= count_from (String a sub) s 0)%nat.
Proof.
  induction s as [|c s IH]; cbn [contains count_from].
  - cbn [startswith orb]. discriminate.
  - destruct (startswith (String a sub) (String c s)); [lia|].
    cbn [orb]. exact IH.
Qed.

(** A candidate found as a whole word occurs at least once in the text. *)
Lemma word_hit_count (ticker text : string) :
  finditer (word_alternation false [ticker]) text <> [] ->
  (1 <= count text ticker)%nat.
Proof.
  intro H. unfold count. destruct ticker as [|a ticker]; [lia|].
  apply contains_count_from.
  eapply finditer_from_contains; [|exact H].
  intros prev s r. apply word_literal_startswith.
Qed.

Lemma add_terms_le (terms : list string) (s : string) (c : Q) :
  add_terms terms s c <= c + of_nat (length terms) * 0.1.
Proof.
  unfold add_terms. revert c.
  induction terms as [|term terms IH]; intro c; cbn [fold_left length].
  - change (of_nat 0) with 0. lra.
  - rewrite of_nat_S.
    destruct (contains term s);
      (eapply Qle_trans; [apply IH|]);
      pose proof (of_nat_nonneg (length terms)); lra.
Qed.

(** A pattern score is at least 0.55, or at most 0.2 for the tokens of the
    penalty list. *)
Lemma pattern_confidence_range (ticker context full_text : string) :
  (1 <= count full_text ticker)%nat ->
  let c := _calculate_pattern_confidence ticker context full_text in
  (0.55 <= c <= 1) \/ c <= 0.2.
Proof.
  intro Hcount. cbv zeta. unfold _calculate_pattern_confidence.
  pose proof (add_terms_ge financial_indicators (lower context) 0.5) as Hlo.
  pose proof (add_terms_le financial_indicators (lower context) 0.5) as Hhi.
  change (of_nat (length financial_indicators)) with 11 in Hhi.
  set (base := add_terms financial_indicators (lower context) 0.5) in *.
  pose proof (of_nat_pos Hcount) as Hn.
  set (n := of_nat (count full_text ticker)) in *.
  destruct (contains ("$" ++ ticker) full_text),
           (mem ticker common_combinations);
    split_min2; lra.
Qed.

Lemma emitted_known_symbols (t : TickerTagger) (text : string)
  (x : TickerMatch) :
  In x (_match_known_symbols t text) ->
  emitted x /\ mem (symbol x) TICKER_BLACKLIST = false.
Proof.
  unfold _match_known_symbols.
  destruct (known_symbols_pattern t) as [alts|]; [|contradiction].
  rewrite in_flat_map. intros [m [_ Hx]]. unfold known_symbol_hit in Hx.
  destruct (mem (upper (group1 m)) TICKER_BLACKLIST) eqn:E; [contradiction|].
  destruct (dict_get (symbol_dict t) (upper (group1 m))); [|contradiction].
  destruct Hx as [<- | []]. cbn [symbol]. split; [|exact E].
  split; cbn [positions confidence length]; [reflexivity | lra].
Qed.

Lemma known_symbol_mention (t : TickerTagger) (text : string)
  (x : TickerMatch) :
  In x (_match_known_symbols t text) ->
  match_method x = "known_symbol" /\ confidence x = 0.9
  /\ dict_has (symbol_dict t) (symbol x) = true.
Proof.
  unfold _match_known_symbols.
  destruct (known_symbols_pattern t) as [alts|]; [|contradiction].
  rewrite in_flat_map. intros [m [_ Hx]]. unfold known_symbol_hit in Hx.
  destruct (mem (upper (group1 m)) TICKER_BLACKLIST); [contradiction|].
  destruct (dict_get (symbol_dict t) (upper (group1 m))) eqn:E;
    [|contradiction].
  destruct Hx as [<- | []]. cbn [symbol match_method confidence].
  unfold dict_has. rewrite E. repeat split.
Qed.

Lemma emitted_company_names (t : TickerTagger) (text : string)
  (x : TickerMatch) :
  In x (_match_company_names t text) ->
  emitted x
  /\ exists name obj,
       (dict_get (company_name_dict t) name = Some obj
        \/ dict_get (alias_dict t) name = Some obj)
       /\ symbol x = obj_symbol obj.
Proof.
  unfold _match_company_names.
  destruct (company_names_pattern t) as [alts|]; [|contradiction].
  rewrite in_flat_map. intros [m [_ Hx]]. unfold company_name_hit in Hx.
  destruct (dict_get (company_name_dict t) (lower (group1 m))) as [obj|] eqn:E1.
  - destruct Hx as [<- | []]. split.
    + split; cbn [positions confidence length]; [reflexivity | lra].
    + exists (lower (group1 m)), obj. split; [now left | reflexivity].
  - destruct (dict_get (alias_dict t) (lower (group1 m))) as [obj|] eqn:E2;
      [|contradiction].
    destruct Hx as [<- | []]. split.
    + split; cbn [positions confidence length]; [reflexivity | lra].
    + exists (lower (group1 m)), obj. split; [now right | reflexivity].
Qed.

Lemma emitted_pattern_hits (t : TickerTagger) (text ticker : string)
  (x : TickerMatch) :
  In x (pattern_ticker_hits t text ticker) ->
  emitted x /\ symbol x = ticker.
Proof.
  unfold pattern_ticker_hits.
  destruct (dict_has (symbol_dict t) ticker); [contradiction|].
  intro Hx.
  assert (Hne : finditer (word_alternation false [ticker]) text <> []).
  { intro E. rewrite E in Hx. contradiction. }
  apply word_hit_count in Hne.
  apply in_flat_map in Hx as [m [_ Hx]]. unfold pattern_hit in Hx.
  set (context := _extract_context text (m_start m) (m_end m) 50) in *.
  destruct (Qlt_bool 0.3 (_calculate_pattern_confidence ticker context text))
    eqn:E; [|contradiction].
  apply Qlt_bool_true in E.
  destruct Hx as [<- | []]. split; [|reflexivity].
  split; cbn [positions confidence length]; [reflexivity|].
  destruct (pattern_confidence_range ticker context text Hne) as [H | H];
    [exact H | lra].
Qed.

Lemma emitted_contextual (text : string) (x : TickerMatch) :
  In x (_match_contextual_tickers text) ->
  emitted x /\ mem (symbol x) TICKER_BLACKLIST = false.
Proof.
  unfold _match_contextual_tickers. rewrite in_flat_map.
  intros [pattern [_ Hx]]. apply in_flat_map in Hx as [m [_ Hx]].
  unfold contextual_hit in Hx.
  destruct (mem (contextual_ticker m) TICKER_BLACKLIST) eqn:E;
    [contradiction|].
  match type of Hx with context [Qlt_bool 0.5 ?c] =>
    destruct (Qlt_bool 0.5 c); [|contradiction]
  end.
  destruct Hx as [<- | []]. cbn [symbol]. split; [|exact E].
  split; cbn [positions confidence length]; [reflexivity|].
  pose proof (contextual_confidence_bounds (contextual_ticker m)
    (_extract_context text (m_start m) (m_end m) 100) (m_group0 m)).
  lra.
Qed.

Lemma list_set_in (x : string) (l : list string) :
  In x (list_set l) -> In x l.
Proof.
  induction l as [|s l IH]; cbn [list_set In]; [tauto|].
  intros [H | H]; [now left|].
  apply filter_In in H as [H _]. right. now apply IH.
Qed.

Lemma extract_tickers_not_blacklisted (text ticker : string) :
  In ticker (extract_tickers_from_text text) ->
  mem ticker TICKER_BLACKLIST = false.
Proof.
  unfold extract_tickers_from_text. intro H. apply list_set_in in H.
  apply in_flat_map in H as [pattern [_ H]].
  apply filter_In in H as [_ H]. now apply negb_true_iff in H.
Qed.

(** Every Mention of the four matchers has one span and a confidence
    between 0.55 and 1. *)
Lemma matchers_emit (t : TickerTagger) (text : string) (x : TickerMatch) :
  In x (_match_known_symbols t text ++ _match_company_names t text
        ++ pattern_candidates t text
        ++ _match_contextual_tickers text) ->
  emitted x.
Proof.
  rewrite !in_app_iff. intros [H | [H | [H | H]]].
  - now apply emitted_known_symbols in H.
  - now apply emitted_company_names in H.
  - unfold pattern_candidates in H. apply in_flat_map in H as [ticker [_ H]].
    now apply emitted_pattern_hits in H.
  - now apply emitted_contextual in H.
Qed.

(* ================================================================= *)
(** ** Whole words under the alternation patterns *)

Lemma is_word_lower_char (c : ascii) : is_word (lower_char c) = is_word c.
Proof. destruct c as [[] [] [] [] [] [] [] []]; reflexivity. Qed.

Lemma lower_upper_char (c : ascii) : lower_char (upper_char c) = lower_char c.
Proof. destruct c as [[] [] [] [] [] [] [] []]; reflexivity. Qed.

Lemma literal_read (ci : bool) (a s : string) (last : option ascii)
  (t : string) (l : option ascii) (rest : string) :
  literal ci a s last = Some (t, l, rest) ->
  s = t ++ rest /\ l = last_char last t
  /\ String.length t = String.length a
  /\ (all_chars is_word a = true -> all_chars is_word t = true).
Proof.
  revert s last t l rest.
  induction a as [|x a IH]; intros s last t l rest H.
  - destruct s; cbn [literal] in H; inversion H; subst; repeat split; auto.
  - destruct s as [|b s]; cbn [literal] in H; [discriminate|].
    destruct (if ci then Ascii.eqb (lower_char x) (lower_char b)
              else Ascii.eqb x b) eqn:E; [|discriminate].
    destruct (literal ci a s (Some b)) as [[[t' l'] rest']|] eqn:El;
      [|discriminate].
    inversion H; subst. clear H.
    destruct (IH _ _ _ _ _ El) as [Hs [Hl [Hlen Hw]]].
    repeat split.
    + cbn [append]. now rewrite <- Hs.
    + exact Hl.
    + cbn [String.length]. now rewrite Hlen.
    + cbn [all_chars]. intro Hx. apply andb_true_iff in Hx as [Hx Ha].
      apply andb_true_iff. split; [|now apply Hw].
      destruct ci.
      * apply Ascii.eqb_eq in E.
        rewrite <- is_word_lower_char, <- E, is_word_lower_char. exact Hx.
      * apply Ascii.eqb_eq in E. now subst.
Qed.

Lemma literal_upper (w post : string) (last : option ascii) :
  literal true (upper w) (w ++ post) last
  = Some (w, last_char last w, post).
Proof.
  revert last. induction w as [|c w IH]; intro last.
  - cbn. destruct post; reflexivity.
  - cbn [upper map_str append literal]. fold (upper w).
    rewrite lower_upper_char, Ascii.eqb_refl, IH. reflexivity.
Qed.

(** A read of word characters that ends at a boundary, at the head of a
    text that starts with the word [w], is [w]. *)
Lemma word_read_unique (t rest w post : string) (last : option ascii) :
  t ++ rest = w ++ post ->
  t <> "" -> all_chars is_word t = true ->
  w <> "" -> all_chars is_word w = true ->
  is_word_opt (head post) = false ->
  boundary (last_char last t) (head rest) = true ->
  t = w /\ rest = post.
Proof.
  revert w last.
  induction t as [|x t IH]; intros w last E Ht Hwt Hw Hww Hpost Hb;
    [congruence|].
  destruct w as [|y w]; [congruence|].
  cbn [append] in E. inversion E as [[Exy E']]. subst y. clear E.
  cbn [all_chars] in Hwt, Hww.
  apply andb_true_iff in Hwt as [Hx Hwt].
  apply andb_true_iff in Hww as [_ Hww].
  cbn [last_char] in Hb.
  destruct t as [|x' t].
  - cbn [append last_char] in *. subst rest.
    destruct w as [|y w]; [split; reflexivity|].
    exfalso. cbn [append head] in Hb. cbn [all_chars] in Hww.
    apply andb_true_iff in Hww as [Hy _].
    unfold boundary in Hb. cbn [is_word_opt] in Hb.
    rewrite Hx, Hy in Hb. discriminate.
  - destruct w as [|y w].
    + exfalso. cbn [append] in E'. subst post.
      cbn [head is_word_opt all_chars] in *.
      apply andb_true_iff in Hwt as [Hx' _]. congruence.
    + destruct (IH (String y w) (Some x) E') as [Et Er];
        try assumption; try discriminate.
      split; [now rewrite Et | exact Er].
Qed.

Lemma alternation_some (ci : bool) (alts : list string)
  (prev : option ascii) (s t : string) :
  alternation ci alts prev s = Some t ->
  exists a l rest,
    In a alts /\ literal ci a s prev = Some (t, l, rest)
    /\ boundary l (head rest) = true.
Proof.
  induction alts as [|a alts IH]; cbn [alternation]; [discriminate|].
  destruct (literal ci a s prev) as [[[t' l] rest]|] eqn:E.
  - destruct (boundary l (head rest)) eqn:Eb.
    + intro H. inversion H; subst. exists a, l, rest.
      repeat split; [now left | assumption..].
    + intro H. destruct (IH H) as [a' [l' [rest' [Hin H']]]].
      exists a', l', rest'. split; [now right | exact H'].
  - intro H. destruct (IH H) as [a' [l' [rest' [Hin H']]]].
    exists a', l', rest'. split; [now right | exact H'].
Qed.

Lemma length_zero_empty (s : string) : String.length s = 0%nat -> s = "".
Proof. destruct s; [reflexivity | discriminate]. Qed.

(** At the start of a whole word that some alternative reads, the
    alternation reads that word. *)
Lemma alternation_whole_word (ci : bool) (alts : list string)
  (prev : option ascii) (w post : string) :
  (forall a, In a alts -> word_string a) ->
  word_string w ->
  is_word_opt (head post) = false ->
  (exists a, In a alts
             /\ literal ci a (w ++ post) prev
                = Some (w, last_char prev w, post)) ->
  alternation ci alts prev (w ++ post) = Some w.
Proof.
  intros Halts [Hw Hww] Hpost.
  assert (Hbw : boundary (last_char prev w) (head post) = true).
  { destruct w as [|y w]; [congruence|]. clear Hw.
    cbn [last_char]. revert y Hww.
    induction w as [|z w IHw]; intros y Hww; cbn [last_char all_chars] in *.
    - unfold boundary. cbn [is_word_opt]. rewrite Hpost.
      rewrite andb_true_r in Hww. now rewrite Hww.
    - apply andb_true_iff in Hww as [_ Hww]. now apply IHw. }
  induction alts as [|a alts IH]; intros [a0 [Hin Hlit]]; [contradiction|].
  cbn [alternation].
  destruct (literal ci a (w ++ post) prev) as [[[t l] rest]|] eqn:E.
  - destruct (@literal_read _ _ _ _ _ _ _ E) as [Hs [Hl [Hlen Hwt]]].
    destruct (Halts a (or_introl eq_refl)) as [Hane Haw].
    destruct (boundary l (head rest)) eqn:Eb.
    + assert (Htne : t <> "").
      { intro Et. subst t. cbn in Hlen. symmetry in Hlen.
        now apply length_zero_empty in Hlen. }
      rewrite Hl in Eb.
      destruct (@word_read_unique t rest w post prev) as [Et _];
        auto.
      now rewrite Et.
    + destruct Hin as [-> | Hin].
      * rewrite Hlit in E. inversion E; subst. congruence.
      * apply IH; [intros; apply Halts; now right|]. now exists a0.
  - destruct Hin as [-> | Hin]; [congruence|].
    apply IH; [intros; apply Halts; now right|]. now exists a0.
Qed.

Lemma prefix_word_last (pre t rest x : string) (prev : option ascii) :
  t ++ rest = pre ++ x ->
  (String.length pre < String.length t)%nat ->
  all_chars is_word t = true ->
  pre <> "" ->
  is_word_opt (last_char prev pre) = true.
Proof.
  revert t prev.
  induction pre as [|c pre IH]; intros t prev E Hlen Hw Hne; [congruence|].
  destruct t as [|c' t]; [cbn in Hlen; lia|].
  cbn [append] in E. inversion E as [[Ec E']]. subst c'.
  cbn [all_chars] in Hw. apply andb_true_iff in Hw as [Hc Hw].
  cbn [String.length] in Hlen. cbn [last_char].
  destruct pre as [|c2 pre].
  - cbn [last_char is_word_opt]. exact Hc.
  - apply IH with (t := t); [exact E' | lia | exact Hw | discriminate].
Qed.

(** A match of the alternation that starts before a whole word ends
    before it. *)
Lemma word_alternation_confined (ci : bool) (alts : list string)
  (prev : option ascii) (pre x : string) (len : nat)
  (groups : list string) :
  (forall a, In a alts -> word_string a) ->
  pre <> "" ->
  is_word_opt (last_char prev pre) = false ->
  word_alternation ci alts prev (pre ++ x) = Some (len, groups) ->
  (len <= String.length pre)%nat.
Proof.
  intros Halts Hne Hlast H. unfold word_alternation in H.
  destruct (boundary prev (head (pre ++ x))); [|discriminate].
  destruct (alternation ci alts prev (pre ++ x)) as [t|] eqn:E;
    [|discriminate].
  inversion H; subst. clear H.
  destruct (alternation_some _ _ _ _ E) as [a [l [rest [Hin [Hlit _]]]]].
  destruct (@literal_read _ _ _ _ _ _ _ Hlit) as [Hs [_ [_ Hw]]].
  destruct (Halts a Hin) as [_ Haw].
  destruct (Nat.le_gt_cases (String.length t) (String.length pre))
    as [Hle | Hgt]; [exact Hle|].
  exfalso.
  assert (Htrue : is_word_opt (last_char prev pre) = true).
  { apply prefix_word_last with (t := t) (rest := rest) (x := x);
      [now symmetry | exact Hgt | now apply Hw | exact Hne]. }
  congruence.
Qed.

(** The scan finds every whole word that some alternative reads. *)
Lemma finditer_from_whole_word (ci : bool) (alts : list string)
  (w post : string) :
  (forall a, In a alts -> word_string a) ->
  word_string w ->
  is_word_opt (head post) = false ->
  (forall prev, exists a,
     In a alts
     /\ literal ci a (w ++ post) prev = Some (w, last_char prev w, post)) ->
  forall (pre : string) (prev : option ascii) (pos skip : nat),
    is_word_opt (last_char prev pre) = false ->
    (skip <= String.length pre)%nat ->
    exists m,
      In m (finditer_from (word_alternation ci alts) prev
              (pre ++ w ++ post) pos skip)
      /\ m_start m = (pos + String.length pre)%nat
      /\ m_end m = (pos + String.length pre + String.length w)%nat
      /\ m_groups m = [w].
Proof.
  intros Halts Hw Hpost Hread pre.
  induction pre as [|c pre IH]; intros prev pos skip Hlast Hskip.
  - cbn [String.length] in Hskip. assert (skip = 0%nat) by lia. subst skip.
    cbn [append last_char] in *.
    pose proof (alternation_whole_word ci alts prev Halts Hw Hpost
                  (Hread prev)) as Halt.
    destruct Hw as [Hne Hww].
    destruct w as [|y w]; [congruence|].
    cbn [append finditer_from]. unfold word_alternation at 1.
    cbn [append] in Halt. cbn [head].
    cbn [all_chars] in Hww. apply andb_true_iff in Hww as [Hy _].
    assert (Hb : boundary prev (Some y) = true).
    { unfold boundary. cbn [is_word_opt]. now rewrite Hlast, Hy. }
    rewrite Hb, Halt.
    eexists. split; [now left|].
    cbn [m_start m_end m_groups String.length].
    repeat split; lia.
  - cbn [append finditer_from String.length] in *.
    destruct skip as [|k].
    + destruct (word_alternation ci alts prev
                  (String c (pre ++ w ++ post))) as [[len groups]|] eqn:E.
      * assert (Hlen : (len <= S (String.length pre))%nat).
        { apply (@word_alternation_confined ci alts prev (String c pre)
                   (w ++ post) len groups Halts);
            [discriminate | exact Hlast | exact E]. }
        destruct (IH (Some c) (S pos) (len - 1)%nat Hlast)
          as [m [Hin Hm]]; [lia|].
        exists m. split; [now right|].
        destruct Hm as [H1 [H2 H3]]. repeat split; [lia | lia | exact H3].
      * destruct (IH (Some c) (S pos) 0%nat Hlast) as [m [Hin Hm]]; [lia|].
        exists m. split; [exact Hin|].
        destruct Hm as [H1 [H2 H3]]. repeat split; [lia | lia | exact H3].
    + destruct (IH (Some c) (S pos) k Hlast) as [m [Hin Hm]]; [lia|].
      exists m. split; [exact Hin|].
      destruct Hm as [H1 [H2 H3]]. repeat split; [lia | lia | exact H3].
Qed.

(** The known-symbol step of C5: a whole-word occurrence, in any case, of
    a symbol of the reference set that is not blacklisted gives a
    known-symbol Mention at its place, when the symbols of the reference
    set are made of word characters. *)
Lemma known_symbol_found (t : TickerTagger) (alts : list string)
  (pre w post : string) :
  known_symbols_pattern t = Some alts ->
  (forall a, In a alts -> word_string a) ->
  In (upper w) alts ->
  dict_has (symbol_dict t) (upper w) = true ->
  mem (upper w) TICKER_BLACKLIST = false ->
  word_string w ->
  is_word_opt (last_char None pre) = false ->
  is_word_opt (head post) = false ->
  exists m,
    In m (_match_known_symbols t (pre ++ w ++ post))
    /\ symbol m = upper w
    /\ positions m
       = [(String.length pre, (String.length pre + String.length w)%nat)]
    /\ match_method m = "known_symbol".
Proof.
  intros Hpat Halts Hin Hhas Hbl Hw Hpre Hpost.
  destruct (@finditer_from_whole_word true alts w post Halts Hw Hpost)
    with (pre := pre) (prev := @None ascii) (pos := 0%nat) (skip := 0%nat)
    as [m [Hm [Hs [He Hg]]]].
  - intro prev. exists (upper w). split; [exact Hin|]. apply literal_upper.
  - exact Hpre.
  - lia.
  - unfold _match_known_symbols. rewrite Hpat.
    unfold dict_has in Hhas.
    destruct (dict_get (symbol_dict t) (upper w)) as [obj|] eqn:Eobj;
      [|discriminate].
    eexists. split.
    + apply in_flat_map. exists m. split; [exact Hm|].
      unfold known_symbol_hit, group1. rewrite Hg. cbn [hd].
      rewrite Hbl, Eobj. left. reflexivity.
    + cbn [symbol positions match_method]. rewrite Hs, He.
      repeat split.
Qed.

Lemma insert_by_len_in (x y : string) (l : list string) :
  In y (insert_by_len x l) <-> y = x \/ In y l.
Proof.
  induction l as [|z l IH]; cbn [insert_by_len In].
  - intuition auto.
  - destruct (String.length x <? String.length z)%nat; cbn [In].
    + rewrite IH. intuition auto.
    + intuition auto.
Qed.

Lemma sort_by_len_desc_in (y : string) (l : list string) :
  In y (sort_by_len_desc l) <-> In y l.
Proof.
  unfold sort_by_len_desc.
  induction l as [|x l IH]; cbn [fold_right In]; [reflexivity|].
  rewrite insert_by_len_in, IH. intuition auto.
Qed.

Lemma dict_has_keys (V : Type) (d : dict V) (k : string) :
  dict_has d k = true -> In k (dict_keys d).
Proof.
  unfold dict_has, dict_keys.
  induction d as [|[k0 v0] d IH]; cbn [dict_get map fst In]; [discriminate|].
  destruct (String.eqb k0 k) eqn:E.
  - intros _. left. now apply String.eqb_eq.
  - intro H. right. now apply IH.
Qed.

(** A text with a word character in it is not blank. *)
Lemma is_word_not_space (c : ascii) : is_word c = true -> is_space c = false.
Proof.
  destruct c as [[] [] [] [] [] [] [] []]; vm_compute; intro H;
    first [reflexivity | discriminate H].
Qed.

Lemma lstrip_empty (s : string) :
  lstrip s = "" -> all_chars is_space s = true.
Proof.
  induction s as [|c s IH]; cbn [lstrip all_chars]; [reflexivity|].
  destruct (is_space c); [exact IH | discriminate].
Qed.

Lemma rstrip_empty (s : string) :
  rstrip s = "" -> all_chars is_space s = true.
Proof.
  induction s as [|c s IH]; cbn [rstrip all_chars]; [reflexivity|].
  destruct (rstrip s); [|discriminate].
  destruct (is_space c); [intros _; now apply IH | discriminate].
Qed.

Lemma lstrip_blank_inv (s : string) :
  all_chars is_space (lstrip s) = true -> all_chars is_space s = true.
Proof.
  induction s as [|c s IH]; cbn [lstrip all_chars]; [reflexivity|].
  destruct (is_space c) eqn:E; [exact IH|].
  cbn [all_chars]. now rewrite E.
Qed.

Lemma strip_empty (s : string) :
  strip s = "" -> all_chars is_space s = true.
Proof.
  unfold strip. intro H. now apply lstrip_blank_inv, rstrip_empty.
Qed.

Lemma all_chars_app (p : ascii -> bool) (s1 s2 : string) :
  all_chars p (s1 ++ s2) = all_chars p s1 && all_chars p s2.
Proof.
  induction s1 as [|c s1 IH]; cbn [append all_chars]; [reflexivity|].
  now rewrite IH, andb_assoc.
Qed.

Lemma word_not_blank (pre w post : string) :
  word_string w -> strip (pre ++ w ++ post) <> "".
Proof.
  intros [Hne Hw] H. apply strip_empty in H.
  rewrite !all_chars_app in H.
  apply andb_true_iff in H as [_ H]. apply andb_true_iff in H as [H _].
  destruct w as [|c w]; [congruence|].
  cbn [all_chars] in Hw, H.
  apply andb_true_iff in Hw as [Hc _]. apply andb_true_iff in H as [Hs _].
  apply is_word_not_space in Hc. congruence.
Qed.

(* ================================================================= *)
(** ** A known symbol in the merge *)

Lemma max_by_fold (A : Type) (key : A -> nat) (l : list A) (a : A) :
  (key a <= key (max_by key a l))%nat
  /\ (forall x, In x l -> (key x <= key (max_by key a l))%nat)
  /\ In (max_by key a l) (a :: l).
Proof.
  unfold max_by. revert a.
  induction l as [|y l IH]; intro a; cbn [fold_left].
  - repeat split; [lia | contradiction | now left].
  - destruct (key a <? key y)%nat eqn:E.
    + apply Nat.ltb_lt in E.
      destruct (IH y) as [H1 [H2 H3]]. repeat split.
      * lia.
      * intros x [<- | Hx]; [exact H1 | now apply H2].
      * right. exact H3.
    + apply Nat.ltb_ge in E.
      destruct (IH a) as [H1 [H2 H3]]. repeat split.
      * exact H1.
      * intros x [<- | Hx]; [lia | now apply H2].
      * destruct H3 as [H3 | H3]; [now left | right; now right].
Qed.

Lemma method_rank_le (m : string) : (method_rank m <= 4)%nat.
Proof.
  unfold method_rank.
  repeat match goal with |- context [String.eqb ?a ?b] =>
    destruct (String.eqb a b) end; lia.
Qed.

Lemma method_rank_known (m : string) :
  method_rank m = 4%nat -> m = "known_symbol".
Proof.
  unfold method_rank. destruct (String.eqb m "known_symbol") eqn:E.
  - intros _. now apply String.eqb_eq.
  - repeat match goal with |- context [String.eqb ?a ?b] =>
      destruct (String.eqb a b) end; discriminate.
Qed.

(** With a mention of confidence 0.9 or more among mentions of
    confidence 0.55 or more, the merged score is 0.9 or more. *)
Lemma spec_final_confidence_known (a x : Q) (l : list Q) :
  (forall y, In y (a :: l) -> 0.55 <= y <= 1) ->
  In x (a :: l) -> 0.9 <= x ->
  0.9 <= spec_final_confidence a l (length (a :: l)).
Proof.
  intros Hall Hx Hx9.
  pose proof (maximum_bounds Hall) as [_ HM1].
  assert (HM9 : 0.9 <= maximum a l).
  { eapply Qle_trans; [exact Hx9|].
    destruct Hx as [<- | Hx];
      [apply maximum_ge_first | now apply maximum_ge]. }
  pose proof (sum_ge_maximum Hall) as Hsum.
  assert (Hne : a :: l <> []) by discriminate.
  pose proof (mean_bounds Hne Hall) as [Hmu _].
  unfold spec_final_confidence.
  assert (Emu : mean (a :: l) * of_nat (length (a :: l))
                == fold_right Qplus 0 (a :: l)).
  { unfold mean. field.
    assert (1 <= of_nat (length (a :: l)))
      by (apply of_nat_pos; cbn [length]; lia).
    lra. }
  set (M := maximum a l) in *. set (mu := mean (a :: l)) in *.
  set (sigma := fold_right Qplus 0 (a :: l)) in *.
  destruct l as [|b [|c l]].
  - cbn [length Nat.ltb Nat.leb] in *.
    change (of_nat 1) with 1 in *. lra.
  - cbn [length Nat.ltb Nat.leb] in *.
    change (of_nat 2) with 2 in *.
    set (g := (M * 0.7 + mu * 0.3) * (1 + 2 * 0.05)).
    destruct (Q.min_spec g 1) as [[Hg Eo] | [Hg Eo]];
      set (out := Qmin g 1) in *; unfold g in *; lra.
  - assert (H3 : 3 <= of_nat (length (a :: b :: c :: l))).
    { change 3 with (of_nat 3). apply of_nat_le. cbn [length]. lia. }
    assert (Hlt : (1 <? length (a :: b :: c :: l))%nat = true)
      by (apply Nat.ltb_lt; cbn [length]; lia).
    rewrite Hlt.
    set (N := of_nat (length (a :: b :: c :: l))) in *.
    set (g := (M * 0.7 + mu * 0.3) * (1 + N * 0.05)).
    assert (Hg9 : 0.9 <= g) by (unfold g; nra).
    destruct (Q.min_spec g 1) as [[Hg Eo] | [Hg Eo]];
      set (out := Qmin g 1) in *; lra.
Qed.

(** The merge step of C5: a result whose symbol has a known-symbol
    mention, among mentions as the matchers emit them, has method
    [known_symbol] and confidence 0.9 or more. *)
Lemma known_symbol_result (matches : list TickerMatch) (text : string)
  (m r : TickerMatch) :
  (forall x, In x matches -> emitted x) ->
  In m matches ->
  match_method m = "known_symbol" ->
  0.9 <= confidence m ->
  In r (_deduplicate_and_score matches text) ->
  symbol r = symbol m ->
  match_method r = "known_symbol" /\ 0.9 <= confidence r.
Proof.
  intros Hall Hm Hmeth Hconf Hr Hsym.
  destruct (deduplicate_and_score_in _ _ _ Hr) as [f [o [Hg Hrec]]].
  destruct (deduplicate_and_score_confidence _ _ _ Hr)
    as [f' [o' [Hg' Hc]]].
  rewrite Hg in Hg'. inversion Hg'; subst f' o'. clear Hg'.
  assert (Hin : In m (f :: o)).
  { rewrite <- Hg. unfold mentions_of. apply filter_In.
    split; [exact Hm|]. rewrite Hsym. apply String.eqb_refl. }
  assert (Hem : forall x, In x (f :: o) -> emitted x).
  { intros x Hx. apply Hall. rewrite <- Hg in Hx.
    unfold mentions_of in Hx. now apply filter_In in Hx. }
  split.
  - cbn [merge_group] in Hrec. inversion Hrec as [E]. cbn [match_method].
    apply method_rank_known.
    destruct (max_by_fold method_rank (map match_method o) (match_method f))
      as [H1 [H2 _]].
    pose proof (method_rank_le
      (max_by method_rank (match_method f) (map match_method o))) as Hle.
    assert (H4 : (4 <= method_rank
                    (max_by method_rank (match_method f)
                            (map match_method o)))%nat).
    { change 4%nat with (method_rank "known_symbol"). rewrite <- Hmeth.
      destruct Hin as [<- | Hin]; [exact H1|].
      apply H2. now apply in_map. }
    lia.
  - rewrite Hc, (emitted_span_count _ Hem).
    rewrite <- (length_map confidence (f :: o)). cbn [map].
    apply spec_final_confidence_known with (x := confidence m).
    + intros y Hy. change (In y (map confidence (f :: o))) in Hy.
      apply in_map_iff in Hy as [z [<- Hz]]. now apply Hem.
    + change (In (confidence m) (map confidence (f :: o))).
      now apply in_map.
    + exact Hconf.
Qed.

(** C5 (the code departs from it). For a tagger whose patterns are
    compiled from its reference set, with symbols made of word characters:
    whenever a document has a whole-word occurrence [w], in any case, of a
    symbol of the reference set that is not blacklisted, the four matchers
    and the merge step have a result for that symbol with method
    [known_symbol] and confidence 0.9 or more; but tagging raises
    [TypeError] in the pattern step and yields no result. *)
Theorem tag_article_text_known_symbol_lost :
  forall (t : TickerTagger) (title text pre w post : string)
         (article_id : option Z),
    _compile_patterns t = t ->
    (forall k, In k (dict_keys (symbol_dict t)) -> word_string k) ->
    dict_has (symbol_dict t) (upper w) = true ->
    mem (upper w) TICKER_BLACKLIST = false ->
    full_text_of title text = pre ++ w ++ post ->
    word_string w ->
    is_word_opt (last_char None pre) = false ->
    is_word_opt (head post) = false ->
    (exists r,
       In r (merged_candidates t (full_text_of title text))
       /\ symbol r = upper w
       /\ match_method r = "known_symbol"
       /\ 0.9 <= confidence r)
    /\ tag_article_text t title text article_id = Raise TypeError.
Proof.
  intros t title text pre w post article_id Hcomp Hkeys Hhas Hbl Htext Hw
         Hpre Hpost.
  assert (Hkey : In (upper w) (dict_keys (symbol_dict t)))
    by (now apply dict_has_keys).
  assert (Hpat : known_symbols_pattern t
                 = Some (sort_by_len_desc (dict_keys (symbol_dict t)))).
  { rewrite <- Hcomp at 1. cbn [_compile_patterns known_symbols_pattern].
    destruct (dict_keys (symbol_dict t)); [contradiction | reflexivity]. }
  assert (Halts : forall a,
            In a (sort_by_len_desc (dict_keys (symbol_dict t))) ->
            word_string a)
    by (intros a Ha; apply Hkeys; now apply sort_by_len_desc_in).
  assert (Hin0 : In (upper w) (sort_by_len_desc (dict_keys (symbol_dict t))))
    by (now apply sort_by_len_desc_in).
  destruct (@known_symbol_found t _ pre w post Hpat Halts Hin0 Hhas Hbl Hw
              Hpre Hpost) as [m [Hm [Hsym _]]].
  rewrite <- Htext in Hm.
  set (full_text := full_text_of title text) in *.
  split.
  - set (matches := (_match_known_symbols t full_text
                     ++ _match_company_names t full_text
                     ++ pattern_candidates t full_text
                     ++ _match_contextual_tickers full_text)%list).
    assert (Hin : In m matches) by (apply in_app_iff; now left).
    destruct (deduplicate_and_score_complete matches full_text m Hin)
      as [r [Hr Hrs]].
    destruct (known_symbol_mention _ _ _ Hm) as [Hmeth [Hconf _]].
    assert (H9 : 0.9 <= confidence m) by (rewrite Hconf; lra).
    destruct (known_symbol_result matches full_text m r
                (fun x => @matchers_emit t full_text x) Hin Hmeth H9 Hr Hrs)
      as [Hrm Hrc].
    exists r. repeat split; try assumption. now rewrite Hrs.
  - assert (Hblank : strip full_text <> "").
    { subst full_text. rewrite Htext. now apply word_not_blank. }
    unfold tag_article_text. fold full_text.
    destruct (strip full_text) as [|c s]; [congruence|].
    cbn [truthy negb]. rewrite _match_ticker_patterns_raises. reflexivity.
Qed.

Lemma tag_article_text_known_symbol_lost_witness :
  dict_has (symbol_dict aapl_tagger) "AAPL" = true
  /\ mem "AAPL" TICKER_BLACKLIST = false
  /\ map summary (merged_candidates aapl_tagger "AAPL rose")
     = [ ("AAPL", "Apple Inc.", [(0, 4)%nat], "known_symbol", 0.9) ]
  /\ tag_article_text aapl_tagger "" "AAPL rose" None = Raise TypeError.
Proof.
  assert (Hkeys : forall k,
            In k (dict_keys (symbol_dict aapl_tagger)) -> word_string k).
  { intros k [<- | []]. split; [discriminate | reflexivity]. }
  assert (Hw : word_string "AAPL") by (split; [discriminate | reflexivity]).
  destruct (@tag_article_text_known_symbol_lost aapl_tagger "" "AAPL rose"
              "" "AAPL" " rose" None eq_refl Hkeys eq_refl eq_refl eq_refl
              Hw eq_refl eq_refl) as [_ Hraise].
  repeat split; try exact Hraise; vm_compute; reflexivity.
Defined.

(* ================================================================= *)
(** ** The blacklist *)

(** C6 (amended). No result comes out of the known-symbol, pattern and
    contextual matchers for a blacklisted token, whatever the text and the
    reference set: each of the three drops the token, and merging adds no
    symbol.  The company-name matcher has no such test: the symbol of its
    Mention is the symbol of the reference record that owns the matched
    name or alias. *)
Theorem blacklist_respected_by_token_matchers :
  forall (t : TickerTagger) (text : string),
    (forall r,
       In r (_deduplicate_and_score
               (_match_known_symbols t text ++ pattern_candidates t text
                ++ _match_contextual_tickers text)
               text) ->
       mem (symbol r) TICKER_BLACKLIST = false)
    /\ (forall x,
          In x (_match_company_names t text) ->
          exists name obj,
            (dict_get (company_name_dict t) name = Some obj
             \/ dict_get (alias_dict t) name = Some obj)
            /\ symbol x = obj_symbol obj).
Proof.
  intros t text. split.
  - intros r Hr.
    destruct (deduplicate_and_score_in _ _ _ Hr) as [first [others [Hm _]]].
    assert (Hin : In first (mentions_of (symbol r)
              (_match_known_symbols t text ++ pattern_candidates t text
               ++ _match_contextual_tickers text)))
      by (rewrite Hm; now left).
    unfold mentions_of in Hin. apply filter_In in Hin as [Hin Hsym].
    apply String.eqb_eq in Hsym. rewrite <- Hsym.
    rewrite !in_app_iff in Hin. destruct Hin as [H | [H | H]].
    + now apply emitted_known_symbols in H.
    + unfold pattern_candidates in H.
      apply in_flat_map in H as [ticker [Ht H]].
      apply emitted_pattern_hits in H as [_ ->].
      now apply extract_tickers_not_blacklisted in Ht.
    + now apply emitted_contextual in H.
  - intros x Hx. now apply emitted_company_names in Hx.
Qed.

Lemma blacklist_respected_witness :
  exists r,
    In r (_deduplicate_and_score
            (_match_known_symbols aapl_tagger "THE CEO likes AAPL"
             ++ pattern_candidates aapl_tagger "THE CEO likes AAPL"
             ++ _match_contextual_tickers "THE CEO likes AAPL")
            "THE CEO likes AAPL")
    /\ mem (symbol r) TICKER_BLACKLIST = false.
Proof.
  eexists. split.
  - vm_compute. left. reflexivity.
  - apply (proj1 (blacklist_respected_by_token_matchers aapl_tagger
                    "THE CEO likes AAPL")).
    vm_compute. left. reflexivity.
Defined.

(** C6 as stated fails: ALL is a blacklisted token, and with ALL in the
    reference set under the name Allstate Corporation, the company-name
    matcher, which has no blacklist test, yields a result for ALL. *)
Lemma blacklisted_symbol_by_company_name :
  mem "ALL" TICKER_BLACKLIST = true
  /\ map (fun r => (symbol r, match_method r))
         (_deduplicate_and_score
            (_match_company_names allstate_tagger
               "Allstate Corporation shares fell")
            "Allstate Corporation shares fell")
     = [ ("ALL", "company_name") ].
Proof. split; vm_compute; reflexivity. Qed.

(* ================================================================= *)
(** ** A malformed alias payload *)

Section LoaderFacts.

Variable json_loads : string -> result json.

Lemma store_aliases_ok (obj : symbol_obj) (items : list json) :
  forall d : dict symbol_obj,
    forallb is_str items = true ->
    snd (store_aliases obj items d) = Ok tt.
Proof.
  induction items as [|alias items IH]; intros d H; cbn [store_aliases];
    [reflexivity|].
  cbn [forallb] in H. apply andb_true_iff in H as [Ha Hi].
  destruct alias; try discriminate Ha. cbn [alias_lower]. now apply IH.
Qed.

Lemma store_aliases_raise (obj : symbol_obj) (items : list json) :
  forall d : dict symbol_obj,
    forallb is_str items = false ->
    exists e, snd (store_aliases obj items d) = Raise e.
Proof.
  induction items as [|alias items IH]; intros d H; cbn [store_aliases];
    [discriminate H|].
  cbn [forallb] in H.
  destruct alias; cbn [alias_lower is_str andb] in *;
    try (now exists AttributeError).
  now apply IH.
Qed.

Lemma load_row_ok (row : Db.ticker_row) (aliases : json) (t : TickerTagger) :
  alias_loop_ok aliases = true ->
  snd (load_row row aliases t) = Ok tt.
Proof.
  unfold alias_loop_ok, load_row. cbn [snd obj_aliases].
  destruct (json_truthy aliases); cbn [negb orb]; [|reflexivity].
  destruct (json_iter aliases) as [items|e]; [|discriminate].
  apply store_aliases_ok.
Qed.

Lemma load_row_raise (row : Db.ticker_row) (aliases : json)
  (t : TickerTagger) :
  alias_loop_ok aliases = false ->
  exists e, snd (load_row row aliases t) = Raise e.
Proof.
  unfold alias_loop_ok, load_row. cbn [snd obj_aliases].
  destruct (json_truthy aliases); cbn [negb orb]; [|discriminate].
  destruct (json_iter aliases) as [items|e]; [|now exists e].
  apply store_aliases_raise.
Qed.

Lemma load_row_symbol_dict (row : Db.ticker_row) (aliases : json)
  (t : TickerTagger) :
  symbol_dict (fst (load_row row aliases t))
  = dict_set (symbol_dict t) (Db.row_symbol row) (row_obj row aliases).
Proof. reflexivity. Qed.

Lemma load_row_company_name_dict (row : Db.ticker_row) (aliases : json)
  (t : TickerTagger) :
  company_name_dict (fst (load_row row aliases t))
  = if truthy_opt (Db.row_company_name row)
    then dict_set (company_name_dict t)
                  (lower (or_empty (Db.row_company_name row)))
                  (row_obj row aliases)
    else company_name_dict t.
Proof. reflexivity. Qed.

Lemma load_rows_cons_ok (row : Db.ticker_row) (rest : list Db.ticker_row)
  (aliases : json) (t : TickerTagger) :
  decoded_aliases json_loads row = Ok aliases ->
  alias_loop_ok aliases = true ->
  load_rows json_loads (row :: rest) t
  = load_rows json_loads rest (fst (load_row row aliases t)).
Proof.
  intros Hrow Hok. cbn [load_rows]. rewrite Hrow.
  pose proof (@load_row_ok row aliases t Hok) as H.
  destruct (load_row row aliases t) as [t' r]. cbn [fst snd] in *.
  now rewrite H.
Qed.

Lemma load_rows_readable (pre rest : list Db.ticker_row) (t : TickerTagger) :
  Forall (readable json_loads) pre ->
  load_rows json_loads (pre ++ rest) t
  = load_rows json_loads rest (fst (load_rows json_loads pre t))
  /\ snd (load_rows json_loads pre t) = Ok tt.
Proof.
  intro H. revert t.
  induction H as [|row pre [aliases [Hrow Hok]] _ IH]; intro t.
  - split; reflexivity.
  - cbn [app]. rewrite !(@load_rows_cons_ok row _ aliases _ Hrow Hok). apply IH.
Qed.

Lemma load_rows_keys (rows : list Db.ticker_row) (t : TickerTagger)
  (k : string) :
  Forall (readable json_loads) rows ->
  In k (dict_keys (symbol_dict (fst (load_rows json_loads rows t))))
  <-> In k (dict_keys (symbol_dict t)) \/ In k (map Db.row_symbol rows).
Proof.
  intro H. revert t.
  induction H as [|row rows [aliases [Hrow Hok]] _ IH]; intro t.
  - cbn [load_rows fst map In]. tauto.
  - rewrite (@load_rows_cons_ok row _ aliases _ Hrow Hok), IH, load_row_symbol_dict.
    cbn [map In]. rewrite dict_set_keys_iff. intuition auto.
Qed.

Lemma compile_patterns_symbol_dict (t : TickerTagger) :
  symbol_dict (_compile_patterns t) = symbol_dict t.
Proof. reflexivity. Qed.

(** What every turn of the loop keeps true is true of what was loaded,
    wherever the load stops. *)
Lemma load_rows_invariant (P : TickerTagger -> Prop) :
  (forall row aliases t, P t -> P (fst (load_row row aliases t))) ->
  forall rows t, P t -> P (fst (load_rows json_loads rows t)).
Proof.
  intro Hstep. induction rows as [|row rows IH]; intros t Ht;
    cbn [load_rows]; [exact Ht|].
  destruct (decoded_aliases json_loads row) as [aliases|e]; [|exact Ht].
  specialize (Hstep row aliases t Ht).
  destruct (load_row row aliases t) as [t' [u|e]]; cbn [fst] in *;
    [now apply IH | exact Hstep].
Qed.

(** The load stops at a row that cannot be read, whatever follows it. *)
Lemma load_rows_stop (bad : Db.ticker_row) (post : list Db.ticker_row)
  (t : TickerTagger) :
  ~ readable json_loads bad ->
  load_rows json_loads (bad :: post) t = load_rows json_loads [bad] t.
Proof.
  intro Hbad. cbn [load_rows].
  destruct (decoded_aliases json_loads bad) as [aliases|e] eqn:Hrow;
    [|reflexivity].
  destruct (alias_loop_ok aliases) eqn:Hok.
  - exfalso. apply Hbad. now exists aliases.
  - destruct (@load_row_raise bad aliases t Hok) as [e He].
    destruct (load_row bad aliases t) as [t' r]. cbn [snd] in He.
    now rewrite He.
Qed.

Lemma load_rows_stop_decoded (bad : Db.ticker_row) (aliases : json)
  (t : TickerTagger) :
  ~ readable json_loads bad ->
  decoded_aliases json_loads bad = Ok aliases ->
  fst (load_rows json_loads [bad] t) = fst (load_row bad aliases t).
Proof.
  intros Hbad Hrow. cbn [load_rows]. rewrite Hrow.
  destruct (load_row bad aliases t) as [t' [u|e]]; reflexivity.
Qed.

End LoaderFacts.

(** C4 (amended). A payload that cannot be read raises nothing to the
    caller and stops the load at its record: the tagger is the one
    loaded from the records up to it, whatever follows.  When the
    payload is not JSON the record itself is not loaded, and the tagger
    is the one loaded from the records before it.  When the payload
    decodes, to a value on which the alias loop raises, the record is in
    the symbol index and the name index, with that value as its
    aliases. *)
Theorem malformed_aliases_stop_the_load :
  forall (json_loads : string -> result json)
         (pre post : list Db.ticker_row) (bad : Db.ticker_row),
    Forall (readable json_loads) pre ->
    ~ readable json_loads bad ->
    let loaded :=
      new_TickerTagger json_loads (Ok (pre ++ bad :: post)%list) in
    loaded = new_TickerTagger json_loads (Ok (pre ++ [bad])%list)
    /\ (forall e,
          decoded_aliases json_loads bad = Raise e ->
          loaded = new_TickerTagger json_loads (Ok pre)
          /\ forall k, In k (dict_keys (symbol_dict loaded))
                       <-> In k (map Db.row_symbol pre))
    /\ (forall aliases,
          decoded_aliases json_loads bad = Ok aliases ->
          dict_get (symbol_dict loaded) (Db.row_symbol bad)
          = Some (row_obj bad aliases)
          /\ (forall name,
                Db.row_company_name bad = Some name -> truthy name = true ->
                dict_get (company_name_dict loaded) (lower name)
                = Some (row_obj bad aliases))
          /\ forall k, In k (dict_keys (symbol_dict loaded))
                       <-> In k (map Db.row_symbol pre)
                           \/ k = Db.row_symbol bad).
Proof.
  intros json_loads pre post bad Hpre Hbad. cbv zeta.
  set (t0 := mk_TickerTagger [] [] [] None None).
  assert (E : fst (load_rows json_loads (pre ++ bad :: post) t0)
              = fst (load_rows json_loads [bad]
                       (fst (load_rows json_loads pre t0)))).
  { destruct (@load_rows_readable json_loads pre (bad :: post) t0 Hpre)
      as [-> _].
    now rewrite load_rows_stop. }
  assert (E1 : new_TickerTagger json_loads (Ok (pre ++ bad :: post)%list)
               = new_TickerTagger json_loads (Ok (pre ++ [bad])%list)).
  { unfold new_TickerTagger, _load_ticker_data. fold t0. rewrite E.
    destruct (@load_rows_readable json_loads pre [bad] t0 Hpre) as [-> _].
    reflexivity. }
  split; [exact E1|]. split.
  - intros e Hrow.
    assert (E2 : new_TickerTagger json_loads (Ok (pre ++ bad :: post)%list)
                 = new_TickerTagger json_loads (Ok pre)).
    { unfold new_TickerTagger, _load_ticker_data. fold t0. rewrite E.
      cbn [load_rows]. now rewrite Hrow. }
    split; [exact E2|].
    intro k. rewrite E2. unfold new_TickerTagger, _load_ticker_data.
    rewrite compile_patterns_symbol_dict, load_rows_keys by assumption.
    cbn [symbol_dict dict_keys map In]. tauto.
  - intros aliases Hrow.
    unfold new_TickerTagger, _load_ticker_data. fold t0.
    cbn [_compile_patterns symbol_dict company_name_dict].
    rewrite E, (@load_rows_stop_decoded json_loads bad aliases _ Hbad Hrow).
    rewrite load_row_symbol_dict, load_row_company_name_dict.
    split; [apply dict_get_set_eq|]. split.
    + intros name Hname Htruthy. rewrite Hname.
      cbn [truthy_opt or_empty]. rewrite Htruthy. apply dict_get_set_eq.
    + intro k. rewrite dict_set_keys_iff, load_rows_keys by assumption.
      subst t0. cbn [symbol_dict dict_keys map In]. tauto.
Qed.

Lemma malformed_aliases_witness :
  Forall (readable json_loads_sample) [sample_row 1 "AAPL" "Apple Inc." "[]"]
  /\ ~ readable json_loads_sample
        (sample_row 2 "MSFT" "Microsoft Corporation" "{oops")
  /\ new_TickerTagger json_loads_sample (Ok rows_with_malformed_aliases)
     = aapl_tagger
  /\ ~ readable json_loads_sample
        (sample_row 2 "MSFT" "Microsoft Corporation" "[1]")
  /\ dict_get (symbol_dict
                 (new_TickerTagger json_loads_sample
                    (Ok rows_with_ill_typed_aliases))) "MSFT"
     = Some (row_obj (sample_row 2 "MSFT" "Microsoft Corporation" "[1]")
                     (JArray [JNumber 1]))
  /\ new_TickerTagger json_loads_sample (Ok rows_with_ill_typed_aliases)
     = new_TickerTagger json_loads_sample
         (Ok [ sample_row 1 "AAPL" "Apple Inc." "[]";
               sample_row 2 "MSFT" "Microsoft Corporation" "[1]" ]).
Proof.
  assert (H1 : Forall (readable json_loads_sample)
                 [sample_row 1 "AAPL" "Apple Inc." "[]"]).
  { constructor; [|constructor]. exists (JArray []). split; reflexivity. }
  assert (H2 : ~ readable json_loads_sample
                 (sample_row 2 "MSFT" "Microsoft Corporation" "{oops")).
  { intros [aliases [H _]]. discriminate H. }
  assert (H3 : ~ readable json_loads_sample
                 (sample_row 2 "MSFT" "Microsoft Corporation" "[1]")).
  { intros [aliases [H Hok]]. inversion H; subst. discriminate Hok. }
  split; [exact H1|]. split; [exact H2|].
  split.
  { exact (proj1 (proj1 (proj2 (@malformed_aliases_stop_the_load
              json_loads_sample
              [sample_row 1 "AAPL" "Apple Inc." "[]"]
              [sample_row 3 "GOOGL" "Alphabet Inc." "[]"]
              (sample_row 2 "MSFT" "Microsoft Corporation" "{oops")
              H1 H2)) JSONDecodeError eq_refl)). }
  split; [exact H3|].
  split.
  { exact (proj1 (proj2 (proj2 (@malformed_aliases_stop_the_load
              json_loads_sample
              [sample_row 1 "AAPL" "Apple Inc." "[]"]
              [sample_row 3 "GOOGL" "Alphabet Inc." "[]"]
              (sample_row 2 "MSFT" "Microsoft Corporation" "[1]")
              H1 H3)) (JArray [JNumber 1]) eq_refl)). }
  exact (proj1 (@malformed_aliases_stop_the_load
           json_loads_sample
           [sample_row 1 "AAPL" "Apple Inc." "[]"]
           [sample_row 3 "GOOGL" "Alphabet Inc." "[]"]
           (sample_row 2 "MSFT" "Microsoft Corporation" "[1]")
           H1 H3)).
Defined.

(** C4 as stated fails: of three records whose second has a payload that
    is not JSON, only the first is loaded; the second is not loaded with
    an empty alias list, and the third is not loaded at all. *)
Lemma malformed_aliases_abort_the_rest :
  dict_keys (symbol_dict
     (new_TickerTagger json_loads_sample (Ok rows_with_malformed_aliases)))
  = ["AAPL"]
  /\ dict_get (symbol_dict
       (new_TickerTagger json_loads_sample (Ok rows_with_malformed_aliases)))
       "MSFT" = None
  /\ dict_get (symbol_dict
       (new_TickerTagger json_loads_sample (Ok rows_with_malformed_aliases)))
       "GOOGL" = None.
Proof. repeat split. Qed.

(* ================================================================= *)
(** ** Persisting twice *)

(** What holds for every call, not only at the sample tables: the rows of
    one call carry the ids 1, 2, ..., and once the table holds a row of
    id 1 a call with results stores no association and raises. *)
Lemma insert_ticker_symbols_associations (rows : list Db.ticker_row)
  (db : Db.database) :
  Db.article_ticker_associations (fst (Db.insert_ticker_symbols rows db))
  = Db.article_ticker_associations db.
Proof.
  unfold Db.insert_ticker_symbols.
  destruct (_ && _); reflexivity.
Qed.

Lemma get_or_create_ticker_associations (m : TickerMatch)
  (db : Db.database) :
  Db.article_ticker_associations (fst (get_or_create_ticker m db))
  = Db.article_ticker_associations db.
Proof.
  unfold get_or_create_ticker.
  destruct (Db.select_id_by_symbol db (symbol m)); [|reflexivity].
  pose proof (insert_ticker_symbols_associations
                [new_ticker_row (Db.select_next_id db) m] db) as H.
  destruct (Db.insert_ticker_symbols _ db) as [db' [u|e]]; cbn [fst] in *;
    [|exact H].
  destruct (Db.select_id_by_symbol db' (symbol m)); exact H.
Qed.

Lemma collect_associations_ids (article_id : Z) (matches : list TickerMatch)
  (acc : list Db.association_row) (db : Db.database) :
  Db.article_ticker_associations
    (fst (collect_associations article_id matches acc db))
  = Db.article_ticker_associations db
  /\ forall data,
       snd (collect_associations article_id matches acc db) = Ok data ->
       map Db.assoc_id data
       = (map Db.assoc_id acc
          ++ map (fun i => Z.of_nat i + 1)%Z
                 (seq (length acc) (length matches)))%list.
Proof.
  revert acc db.
  induction matches as [|m matches IH]; intros acc db;
    cbn [collect_associations].
  - split; [reflexivity|]. cbn [fst snd length seq map].
    intros data H. inversion H. now rewrite app_nil_r.
  - pose proof (get_or_create_ticker_associations m db) as Hg.
    destruct (get_or_create_ticker m db) as [db' [ticker_id|e]];
      cbn [fst] in Hg.
    + destruct (IH (acc ++ [Db.mk_association_row
                              (Z.of_nat (length acc) + 1) article_id
                              ticker_id (confidence m) (match_method m)
                              (hd "" (context_snippets m))])%list db')
        as [Ha Hd].
      split; [now rewrite Ha|].
      intros data H. rewrite (Hd data H).
      rewrite map_app, length_app. cbn [map Db.assoc_id length seq].
      rewrite <- app_assoc, Nat.add_1_r. reflexivity.
    + split; [exact Hg|]. cbn [snd]. discriminate.
Qed.

Lemma distinctZ_app_shared (i : Z) (l1 l2 : list Z) :
  In i l1 -> In i l2 -> Db.distinctZ (l1 ++ l2) = false.
Proof.
  intros H1 H2.
  induction l1 as [|x l1 IH]; [contradiction|].
  cbn [app Db.distinctZ]. destruct H1 as [-> | H1].
  - assert (Hm : Db.memZ i (l1 ++ l2) = true).
    { unfold Db.memZ. apply existsb_exists. exists i.
      split; [apply in_app_iff; now right | apply Z.eqb_refl]. }
    now rewrite Hm.
  - rewrite (IH H1). apply andb_false_r.
Qed.

Lemma persist_refused_after_first_row (article_id : Z)
  (ticker_matches : list TickerMatch) (db : Db.database) :
  ticker_matches <> [] ->
  In 1%Z (map Db.assoc_id (Db.article_ticker_associations db)) ->
  Db.article_ticker_associations
    (fst (persist_ticker_associations article_id ticker_matches db))
  = Db.article_ticker_associations db
  /\ exists e,
       snd (persist_ticker_associations article_id ticker_matches db)
       = Raise e.
Proof.
  intros Hne Hone. unfold persist_ticker_associations.
  destruct ticker_matches as [|m rest]; [congruence|].
  destruct (collect_associations_ids article_id (m :: rest) [] db)
    as [Ha Hd].
  destruct (collect_associations article_id (m :: rest) [] db)
    as [db' [data|e]]; cbn [fst snd] in *.
  2:{ split; [exact Ha | now exists e]. }
  specialize (Hd data eq_refl). cbn [map length seq app] in Hd.
  destruct data as [|row data]; [discriminate|].
  unfold Db.insert_associations.
  assert (Hdup : Db.distinctZ
            (map Db.assoc_id
               (Db.article_ticker_associations db' ++ row :: data)) = false).
  { rewrite map_app. apply distinctZ_app_shared with (i := 1%Z).
    - now rewrite Ha.
    - rewrite Hd. now left. }
  rewrite Hdup. cbn [fst snd]. split; [exact Ha|].
  now exists ConstraintException.
Qed.

(** C1 (the code departs from it). Every call numbers its rows from 1
    again.  So once the table holds a row of id 1, persisting a document
    twice raises twice, refused by the primary key, and stores nothing:
    a pair (document, symbol) that had no association still has none,
    where one row is due. *)
Theorem persist_restarts_association_ids :
  forall (article_id : Z) (ticker_matches : list TickerMatch)
         (db : Db.database),
    ticker_matches <> [] ->
    In 1%Z (map Db.assoc_id (Db.article_ticker_associations db)) ->
    let first := persist_ticker_associations article_id ticker_matches db in
    let second :=
      persist_ticker_associations article_id ticker_matches (fst first) in
    (exists e, snd first = Raise e)
    /\ (exists e, snd second = Raise e)
    /\ Db.article_ticker_associations (fst second)
       = Db.article_ticker_associations db.
Proof.
  intros article_id ticker_matches db Hne Hone. cbv zeta.
  destruct (persist_refused_after_first_row article_id db Hne Hone)
    as [Ha He].
  assert (Hone' : In 1%Z
            (map Db.assoc_id
               (Db.article_ticker_associations
                  (fst (persist_ticker_associations article_id
                          ticker_matches db)))))
    by (rewrite Ha; exact Hone).
  destruct (persist_refused_after_first_row article_id _ Hne Hone')
    as [Ha' He'].
  split; [exact He|]. split; [exact He'|].
  rewrite Ha'. exact Ha.
Qed.

(** The first document is stored, with association id 1; the same
    document a second time is refused instead of ignored, and a second
    document is left with no association at all. *)
Lemma persist_restarts_association_ids_witness :
  snd (persist_ticker_associations 7 [aapl_result] empty_database) = Ok tt
  /\ map Db.assoc_id
         (Db.associations_of database_after_article_7 7 "AAPL") = [1%Z]
  /\ snd (persist_ticker_associations 7 [aapl_result]
            database_after_article_7)
     = Raise ConstraintException
  /\ snd (persist_ticker_associations 8 [msft_result]
            database_after_article_7)
     = Raise ConstraintException
  /\ Db.article_ticker_associations
       (fst (persist_ticker_associations 8 [msft_result]
               (fst (persist_ticker_associations 8 [msft_result]
                       database_after_article_7))))
     = Db.article_ticker_associations database_after_article_7
  /\ Db.associations_of
       (fst (persist_ticker_associations 8 [msft_result]
               (fst (persist_ticker_associations 8 [msft_result]
                       database_after_article_7))))
       8 "MSFT"
     = [].
Proof.
  assert (Hne : [msft_result] <> []) by discriminate.
  assert (Hone : In 1%Z (map Db.assoc_id
                   (Db.article_ticker_associations database_after_article_7)))
    by (vm_compute; left; reflexivity).
  destruct (persist_restarts_association_ids 8 database_after_article_7
              Hne Hone) as [_ [_ Hsame]].
  repeat split; try exact Hsame; vm_compute; reflexivity.
Defined.

(* ================================================================= *)
(** ** The scenarios of the specification *)

(** The three scenarios, on the matchers and the merge step, and on
    [tag_article_text] itself. *)
Example scenario_known_symbol :
  map summary
      (merged_candidates aapl_tagger
         "Apple (AAPL) shares rose after strong earnings; $AAPL best performer.")
  = [ ("AAPL", "Apple Inc.",
       [(7, 11); (49, 53); (0, 12); (48, 53)]%nat, "known_symbol", 1) ]
  /\ tag_article_text aapl_tagger ""
       "Apple (AAPL) shares rose after strong earnings; $AAPL best performer."
       None
     = Raise TypeError.
Proof. split; vm_compute; reflexivity. Qed.

Example scenario_blacklisted_words :
  merged_candidates empty_tagger "The CEO said the USA market was strong"
  = []
  /\ tag_article_text empty_tagger ""
       "The CEO said the USA market was strong" None
     = Raise TypeError.
Proof. split; vm_compute; reflexivity. Qed.

Example scenario_unknown_symbol :
  map summary (merged_candidates empty_tagger "trades as ZYXQ on NASDAQ")
  = [ ("ZYXQ", "", [(10, 14); (0, 14)]%nat, "contextual_match", 671 # 800) ]
  /\ tag_article_text empty_tagger "" "trades as ZYXQ on NASDAQ" None
     = Raise TypeError.
Proof. split; vm_compute; reflexivity. Qed.

(* ================================================================= *)
(** * Further properties *)

(** ** The merged results *)

Lemma dict_get_none_keys (V : Type) (d : dict V) (k : string) :
  dict_get d k = None <-> ~ In k (dict_keys d).
Proof.
  unfold dict_keys.
  induction d as [|[k0 v0] d IH]; cbn [dict_get map fst In]; [tauto|].
  destruct (String.eqb k0 k) eqn:E.
  - apply String.eqb_eq in E. split; [discriminate | tauto].
  - apply String.eqb_neq in E. rewrite IH. tauto.
Qed.

Lemma mentions_of_nil (k : string) (matches : list TickerMatch) :
  mentions_of k matches = [] <-> ~ In k (map symbol matches).
Proof.
  unfold mentions_of.
  induction matches as [|m matches IH]; cbn [filter map In]; [tauto|].
  destruct (String.eqb (symbol m) k) eqn:E.
  - apply String.eqb_eq in E. split; [discriminate | tauto].
  - apply String.eqb_neq in E. rewrite IH. tauto.
Qed.

Lemma group_by_symbol_keys (matches : list TickerMatch) (k : string) :
  In k (dict_keys (group_by_symbol matches)) <-> In k (map symbol matches).
Proof.
  pose proof (group_by_symbol_get matches k) as Hget.
  pose proof (dict_get_none_keys (group_by_symbol matches) k) as Hnone.
  pose proof (mentions_of_nil k matches) as Hnil.
  destruct (mentions_of k matches) as [|x l].
  - split.
    + intro H. exfalso. now apply (proj1 Hnone Hget).
    + intro H. exfalso. now apply (proj1 Hnil eq_refl).
  - split.
    + intros _. destruct (in_dec string_dec k (map symbol matches)) as [H|H];
        [exact H|]. apply Hnil in H. discriminate.
    + intros _.
      destruct (in_dec string_dec k (dict_keys (group_by_symbol matches)))
        as [H|H]; [exact H|]. apply Hnone in H. congruence.
Qed.

(** The fields of the result of one group. *)
Lemma merge_group_fields (k : string) (f : TickerMatch)
  (o : list TickerMatch) (r : TickerMatch) :
  merge_group k (f :: o) = [r] ->
  symbol r = k
  /\ company_name r
     = match filter truthy (map company_name (f :: o)) with
       | [] => ""
       | n :: ns => max_by String.length n ns
       end
  /\ positions r = flat_map positions (f :: o)
  /\ context_snippets r = firstn 5 (flat_map context_snippets (f :: o))
  /\ match_method r
     = max_by method_rank (match_method f) (map match_method o).
Proof.
  intro H. unfold merge_group in H. injection H as <-.
  repeat split.
Qed.

(** One result per group: the symbols of the merged groups are the keys
    of the grouping. *)
Lemma merged_groups_symbols (groups : dict (list TickerMatch)) :
  (forall k l, In (k, l) groups -> l <> []) ->
  map symbol (flat_map (fun g => merge_group (fst g) (snd g)) groups)
  = dict_keys groups.
Proof.
  unfold dict_keys.
  induction groups as [|[k l] groups IH]; intro H; [reflexivity|].
  cbn [flat_map map fst snd]. rewrite map_app, IH.
  - destruct l as [|first others].
    + exfalso. now apply (H k []); [left|].
    + reflexivity.
  - intros k' l' Hin. apply (H k' l'). now right.
Qed.

Lemma insert_by_confidence_perm (x : TickerMatch) (l : list TickerMatch) :
  Permutation (insert_by_confidence x l) (x :: l).
Proof.
  induction l as [|y l IH]; cbn [insert_by_confidence]; [reflexivity|].
  destruct (Qlt_bool (confidence x) (confidence y)); [|reflexivity].
  rewrite IH. apply perm_swap.
Qed.

Lemma sort_by_confidence_desc_perm (l : list TickerMatch) :
  Permutation (sort_by_confidence_desc l) l.
Proof.
  unfold sort_by_confidence_desc.
  induction l as [|x l IH]; cbn [fold_right]; [reflexivity|].
  rewrite insert_by_confidence_perm. now constructor.
Qed.

(** X1. [_deduplicate_and_score] gives exactly one result for each symbol
    that has a mention, and none for any other symbol. *)
Theorem deduplicate_one_result_per_symbol :
  forall (matches : list TickerMatch) (text : string),
    NoDup (map symbol (_deduplicate_and_score matches text))
    /\ forall s,
         In s (map symbol (_deduplicate_and_score matches text))
         <-> In s (map symbol matches).
Proof.
  intros matches text. unfold _deduplicate_and_score.
  set (merged := flat_map (fun g => merge_group (fst g) (snd g))
                          (group_by_symbol matches)).
  assert (Hperm : Permutation (map symbol (sort_by_confidence_desc merged))
                              (map symbol merged))
    by (apply Permutation_map, sort_by_confidence_desc_perm).
  assert (Hsym : map symbol merged = dict_keys (group_by_symbol matches)).
  { apply merged_groups_symbols. intros k l Hin.
    now apply group_by_symbol_in in Hin. }
  split.
  - apply (Permutation_NoDup (Permutation_sym Hperm)).
    rewrite Hsym. apply group_by_symbol_nodup.
  - intro s. rewrite <- (group_by_symbol_keys matches s), <- Hsym.
    split; apply Permutation_in; [exact Hperm | now apply Permutation_sym].
Qed.

Lemma insert_by_confidence_sorted (x : TickerMatch) (l : list TickerMatch) :
  Sorted confidence_ge l -> Sorted confidence_ge (insert_by_confidence x l).
Proof.
  induction l as [|y l IH]; intro H; cbn [insert_by_confidence].
  - constructor; constructor.
  - destruct (Qlt_bool (confidence x) (confidence y)) eqn:E.
    + apply Qlt_bool_true in E.
      inversion H as [|? ? Hs Hhd]; subst.
      constructor; [now apply IH|].
      destruct l as [|z l]; cbn [insert_by_confidence].
      * constructor. unfold confidence_ge. lra.
      * destruct (Qlt_bool (confidence x) (confidence z)).
        -- constructor. now inversion Hhd.
        -- constructor. unfold confidence_ge. lra.
    + apply Qlt_bool_false in E.
      constructor; [exact H|]. constructor. exact E.
Qed.

(** X2. The results come sorted, the greatest confidence first: no result
    has a greater confidence than one before it. *)
Theorem deduplicate_sorted_by_confidence :
  forall (matches : list TickerMatch) (text : string),
    StronglySorted confidence_ge (_deduplicate_and_score matches text).
Proof.
  intros matches text. apply Sorted_StronglySorted.
  - intros a b c Hab Hbc. unfold confidence_ge in *. lra.
  - unfold _deduplicate_and_score, sort_by_confidence_desc.
    induction (flat_map (fun g => merge_group (fst g) (snd g))
                        (group_by_symbol matches)) as [|x l IH];
      cbn [fold_right]; [constructor|].
    now apply insert_by_confidence_sorted.
Qed.

(** X3. A result holds every span of the mentions of its symbol, in the
    order of the mentions, and the first five of their context snippets
    and no more. *)
Theorem deduplicate_spans_and_contexts :
  forall (matches : list TickerMatch) (text : string) (r : TickerMatch),
    In r (_deduplicate_and_score matches text) ->
    positions r = flat_map positions (mentions_of (symbol r) matches)
    /\ context_snippets r
       = firstn 5 (flat_map context_snippets
                            (mentions_of (symbol r) matches))
    /\ (length (context_snippets r) <= 5)%nat.
Proof.
  intros matches text r Hr.
  destruct (deduplicate_and_score_in _ _ _ Hr) as [f [o [Hm Hg]]].
  destruct (merge_group_fields Hg) as [_ [_ [Hp [Hc _]]]].
  rewrite Hm, Hc. repeat split; [exact Hp|].
  apply firstn_le_length.
Qed.

Lemma deduplicate_spans_and_contexts_witness :
  In aapl_merged (_deduplicate_and_score [aapl_result; aapl_name_mention] "")
  /\ positions aapl_merged = [(0, 4); (10, 20)]%nat
  /\ context_snippets aapl_merged = ["AAPL rose"; "AAPL rose, Apple Inc led"].
Proof.
  assert (H : In aapl_merged
                (_deduplicate_and_score [aapl_result; aapl_name_mention] ""))
    by (vm_compute; left; reflexivity).
  split; [exact H|].
  destruct (deduplicate_spans_and_contexts _ _ _ H) as [Hp [Hc _]].
  split; [rewrite Hp | rewrite Hc]; reflexivity.
Defined.

(** X4. The company name of a result is empty when no mention of its symbol
    has a name; otherwise it is the name of one of them, and no mention
    has a longer one. *)
Theorem deduplicate_best_company_name :
  forall (matches : list TickerMatch) (text : string) (r : TickerMatch),
    In r (_deduplicate_and_score matches text) ->
    let names :=
      filter truthy (map company_name (mentions_of (symbol r) matches)) in
    (names = [] -> company_name r = "")
    /\ (names <> [] ->
        In (company_name r) names
        /\ forall n, In n names ->
             (String.length n <= String.length (company_name r))%nat).
Proof.
  intros matches text r Hr. cbv zeta.
  destruct (deduplicate_and_score_in _ _ _ Hr) as [f [o [Hm Hg]]].
  destruct (merge_group_fields Hg) as [_ [Hn _]].
  rewrite Hm, Hn.
  destruct (filter truthy (map company_name (f :: o))) as [|n ns].
  - split; [reflexivity | congruence].
  - split; [discriminate|]. intros _.
    destruct (max_by_fold String.length ns n) as [H1 [H2 H3]].
    split; [exact H3|].
    intros n' [<- | Hn']; [exact H1 | now apply H2].
Qed.

Lemma deduplicate_best_company_name_witness :
  In aapl_merged (_deduplicate_and_score [aapl_result; aapl_name_mention] "")
  /\ In (company_name aapl_merged) ["Apple Inc."; "Apple Inc."].
Proof.
  assert (H : In aapl_merged
                (_deduplicate_and_score [aapl_result; aapl_name_mention] ""))
    by (vm_compute; left; reflexivity).
  split; [exact H|].
  destruct (deduplicate_best_company_name _ _ _ H) as [_ Hn].
  apply Hn. discriminate.
Defined.

(** X5. The method of a result is the method of one of the mentions of its
    symbol, and no mention has a method of higher rank (known symbol
    over company name over contextual over pattern). *)
Theorem deduplicate_dominant_method :
  forall (matches : list TickerMatch) (text : string) (r m : TickerMatch),
    In r (_deduplicate_and_score matches text) ->
    In m matches ->
    symbol m = symbol r ->
    In (match_method r)
       (map match_method (mentions_of (symbol r) matches))
    /\ (method_rank (match_method m) <= method_rank (match_method r))%nat.
Proof.
  intros matches text r m Hr Hm Hsym.
  destruct (deduplicate_and_score_in _ _ _ Hr) as [f [o [Hg Hrec]]].
  assert (Hin : In m (f :: o)).
  { rewrite <- Hg. unfold mentions_of. apply filter_In.
    split; [exact Hm|]. rewrite Hsym. apply String.eqb_refl. }
  destruct (merge_group_fields Hrec) as [_ [_ [_ [_ Hmeth]]]].
  rewrite Hg, Hmeth.
  destruct (max_by_fold method_rank (map match_method o) (match_method f))
    as [H1 [H2 H3]].
  split; [exact H3|].
  destruct Hin as [<- | Hin]; [exact H1|].
  apply H2. now apply in_map.
Qed.

Lemma deduplicate_dominant_method_witness :
  In aapl_merged (_deduplicate_and_score [aapl_result; aapl_name_mention] "")
  /\ In aapl_name_mention [aapl_result; aapl_name_mention]
  /\ symbol aapl_name_mention = symbol aapl_merged
  /\ (method_rank (match_method aapl_name_mention)
      <= method_rank (match_method aapl_merged))%nat.
Proof.
  assert (H : In aapl_merged
                (_deduplicate_and_score [aapl_result; aapl_name_mention] ""))
    by (vm_compute; left; reflexivity).
  assert (Hm : In aapl_name_mention [aapl_result; aapl_name_mention])
    by (right; left; reflexivity).
  assert (Hs : symbol aapl_name_mention = symbol aapl_merged) by reflexivity.
  repeat split; try assumption.
  exact (proj2 (deduplicate_dominant_method _ _ _ _ H Hm Hs)).
Defined.

(* ================================================================= *)
(** ** The pattern matcher *)

Lemma pattern_confidence_split (ticker context full_text : string) :
  if mem ticker common_combinations
  then _calculate_pattern_confidence ticker context full_text <= 0.2
  else 0.5 <= _calculate_pattern_confidence ticker context full_text <= 1.
Proof.
  unfold _calculate_pattern_confidence.
  pose proof (add_terms_ge financial_indicators (lower context) 0.5) as Hlo.
  pose proof (add_terms_le financial_indicators (lower context) 0.5) as Hhi.
  change (of_nat (length financial_indicators)) with 11 in Hhi.
  set (base := add_terms financial_indicators (lower context) 0.5) in *.
  pose proof (of_nat_nonneg (count full_text ticker)) as Hn.
  set (n := of_nat (count full_text ticker)) in *.
  destruct (contains ("$" ++ ticker) full_text),
           (mem ticker common_combinations);
    split_min2; try split; lra.
Qed.

(** X6. The 0.3 threshold of the pattern matcher rejects the words of the
    penalty list, whatever the text, and nothing else: a hit of any
    other candidate always becomes a Mention. *)
Theorem pattern_threshold_is_the_penalty_list :
  forall (ticker text : string) (m : rmatch),
    pattern_hit ticker text m
    = if mem ticker common_combinations then []
      else [pattern_mention ticker text m].
Proof.
  intros ticker text m. unfold pattern_hit, pattern_mention.
  set (context := _extract_context text (m_start m) (m_end m) 50).
  pose proof (pattern_confidence_split ticker context text) as H.
  destruct (mem ticker common_combinations).
  - assert (E : Qlt_bool 0.3
                  (_calculate_pattern_confidence ticker context text)
                = false) by (apply Qlt_bool_false; lra).
    now rewrite E.
  - assert (E : Qlt_bool 0.3
                  (_calculate_pattern_confidence ticker context text)
                = true) by (apply Qlt_bool_true; lra).
    now rewrite E.
Qed.

(** X7. The pattern matcher proposes only symbols that the reference set
    does not hold, and the known-symbol matcher only symbols that it
    holds: no symbol gets a Mention from both. *)
Theorem known_and_pattern_symbols_disjoint :
  forall (t : TickerTagger) (text : string) (x y : TickerMatch),
    In x (_match_known_symbols t text) ->
    In y (pattern_candidates t text) ->
    dict_has (symbol_dict t) (symbol x) = true
    /\ dict_has (symbol_dict t) (symbol y) = false
    /\ symbol x <> symbol y.
Proof.
  intros t text x y Hx Hy.
  destruct (known_symbol_mention _ _ _ Hx) as [_ [_ Hkx]].
  assert (Hky : dict_has (symbol_dict t) (symbol y) = false).
  { unfold pattern_candidates in Hy.
    apply in_flat_map in Hy as [ticker [_ Hy]].
    destruct (emitted_pattern_hits _ _ _ _ Hy) as [_ Hs]. rewrite Hs.
    unfold pattern_ticker_hits in Hy.
    destruct (dict_has (symbol_dict t) ticker); [contradiction | reflexivity]. }
  repeat split; [exact Hkx | exact Hky | congruence].
Qed.

Lemma known_and_pattern_symbols_disjoint_witness :
  In aapl_known_mention (_match_known_symbols aapl_tagger "AAPL beat ZYXQ")
  /\ In zyxq_pattern_mention (pattern_candidates aapl_tagger "AAPL beat ZYXQ")
  /\ symbol aapl_known_mention = "AAPL"
  /\ symbol zyxq_pattern_mention = "ZYXQ"
  /\ symbol aapl_known_mention <> symbol zyxq_pattern_mention.
Proof.
  assert (Hx : In aapl_known_mention
                 (_match_known_symbols aapl_tagger "AAPL beat ZYXQ"))
    by (vm_compute; left; reflexivity).
  assert (Hy : In zyxq_pattern_mention
                 (pattern_candidates aapl_tagger "AAPL beat ZYXQ"))
    by (vm_compute; left; reflexivity).
  split; [exact Hx|]. split; [exact Hy|].
  split; [vm_compute; reflexivity|]. split; [vm_compute; reflexivity|].
  exact (proj2 (proj2 (known_and_pattern_symbols_disjoint _ _ _ _ Hx Hy))).
Defined.

(* ================================================================= *)
(** ** Context windows *)

Lemma length_string_app (a b : string) :
  String.length (a ++ b) = (String.length a + String.length b)%nat.
Proof. induction a as [|c a IH]; cbn; [reflexivity | now rewrite IH]. Qed.

Lemma length_rev_string (cs : list ascii) :
  String.length (rev_string cs) = length cs.
Proof.
  unfold rev_string. rewrite <- (length_rev cs).
  induction (rev cs) as [|c l IH]; cbn; [reflexivity | now rewrite IH].
Qed.

Lemma all_chars_string_of_list (p : ascii -> bool) (l : list ascii) :
  all_chars p (string_of_list_ascii l) = forallb p l.
Proof. induction l as [|c l IH]; cbn; [reflexivity | now rewrite IH]. Qed.

Lemma rev_string_nonblank (cs : list ascii) :
  cs <> [] ->
  forallb (fun c => negb (is_space c)) cs = true ->
  nonblank_word (rev_string cs).
Proof.
  intros Hne Hall. split.
  - intro E. apply (f_equal String.length) in E.
    rewrite length_rev_string in E. destruct cs; [congruence | discriminate].
  - unfold rev_string. rewrite all_chars_string_of_list.
    rewrite forallb_forall in *. intros c Hc. apply Hall.
    now apply in_rev.
Qed.

Lemma length_join_cons (p : string) (ps : list string) :
  (String.length (join " " (p :: ps))
   <= String.length p + 1 + String.length (join " " ps))%nat.
Proof.
  destruct ps as [|q ps]; cbn [join].
  - lia.
  - rewrite !length_string_app. cbn [String.length]. lia.
Qed.

Lemma split_from_words (s : string) (cur : list ascii) :
  forallb (fun c => negb (is_space c)) cur = true ->
  Forall nonblank_word (split_from s cur).
Proof.
  revert cur. induction s as [|c s IH]; intros cur Hcur; cbn [split_from].
  - destruct cur as [|a cur]; [constructor|].
    constructor; [|constructor].
    apply rev_string_nonblank; [discriminate | exact Hcur].
  - destruct (is_space c) eqn:Hc.
    + destruct cur as [|a cur]; [now apply IH|].
      constructor; [|now apply IH].
      apply rev_string_nonblank; [discriminate | exact Hcur].
    + apply IH. cbn [forallb]. now rewrite Hc, Hcur.
Qed.

Lemma split_from_length (s : string) (cur : list ascii) :
  (String.length (join " " (split_from s cur))
   <= String.length s + length cur)%nat.
Proof.
  revert cur. induction s as [|c s IH]; intro cur; cbn [split_from].
  - destruct cur as [|a cur]; cbn [join String.length length]; [lia|].
    rewrite length_rev_string. cbn [length]. lia.
  - destruct (is_space c).
    + destruct cur as [|a cur].
      * specialize (IH []). cbn [String.length length] in *. lia.
      * pose proof (length_join_cons (rev_string (a :: cur))
                      (split_from s [])) as Hj.
        specialize (IH []). rewrite length_rev_string in Hj.
        cbn [String.length length] in *. lia.
    + specialize (IH (c :: cur)). cbn [String.length length] in *. lia.
Qed.

Lemma lstrip_length (s : string) :
  (String.length (lstrip s) <= String.length s)%nat.
Proof.
  induction s as [|c s IH]; cbn [lstrip]; [lia|].
  destruct (is_space c); cbn [String.length] in *; lia.
Qed.

Lemma rstrip_length (s : string) :
  (String.length (rstrip s) <= String.length s)%nat.
Proof.
  induction s as [|c s IH]; cbn [rstrip]; [lia|].
  destruct (rstrip s) as [|d r]; [destruct (is_space c)|];
    cbn [String.length] in *; lia.
Qed.

Lemma substring_length (i n : nat) (s : string) :
  (String.length (substring i n s) <= Nat.min n (String.length s - i))%nat.
Proof.
  revert i n. induction s as [|c s IH]; intros i n.
  - destruct i, n; cbn; lia.
  - destruct i as [|i].
    + destruct n as [|n]; cbn [substring String.length]; [lia|].
      specialize (IH 0%nat n). rewrite Nat.sub_0_r in *. lia.
    + cbn [substring String.length]. specialize (IH i n).
      replace (S (String.length s) - S i)%nat
        with (String.length s - i)%nat by lia.
      exact IH.
Qed.

(** X8. A context snippet is never longer than the window it is cut from,
    [window] characters on each side of the match as far as the text
    goes, and it is normalised: words without whitespace, joined by
    single blanks. *)
Theorem extract_context_window :
  forall (text : string) (start end_ window : nat),
    (String.length (_extract_context text start end_ window)
     <= Nat.min (String.length text) (end_ + window) - (start - window))%nat
    /\ exists words,
         _extract_context text start end_ window = join " " words
         /\ Forall nonblank_word words.
Proof.
  intros text start end_ window. unfold _extract_context. split.
  - unfold split.
    pose proof (split_from_length
                  (strip (slice text (start - window)
                            (Nat.min (String.length text) (end_ + window))))
                  []) as H1.
    pose proof (rstrip_length
                  (lstrip (slice text (start - window)
                             (Nat.min (String.length text) (end_ + window)))))
      as H2.
    pose proof (lstrip_length
                  (slice text (start - window)
                     (Nat.min (String.length text) (end_ + window)))) as H3.
    pose proof (substring_length (start - window)
                  (Nat.min (String.length text) (end_ + window)
                   - (start - window)) text) as H4.
    unfold strip, slice in *. cbn [length] in H1. lia.
  - eexists. split; [reflexivity|].
    unfold split. now apply split_from_words.
Qed.

(* ================================================================= *)
(** ** Persisting into consistent tables *)

Lemma memZ_In (i : Z) (l : list Z) : Db.memZ i l = true <-> In i l.
Proof.
  unfold Db.memZ. rewrite existsb_exists. split.
  - intros [x [Hx E]]. apply Z.eqb_eq in E. now subst.
  - intro H. exists i. split; [exact H | apply Z.eqb_refl].
Qed.

Lemma mem_In (s : string) (l : list string) : mem s l = true <-> In s l.
Proof.
  unfold mem. rewrite existsb_exists. split.
  - intros [x [Hx E]]. apply String.eqb_eq in E. now subst.
  - intro H. exists s. split; [exact H | apply String.eqb_refl].
Qed.

Lemma distinctZ_NoDup (l : list Z) : Db.distinctZ l = true <-> NoDup l.
Proof.
  induction l as [|i l IH]; cbn [Db.distinctZ].
  - split; [constructor | reflexivity].
  - rewrite andb_true_iff, negb_true_iff, IH. split.
    + intros [Hm Hl]. constructor; [|exact Hl].
      intro Hin. apply memZ_In in Hin. congruence.
    + intro H. inversion H as [|? ? Hn Hl]; subst. split; [|exact Hl].
      destruct (Db.memZ i l) eqn:E; [|reflexivity].
      apply memZ_In in E. contradiction.
Qed.

Lemma distinct_str_NoDup (l : list string) :
  Db.distinct_str l = true <-> NoDup l.
Proof.
  induction l as [|i l IH]; cbn [Db.distinct_str].
  - split; [constructor | reflexivity].
  - rewrite andb_true_iff, negb_true_iff, IH. split.
    + intros [Hm Hl]. constructor; [|exact Hl].
      intro Hin. apply mem_In in Hin. congruence.
    + intro H. inversion H as [|? ? Hn Hl]; subst. split; [|exact Hl].
      destruct (mem i l) eqn:E; [|reflexivity].
      apply mem_In in E. contradiction.
Qed.

Lemma fold_left_Zmax_ge (l : list Z) (a : Z) :
  (a <= fold_left Z.max l a)%Z
  /\ forall i, In i l -> (i <= fold_left Z.max l a)%Z.
Proof.
  revert a. induction l as [|x l IH]; intro a; cbn [fold_left].
  - split; [lia | contradiction].
  - destruct (IH (Z.max a x)) as [H1 H2]. split; [lia|].
    intros i [<- | Hi]; [lia | now apply H2].
Qed.

Lemma select_next_id_fresh (db : Db.database) :
  ~ In (Db.select_next_id db) (map Db.row_id (Db.ticker_symbols db)).
Proof.
  unfold Db.select_next_id, Db.max_id.
  destruct (map Db.row_id (Db.ticker_symbols db)) as [|i l]; [intros []|].
  destruct (fold_left_Zmax_ge l i) as [H1 H2].
  intros [E | Hin]; [lia|]. specialize (H2 _ Hin). lia.
Qed.

Lemma select_nil_not_in (rows : list Db.ticker_row) (s : string) :
  filter (fun r => String.eqb (Db.row_symbol r) s) rows = [] ->
  ~ In s (map Db.row_symbol rows).
Proof.
  intros H Hin. apply in_map_iff in Hin as [r [E Hr]].
  assert (In r (filter (fun r => String.eqb (Db.row_symbol r) s) rows)).
  { apply filter_In. split; [exact Hr|]. rewrite E. apply String.eqb_refl. }
  rewrite H in *. contradiction.
Qed.

Lemma select_unique (rows : list Db.ticker_row) (s : string) :
  NoDup (map Db.row_symbol rows) ->
  (length (filter (fun r => String.eqb (Db.row_symbol r) s) rows) <= 1)%nat.
Proof.
  induction rows as [|r rows IH]; intro H; cbn [filter map] in *; [cbn; lia|].
  inversion H as [|? ? Hn Hl]; subst.
  destruct (String.eqb (Db.row_symbol r) s) eqn:E; [|now apply IH].
  apply String.eqb_eq in E. subst s.
  destruct (filter (fun r0 => String.eqb (Db.row_symbol r0) (Db.row_symbol r))
                   rows) as [|x l] eqn:F; [cbn; lia|].
  exfalso. apply Hn.
  assert (Hx : In x (filter (fun r0 => String.eqb (Db.row_symbol r0)
                                          (Db.row_symbol r)) rows))
    by (rewrite F; now left).
  apply filter_In in Hx as [Hx Ex]. apply String.eqb_eq in Ex.
  rewrite <- Ex. now apply in_map.
Qed.

Lemma NoDup_snoc (A : Type) (l : list A) (x : A) :
  NoDup l -> ~ In x l -> NoDup (l ++ [x]).
Proof.
  intros Hl Hx. apply NoDup_app; [exact Hl | constructor; [intros [] | constructor] |].
  intros a Ha [<- | []]. contradiction.
Qed.

(** The get-or-create step on a consistent table. *)
Lemma get_or_create_ticker_spec (m : TickerMatch) (db : Db.database) :
  ticker_table_ok db ->
  exists id,
    snd (get_or_create_ticker m db) = Ok id
    /\ Db.select_id_by_symbol (fst (get_or_create_ticker m db)) (symbol m)
       = [id]
    /\ ticker_table_ok (fst (get_or_create_ticker m db))
    /\ (forall s, s <> symbol m ->
          Db.select_id_by_symbol (fst (get_or_create_ticker m db)) s
          = Db.select_id_by_symbol db s)
    /\ (Db.select_id_by_symbol db (symbol m) <> [] ->
        fst (get_or_create_ticker m db) = db)
    /\ (Db.select_id_by_symbol db (symbol m) = [] ->
        id = Db.select_next_id db
        /\ Db.ticker_symbols (fst (get_or_create_ticker m db))
           = (Db.ticker_symbols db ++ [new_ticker_row id m])%list).
Proof.
  intros [Hid Hsym]. unfold get_or_create_ticker.
  destruct (Db.select_id_by_symbol db (symbol m)) as [|id rest] eqn:Hsel.
  - (* the symbol is new *)
    unfold Db.select_id_by_symbol in Hsel.
    apply map_eq_nil in Hsel.
    pose proof (select_nil_not_in _ _ Hsel) as Hnew.
    pose proof (select_next_id_fresh db) as Hfresh.
    set (next_id := Db.select_next_id db) in *.
    unfold Db.insert_ticker_symbols.
    assert (Hid' : NoDup (map Db.row_id
                     (Db.ticker_symbols db ++ [new_ticker_row next_id m]))).
    { rewrite map_app. cbn [map new_ticker_row Db.row_id].
      now apply NoDup_snoc. }
    assert (Hsym' : NoDup (map Db.row_symbol
                     (Db.ticker_symbols db ++ [new_ticker_row next_id m]))).
    { rewrite map_app. cbn [map new_ticker_row Db.row_symbol].
      now apply NoDup_snoc. }
    rewrite (proj2 (distinctZ_NoDup _) Hid'),
            (proj2 (distinct_str_NoDup _) Hsym').
    cbn [andb].
    assert (Hsel' : Db.select_id_by_symbol
                      (Db.mk_database
                         (Db.ticker_symbols db ++ [new_ticker_row next_id m])
                         (Db.article_ticker_associations db)) (symbol m)
                    = [next_id]).
    { unfold Db.select_id_by_symbol. cbn [Db.ticker_symbols].
      rewrite filter_app, Hsel. cbn [filter new_ticker_row Db.row_symbol app].
      rewrite String.eqb_refl. reflexivity. }
    rewrite Hsel'. cbn [fst snd]. exists next_id.
    repeat split; try assumption; try reflexivity.
    + intros s Hs. unfold Db.select_id_by_symbol. cbn [Db.ticker_symbols].
      rewrite filter_app. cbn [filter new_ticker_row Db.row_symbol].
      destruct (String.eqb (symbol m) s) eqn:E.
      * apply String.eqb_eq in E. congruence.
      * now rewrite app_nil_r.
    + congruence.
  - (* the symbol has a row *)
    cbn [fst snd]. exists id.
    assert (rest = []).
    { unfold Db.select_id_by_symbol in Hsel.
      pose proof (select_unique (Db.ticker_symbols db) (symbol m) Hsym) as Hu.
      apply (f_equal (@length Z)) in Hsel. rewrite length_map in Hsel.
      cbn [length] in Hsel. destruct rest; [reflexivity | cbn in Hsel; lia]. }
    subst rest.
    repeat split; try assumption; try reflexivity; try discriminate.
Qed.

(** X9. A symbol gets one row of [ticker_symbols]: on a consistent table the
    get-or-create step returns the id of the one row of the symbol and
    leaves the table consistent and the rows of the other symbols as
    they were.  A symbol that has a row keeps it and nothing changes; a
    symbol that has none gets a new row at the end of the table, with
    the first id above those in use.  Asked again for the same symbol,
    the step returns the same id and changes nothing. *)
Theorem get_or_create_ticker_idempotent :
  forall (m : TickerMatch) (db : Db.database),
    ticker_table_ok db ->
    exists id,
      snd (get_or_create_ticker m db) = Ok id
      /\ Db.select_id_by_symbol (fst (get_or_create_ticker m db)) (symbol m)
         = [id]
      /\ ticker_table_ok (fst (get_or_create_ticker m db))
      /\ get_or_create_ticker m (fst (get_or_create_ticker m db))
         = (fst (get_or_create_ticker m db), Ok id)
      /\ (forall s, s <> symbol m ->
            Db.select_id_by_symbol (fst (get_or_create_ticker m db)) s
            = Db.select_id_by_symbol db s)
      /\ (Db.select_id_by_symbol db (symbol m) <> [] ->
          fst (get_or_create_ticker m db) = db)
      /\ (Db.select_id_by_symbol db (symbol m) = [] ->
          id = Db.select_next_id db
          /\ Db.ticker_symbols (fst (get_or_create_ticker m db))
             = (Db.ticker_symbols db ++ [new_ticker_row id m])%list).
Proof.
  intros m db Hok.
  destruct (get_or_create_ticker_spec m Hok)
    as [id [Hr [Hsel [Hok' [Hother [Hsame Hnew]]]]]].
  exists id.
  split; [exact Hr|]. split; [exact Hsel|]. split; [exact Hok'|].
  split; [|split; [exact Hother|split; [exact Hsame | exact Hnew]]].
  set (db' := fst (get_or_create_ticker m db)) in *.
  unfold get_or_create_ticker. now rewrite Hsel.
Qed.

Lemma get_or_create_ticker_idempotent_witness :
  ticker_table_ok database_after_article_7
  /\ Db.select_id_by_symbol database_after_article_7 "AAPL" = [1%Z]
  /\ Db.select_id_by_symbol database_after_article_7 "MSFT" = []
  /\ exists id,
       id = 2%Z
       /\ snd (get_or_create_ticker msft_result database_after_article_7)
          = Ok id
       /\ Db.select_id_by_symbol
            (fst (get_or_create_ticker msft_result database_after_article_7))
            "MSFT" = [id]
       /\ Db.select_id_by_symbol
            (fst (get_or_create_ticker msft_result database_after_article_7))
            "AAPL" = [1%Z]
       /\ get_or_create_ticker msft_result
            (fst (get_or_create_ticker msft_result database_after_article_7))
          = (fst (get_or_create_ticker msft_result database_after_article_7),
             Ok id).
Proof.
  assert (H : ticker_table_ok database_after_article_7).
  { split; vm_compute; (constructor; [intros [] | constructor]). }
  assert (Ha : Db.select_id_by_symbol database_after_article_7 "AAPL"
               = [1%Z]) by reflexivity.
  assert (Hm : Db.select_id_by_symbol database_after_article_7
                 (symbol msft_result) = []) by reflexivity.
  split; [exact H|]. split; [exact Ha|]. split; [exact Hm|].
  destruct (get_or_create_ticker_idempotent msft_result H)
    as [id [H1 [H2 [_ [H3 [H4 [_ H5]]]]]]].
  exists id. destruct (H5 Hm) as [Hid _].
  split; [exact Hid|]. split; [exact H1|]. split; [exact H2|].
  split; [|exact H3].
  rewrite H4; [exact Ha | discriminate].
Defined.

Lemma get_or_create_ticker_keeps (m : TickerMatch) (s : string)
  (db : Db.database) (i : Z) :
  ticker_table_ok db ->
  Db.select_id_by_symbol db s = [i] ->
  Db.select_id_by_symbol (fst (get_or_create_ticker m db)) s = [i].
Proof.
  intros Hok Hs.
  destruct (get_or_create_ticker_spec m Hok)
    as [id [_ [_ [_ [Hother [Hsame _]]]]]].
  destruct (String.eqb_spec s (symbol m)) as [-> | Hne].
  - rewrite Hsame; [exact Hs | congruence].
  - now rewrite Hother.
Qed.

Lemma seq_ids_NoDup (start len : nat) :
  NoDup (map (fun i => Z.of_nat i + 1)%Z (seq start len)).
Proof.
  apply Finite.Injective_map_NoDup; [|apply seq_NoDup].
  intros a b H. lia.
Qed.

(** The loop over the results, on a consistent table. *)
Lemma collect_associations_spec (article_id : Z)
  (matches : list TickerMatch) :
  forall (acc : list Db.association_row) (db : Db.database),
    ticker_table_ok db ->
    exists data,
      snd (collect_associations article_id matches acc db)
      = Ok (acc ++ data)%list
      /\ ticker_table_ok
           (fst (collect_associations article_id matches acc db))
      /\ (forall s i,
            Db.select_id_by_symbol db s = [i] ->
            Db.select_id_by_symbol
              (fst (collect_associations article_id matches acc db)) s = [i])
      /\ Forall2 (stored_as
                    (fst (collect_associations article_id matches acc db))
                    article_id)
                 data matches
      /\ map Db.assoc_id data
         = map (fun i => Z.of_nat i + 1)%Z
               (seq (length acc) (length matches)).
Proof.
  induction matches as [|m matches IH]; intros acc db Hok;
    cbn [collect_associations].
  - exists []. cbn [fst snd length seq map]. rewrite app_nil_r.
    split; [reflexivity|]. split; [exact Hok|].
    split; [auto|]. split; [constructor | reflexivity].
  - destruct (get_or_create_ticker_spec m Hok)
      as [id [Hr [Hsel [Hok' [Hother _]]]]].
    destruct (get_or_create_ticker m db) as [db' r] eqn:Edb.
    cbn [fst snd] in *. subst r.
    set (row := Db.mk_association_row (Z.of_nat (length acc) + 1) article_id
                  id (confidence m) (match_method m)
                  (hd "" (context_snippets m))).
    destruct (IH (acc ++ [row])%list db' Hok')
      as [data [Hd [Hok'' [Hkeep [Hall Hids]]]]].
    exists (row :: data).
    split; [rewrite Hd, <- app_assoc; reflexivity|].
    split; [exact Hok''|].
    split.
    { intros s i Hs. apply Hkeep.
      pose proof (get_or_create_ticker_keeps m s Hok Hs) as K.
      rewrite Edb in K. exact K. }
    split.
    { constructor; [|exact Hall].
      unfold stored_as. cbn [Db.assoc_article_id Db.assoc_confidence
        Db.assoc_match_method Db.assoc_context_snippet Db.assoc_ticker_id row].
      repeat split. apply Hkeep. exact Hsel. }
    cbn [map Db.assoc_id row length seq]. f_equal.
    rewrite Hids, length_app. cbn [length]. now rewrite Nat.add_1_r.
Qed.

(** The first call on an empty association table. *)
Lemma persist_first_document_spec :
  forall (article_id : Z) (ticker_matches : list TickerMatch)
         (db : Db.database),
    ticker_table_ok db ->
    Db.article_ticker_associations db = [] ->
    let db' := fst (persist_ticker_associations article_id ticker_matches db) in
    snd (persist_ticker_associations article_id ticker_matches db) = Ok tt
    /\ ticker_table_ok db'
    /\ Forall2 (stored_as db' article_id)
               (Db.article_ticker_associations db') ticker_matches
    /\ map Db.assoc_id (Db.article_ticker_associations db')
       = map (fun i => Z.of_nat i + 1)%Z (seq 0 (length ticker_matches)).
Proof.
  intros article_id ticker_matches db Hok Hempty. cbv zeta.
  unfold persist_ticker_associations.
  destruct ticker_matches as [|m rest].
  { cbn [fst snd length seq map]. rewrite Hempty.
    split; [reflexivity|]. split; [exact Hok|].
    split; [constructor | reflexivity]. }
  destruct (collect_associations_spec article_id (m :: rest) [] Hok)
    as [data [Hd [Hok' [_ [Hall Hids]]]]].
  pose proof (proj1 (collect_associations_ids article_id (m :: rest) [] db))
    as Ha.
  destruct (collect_associations article_id (m :: rest) [] db)
    as [db' r]. cbn [fst snd app] in *. subst r.
  destruct data as [|row data]; [inversion Hall|].
  unfold Db.insert_associations. rewrite Ha, Hempty. cbn [app].
  assert (Hdist : Db.distinctZ (map Db.assoc_id (row :: data)) = true).
  { apply distinctZ_NoDup. rewrite Hids. apply seq_ids_NoDup. }
  rewrite Hdist. cbn [fst snd Db.article_ticker_associations].
  split; [reflexivity|]. split; [exact Hok'|].
  split; [|exact Hids].
  clear -Hall. revert Hall. generalize (row :: data) at 1 3.
  intros l Hall. induction Hall as [|a x l l' Hs _ IH]; constructor;
    [|exact IH].
  exact Hs.
Qed.

(** X10. The first document persisted into an empty association table is
    stored in full: on a consistent [ticker_symbols] table the call
    raises nothing and leaves one association row per result, in the
    order of the results and numbered from 1, each with the score, the
    method and the first snippet of its result and the id of the one
    [ticker_symbols] row of its symbol. *)
Theorem persist_first_document :
  forall (article_id : Z) (ticker_matches : list TickerMatch)
         (db : Db.database),
    ticker_table_ok db ->
    Db.article_ticker_associations db = [] ->
    let db' := fst (persist_ticker_associations article_id ticker_matches db) in
    snd (persist_ticker_associations article_id ticker_matches db) = Ok tt
    /\ ticker_table_ok db'
    /\ Forall2 (stored_as db' article_id)
               (Db.article_ticker_associations db') ticker_matches
    /\ map Db.assoc_id (Db.article_ticker_associations db')
       = map (fun i => Z.of_nat i + 1)%Z (seq 0 (length ticker_matches)).
Proof.
  intros article_id ticker_matches db Hok Hempty.
  exact (persist_first_document_spec article_id ticker_matches Hok Hempty).
Qed.

Lemma persist_first_document_witness :
  ticker_table_ok empty_database
  /\ snd (persist_ticker_associations 7 [aapl_result; msft_result]
            empty_database) = Ok tt
  /\ map Db.assoc_id
         (Db.article_ticker_associations
            (fst (persist_ticker_associations 7 [aapl_result; msft_result]
                    empty_database)))
     = [1; 2]%Z.
Proof.
  assert (H : ticker_table_ok empty_database) by (split; constructor).
  assert (E : Db.article_ticker_associations empty_database = [])
    by reflexivity.
  split; [exact H|].
  destruct (persist_first_document 7 [aapl_result; msft_result] H E)
    as [H1 [_ [_ H2]]].
  split; [exact H1 | exact H2].
Defined.

Lemma get_or_create_ticker_rows (m : TickerMatch) (db : Db.database) :
  exists new_rows,
    Db.ticker_symbols (fst (get_or_create_ticker m db))
    = (Db.ticker_symbols db ++ new_rows)%list.
Proof.
  unfold get_or_create_ticker.
  destruct (Db.select_id_by_symbol db (symbol m)).
  2:{ exists []. now rewrite app_nil_r. }
  unfold Db.insert_ticker_symbols.
  destruct (_ && _).
  - destruct (Db.select_id_by_symbol _ (symbol m)); cbn [fst];
      now eexists.
  - exists []. now rewrite app_nil_r.
Qed.

Lemma collect_associations_rows (article_id : Z)
  (matches : list TickerMatch) :
  forall (acc : list Db.association_row) (db : Db.database),
  exists new_rows,
    Db.ticker_symbols (fst (collect_associations article_id matches acc db))
    = (Db.ticker_symbols db ++ new_rows)%list.
Proof.
  induction matches as [|m matches IH]; intros acc db;
    cbn [collect_associations].
  - exists []. now rewrite app_nil_r.
  - destruct (get_or_create_ticker_rows m db) as [rows1 H1].
    destruct (get_or_create_ticker m db) as [db' [ticker_id|e]];
      cbn [fst] in *.
    + destruct (IH (acc ++ [Db.mk_association_row
                              (Z.of_nat (length acc) + 1) article_id
                              ticker_id (confidence m) (match_method m)
                              (hd "" (context_snippets m))])%list db')
        as [rows2 H2].
      exists (rows1 ++ rows2)%list. now rewrite H2, H1, app_assoc.
    + now exists rows1.
Qed.

(** X11. Persisting only appends: whatever the tables hold and whether the
    call raises or not, the rows that were in [ticker_symbols] and in
    [article_ticker_associations] before the call are there after it,
    unchanged and in their places, followed by the new rows. *)
Theorem persist_only_appends :
  forall (article_id : Z) (ticker_matches : list TickerMatch)
         (db : Db.database),
    let db' := fst (persist_ticker_associations article_id ticker_matches db) in
    (exists new_tickers,
       Db.ticker_symbols db' = (Db.ticker_symbols db ++ new_tickers)%list)
    /\ (exists new_associations,
          Db.article_ticker_associations db'
          = (Db.article_ticker_associations db ++ new_associations)%list).
Proof.
  intros article_id ticker_matches db. cbv zeta.
  unfold persist_ticker_associations.
  destruct ticker_matches as [|m rest].
  { split; exists []; now rewrite app_nil_r. }
  destruct (collect_associations_rows article_id (m :: rest) [] db)
    as [rows Hrows].
  pose proof (proj1 (collect_associations_ids article_id (m :: rest) [] db))
    as Ha.
  destruct (collect_associations article_id (m :: rest) [] db)
    as [db' [data|e]]; cbn [fst] in *.
  2:{ split; [now exists rows | exists []; now rewrite app_nil_r]. }
  destruct data as [|row data].
  { split; [now exists rows | exists []; now rewrite app_nil_r]. }
  unfold Db.insert_associations. destruct (Db.distinctZ _); cbn [fst].
  - cbn [Db.ticker_symbols Db.article_ticker_associations].
    split; [now exists rows | exists (row :: data); now rewrite Ha].
  - split; [now exists rows | exists []; now rewrite app_nil_r].
Qed.

(* ================================================================= *)
(** ** What a match points at *)

Lemma last_char_app (prev : option ascii) (a b : string) :
  last_char prev (a ++ b) = last_char (last_char prev a) b.
Proof. revert prev. induction a as [|c a IH]; intro prev; cbn; auto. Qed.

(** Every match of [finditer] is a success of the pattern at its start:
    the text splits there, and the pattern read [m_end - m_start]
    characters with the groups of the match. *)
Lemma finditer_from_sound (try : attempt) (m : rmatch) :
  forall (s : string) (prev : option ascii) (pos skip : nat),
    In m (finditer_from try prev s pos skip) ->
    exists pre rest len,
      s = pre ++ rest
      /\ m_start m = (pos + String.length pre)%nat
      /\ m_end m = (m_start m + len)%nat
      /\ m_group0 m = substring 0 len rest
      /\ try (last_char prev pre) rest = Some (len, m_groups m).
Proof.
  induction s as [|c s IH]; intros prev pos skip Hin;
    cbn [finditer_from] in Hin; [contradiction|].
  assert (Hrec : forall k,
            In m (finditer_from try (Some c) s (S pos) k) ->
            exists pre rest len,
              String c s = pre ++ rest
              /\ m_start m = (pos + String.length pre)%nat
              /\ m_end m = (m_start m + len)%nat
              /\ m_group0 m = substring 0 len rest
              /\ try (last_char prev pre) rest = Some (len, m_groups m)).
  { intros k Hk.
    destruct (IH _ _ _ Hk) as [pre [rest [len [E [Hs [He [Hg Ht]]]]]]].
    exists (String c pre), rest, len. cbn [append String.length last_char].
    repeat split; try assumption.
    - now rewrite E.
    - lia. }
  destruct skip as [|k]; [|exact (Hrec _ Hin)].
  destruct (try prev (String c s)) as [[len groups]|] eqn:Htry;
    [|exact (Hrec _ Hin)].
  destruct Hin as [<- | Hin]; [|exact (Hrec _ Hin)].
  exists "", (String c s), len. cbn [append String.length last_char m_start
    m_end m_group0 m_groups].
  repeat split; try assumption; try reflexivity. lia.
Qed.

Lemma finditer_sound (try : attempt) (text : string) (m : rmatch) :
  In m (finditer try text) ->
  exists pre rest len,
    text = pre ++ rest
    /\ m_start m = String.length pre
    /\ m_end m = (String.length pre + len)%nat
    /\ m_group0 m = substring 0 len rest
    /\ try (last_char None pre) rest = Some (len, m_groups m).
Proof.
  intro H. destruct (finditer_from_sound _ _ _ _ _ _ H)
    as [pre [rest [len [E [Hs [He [Hg Ht]]]]]]].
  exists pre, rest, len. cbn [Nat.add] in Hs. rewrite Hs in He.
  repeat split; assumption.
Qed.

(** A match of [\b(a1|a2|...)\b]: a whole word of the text, equal to one
    of the alternatives, up to case under IGNORECASE. *)
Lemma literal_ci_lower (ci : bool) (a s : string) (last : option ascii)
  (t : string) (l : option ascii) (rest : string) :
  literal ci a s last = Some (t, l, rest) ->
  if ci then lower t = lower a else t = a.
Proof.
  revert s last t l rest.
  induction a as [|x a IH]; intros s last t l rest H; cbn [literal] in H.
  - destruct s; inversion H; subst; destruct ci; reflexivity.
  - destruct s as [|b s]; [discriminate|].
    destruct ci.
    + destruct (Ascii.eqb (lower_char x) (lower_char b)) eqn:E;
        [|discriminate].
      destruct (literal true a s (Some b)) as [[[t' l'] rest']|] eqn:H';
        [|discriminate].
      inversion H; subst. specialize (IH _ _ _ _ _ H').
      apply Ascii.eqb_eq in E. unfold lower in *. cbn [map_str].
      now rewrite IH, E.
    + destruct (Ascii.eqb x b) eqn:E; [|discriminate].
      destruct (literal false a s (Some b)) as [[[t' l'] rest']|] eqn:H';
        [|discriminate].
      inversion H; subst. specialize (IH _ _ _ _ _ H').
      apply Ascii.eqb_eq in E. now rewrite IH, E.
Qed.

Lemma word_alternation_sound (ci : bool) (alts : list string)
  (text : string) (m : rmatch) :
  In m (finditer (word_alternation ci alts) text) ->
  exists pre w post a,
    text = pre ++ w ++ post
    /\ m_start m = String.length pre
    /\ m_end m = (String.length pre + String.length w)%nat
    /\ m_groups m = [w]
    /\ In a alts
    /\ String.length w = String.length a
    /\ (if ci then lower w = lower a else w = a)
    /\ boundary (last_char None pre) (head (w ++ post)) = true
    /\ boundary (last_char (last_char None pre) w) (head post) = true.
Proof.
  intro H.
  destruct (finditer_sound _ _ _ H) as [pre [rest [len [E [Hs [He [_ Ht]]]]]]].
  unfold word_alternation in Ht.
  destruct (boundary (last_char None pre) (head rest)) eqn:Hb;
    [|discriminate].
  destruct (alternation ci alts (last_char None pre) rest) as [t|] eqn:Ha;
    [|discriminate].
  inversion Ht as [[Hlen Hgr]]. subst len.
  destruct (alternation_some _ _ _ _ Ha) as [a [l [post [Hin [Hlit Hbd]]]]].
  destruct (literal_read _ _ _ _ Hlit) as [Erest [El [Elen _]]].
  pose proof (literal_ci_lower _ _ _ _ Hlit) as Hci.
  exists pre, t, post, a. subst rest l.
  repeat split; try assumption; now symmetry.
Qed.

(** X12. Every Mention of the known-symbol matcher points at an occurrence of
    its symbol: the span delimits a whole word of the text that is the
    symbol up to case, the symbol has a record in the reference set and
    is not blacklisted, and the company name is the one of that
    record. *)
Theorem known_symbol_mentions_sound :
  forall (t : TickerTagger) (text : string) (x : TickerMatch),
    In x (_match_known_symbols t text) ->
    exists pre w post obj,
      delimited text pre w post
      /\ positions x
         = [(String.length pre, (String.length pre + String.length w)%nat)]
      /\ symbol x = upper w
      /\ mem (upper w) TICKER_BLACKLIST = false
      /\ dict_get (symbol_dict t) (upper w) = Some obj
      /\ company_name x = or_empty (obj_company_name obj).
Proof.
  intros t text x Hx. unfold _match_known_symbols in Hx.
  destruct (known_symbols_pattern t) as [alts|]; [|contradiction].
  apply in_flat_map in Hx as [m [Hm Hx]].
  destruct (word_alternation_sound _ _ _ _ Hm)
    as [pre [w [post [a [E [Hs [He [Hg [_ [_ [_ [Hb1 Hb2]]]]]]]]]]]].
  unfold known_symbol_hit, group1 in Hx. rewrite Hg in Hx. cbn [hd] in Hx.
  destruct (mem (upper w) TICKER_BLACKLIST) eqn:Hbl; [contradiction|].
  destruct (dict_get (symbol_dict t) (upper w)) as [obj|] eqn:Hobj;
    [|contradiction].
  destruct Hx as [<- | []].
  exists pre, w, post, obj. cbn [positions symbol company_name].
  rewrite Hs, He. unfold delimited. repeat split; assumption.
Qed.

Lemma known_symbol_mentions_sound_witness :
  In aapl_known_mention (_match_known_symbols aapl_tagger "AAPL beat ZYXQ")
  /\ exists pre w post,
       delimited "AAPL beat ZYXQ" pre w post
       /\ positions aapl_known_mention
          = [(String.length pre, (String.length pre + String.length w)%nat)]
       /\ symbol aapl_known_mention = upper w.
Proof.
  assert (Hx : In aapl_known_mention
                 (_match_known_symbols aapl_tagger "AAPL beat ZYXQ"))
    by (vm_compute; left; reflexivity).
  split; [exact Hx|].
  destruct (known_symbol_mentions_sound _ _ _ Hx)
    as [pre [w [post [obj [H1 [H2 [H3 _]]]]]]].
  exists pre, w, post. split; [exact H1|]. split; [exact H2 | exact H3].
Defined.

(** *** Company names *)

Lemma lower_char_idem (c : ascii) : lower_char (lower_char c) = lower_char c.
Proof. destruct c as [[] [] [] [] [] [] [] []]; reflexivity. Qed.

Lemma lower_idem (s : string) : lower (lower s) = lower s.
Proof.
  unfold lower. induction s as [|c s IH]; cbn [map_str]; [reflexivity|].
  now rewrite lower_char_idem, IH.
Qed.

Lemma dict_get_some_keys (V : Type) (d : dict V) (k : string) :
  In k (dict_keys d) -> exists v, dict_get d k = Some v.
Proof.
  intro H. destruct (dict_get d k) as [v|] eqn:E; [now exists v|].
  apply dict_get_none_keys in E. contradiction.
Qed.

Lemma compile_patterns_names (t : TickerTagger) (alts : list string)
  (a : string) :
  company_names_pattern (_compile_patterns t) = Some alts ->
  In a alts ->
  In a (dict_keys (company_name_dict t)) /\ (3 < String.length a)%nat.
Proof.
  unfold _compile_patterns. cbn [company_names_pattern].
  intros H Ha.
  destruct (dict_keys (company_name_dict t)) as [|k ks]; [discriminate|].
  destruct (filter (fun name => (3 <? String.length name)%nat) (k :: ks))
    as [|n ns] eqn:F; [discriminate|].
  injection H as <-. apply (proj1 (sort_by_len_desc_in a (n :: ns))) in Ha.
  assert (Ha' : In a (filter (fun name => (3 <? String.length name)%nat)
                        (k :: ks))) by (rewrite F; exact Ha).
  apply filter_In in Ha' as [Hin Hlen].
  split; [exact Hin | now apply Nat.ltb_lt].
Qed.

(** A hit of the company-name pattern of a compiled tagger whose names
    are indexed in lower case is a whole word of more than three
    characters that the name index holds. *)
Lemma company_name_match (t : TickerTagger) (alts : list string)
  (text : string) (m : rmatch) :
  (forall k, In k (dict_keys (company_name_dict t)) -> lower k = k) ->
  company_names_pattern (_compile_patterns t) = Some alts ->
  In m (finditer (word_alternation true alts) text) ->
  exists pre w post obj,
    delimited text pre w post
    /\ m_start m = String.length pre
    /\ m_end m = (String.length pre + String.length w)%nat
    /\ group1 m = w
    /\ (3 < String.length w)%nat
    /\ dict_get (company_name_dict t) (lower w) = Some obj.
Proof.
  intros Hlow Hpat Hm.
  destruct (word_alternation_sound _ _ _ _ Hm)
    as [pre [w [post [a [E [Hs [He [Hg [Ha [Hlen [Hci [Hb1 Hb2]]]]]]]]]]]].
  destruct (@compile_patterns_names t alts a Hpat Ha) as [Hkey Hlong].
  rewrite (Hlow _ Hkey) in Hci.
  destruct (@dict_get_some_keys _ _ _ Hkey) as [obj Hobj].
  exists pre, w, post, obj. unfold delimited, group1. rewrite Hg, Hci.
  cbn [hd]. repeat split; try assumption. lia.
Qed.

Section LoadedNames.

Variable json_loads : string -> result json.

Lemma load_rows_names_lower (rows : list Db.ticker_row) :
  forall t : TickerTagger,
    (forall k, In k (dict_keys (company_name_dict t)) -> lower k = k) ->
    forall k,
      In k (dict_keys (company_name_dict (fst (load_rows json_loads rows t))))
      -> lower k = k.
Proof.
  apply (load_rows_invariant json_loads
           (fun t => forall k, In k (dict_keys (company_name_dict t)) ->
                               lower k = k)).
  intros row aliases t Ht. rewrite load_row_company_name_dict.
  destruct (truthy_opt (Db.row_company_name row)); [|exact Ht].
  intros k Hk. apply dict_set_keys_in in Hk as [-> | Hk];
    [apply lower_idem | now apply Ht].
Qed.

Lemma loaded_names_lower (query : result (list Db.ticker_row)) (k : string) :
  In k (dict_keys (company_name_dict
                     (_load_ticker_data json_loads query
                        (mk_TickerTagger [] [] [] None None)))) ->
  lower k = k.
Proof.
  unfold _load_ticker_data. destruct query as [rows|e].
  - apply load_rows_names_lower. intros k' [].
  - intros [].
Qed.

End LoadedNames.

Lemma flat_map_ext_in (A B : Type) (f g : A -> list B) (l : list A) :
  (forall a, In a l -> f a = g a) -> flat_map f l = flat_map g l.
Proof.
  induction l as [|a l IH]; intro H; cbn [flat_map]; [reflexivity|].
  rewrite (H a (or_introl eq_refl)), IH; [reflexivity|].
  intros b Hb. apply H. now right.
Qed.

(** X13. On ASCII text and a reference set with ASCII company names, every
    Mention of the company-name matcher of a loaded tagger points at an
    occurrence of an indexed company name: the span delimits a whole
    word sequence of the text, more than three characters long, whose
    lower-case form is a key of the name index, and the symbol and the
    company name of the Mention are those of the record found under that
    key. *)
Theorem company_name_mentions_sound :
  forall (json_loads : string -> result json)
         (query : result (list Db.ticker_row)) (text : string)
         (x : TickerMatch),
    is_ascii text = true ->
    ascii_names query = true ->
    In x (_match_company_names (new_TickerTagger json_loads query) text) ->
    exists pre w post obj,
      delimited text pre w post
      /\ positions x
         = [(String.length pre, (String.length pre + String.length w)%nat)]
      /\ (3 < String.length w)%nat
      /\ dict_get (company_name_dict (new_TickerTagger json_loads query))
                  (lower w) = Some obj
      /\ symbol x = obj_symbol obj
      /\ company_name x = or_empty (obj_company_name obj).
Proof.
  intros json_loads query text x _ _ Hx.
  unfold _match_company_names in Hx.
  destruct (company_names_pattern (new_TickerTagger json_loads query))
    as [alts|] eqn:Hpat; [|contradiction].
  apply in_flat_map in Hx as [m [Hm Hx]].
  unfold new_TickerTagger in Hpat.
  destruct (@company_name_match _ alts text m
              (@loaded_names_lower json_loads query) Hpat Hm)
    as [pre [w [post [obj [Hd [Hs [He [Hg [Hlen Hobj]]]]]]]]].
  unfold company_name_hit in Hx. rewrite Hg in Hx.
  unfold new_TickerTagger in Hx. cbn [_compile_patterns company_name_dict] in Hx.
  rewrite Hobj in Hx. destruct Hx as [<- | []].
  exists pre, w, post, obj. cbn [positions symbol company_name].
  rewrite Hs, He. unfold new_TickerTagger.
  cbn [_compile_patterns company_name_dict].
  split; [exact Hd|]. split; [reflexivity|]. split; [exact Hlen|].
  split; [exact Hobj|]. split; reflexivity.
Qed.

Lemma company_name_mentions_sound_witness :
  is_ascii "Allstate Corporation shares fell" = true
  /\ ascii_names (Ok [sample_row 1 "ALL" "Allstate Corporation" "[]"]) = true
  /\ In allstate_name_mention
       (_match_company_names allstate_tagger
          "Allstate Corporation shares fell")
  /\ exists pre w post,
       delimited "Allstate Corporation shares fell" pre w post
       /\ positions allstate_name_mention
          = [(String.length pre, (String.length pre + String.length w)%nat)]
       /\ (3 < String.length w)%nat.
Proof.
  assert (Hx : In allstate_name_mention
                 (_match_company_names
                    (new_TickerTagger json_loads_sample
                       (Ok [sample_row 1 "ALL" "Allstate Corporation" "[]"]))
                    "Allstate Corporation shares fell"))
    by (vm_compute; left; reflexivity).
  assert (Ht : is_ascii "Allstate Corporation shares fell" = true)
    by reflexivity.
  assert (Hn : ascii_names
                 (Ok [sample_row 1 "ALL" "Allstate Corporation" "[]"])
               = true) by reflexivity.
  split; [exact Ht|]. split; [exact Hn|]. split; [exact Hx|].
  destruct (@company_name_mentions_sound _ _ _ _ Ht Hn Hx)
    as [pre [w [post [obj [H1 [H2 [H3 _]]]]]]].
  exists pre, w, post. split; [exact H1|]. split; [exact H2 | exact H3].
Defined.

(** X14. On ASCII text and a reference set with ASCII company names, the
    alias index is never read when a loaded tagger matches company
    names: the pattern holds names only, every hit is found in the name
    index, and so the Mentions are the same whatever the alias index
    holds. *)
Theorem company_names_ignore_aliases :
  forall (json_loads : string -> result json)
         (query : result (list Db.ticker_row)) (text : string)
         (d : dict symbol_obj),
    is_ascii text = true ->
    ascii_names query = true ->
    _match_company_names
      (with_alias_dict (new_TickerTagger json_loads query) d) text
    = _match_company_names (new_TickerTagger json_loads query) text.
Proof.
  intros json_loads query text d _ _.
  unfold _match_company_names, with_alias_dict.
  cbn [company_names_pattern].
  destruct (company_names_pattern (new_TickerTagger json_loads query))
    as [alts|] eqn:Hpat; [|reflexivity].
  apply flat_map_ext_in. intros m Hm.
  unfold new_TickerTagger in Hpat.
  destruct (@company_name_match _ alts text m
              (@loaded_names_lower json_loads query) Hpat Hm)
    as [pre [w [post [obj [_ [_ [_ [Hg [_ Hobj]]]]]]]]].
  unfold company_name_hit. rewrite Hg.
  unfold new_TickerTagger.
  cbn [_compile_patterns company_name_dict alias_dict].
  now rewrite Hobj.
Qed.

Lemma company_names_ignore_aliases_witness :
  is_ascii "Allstate Corporation shares fell" = true
  /\ ascii_names (Ok [sample_row 1 "ALL" "Allstate Corporation" "[]"]) = true
  /\ _match_company_names
       (with_alias_dict allstate_tagger
          [("allstate corporation",
            row_obj (sample_row 2 "MSFT" "Microsoft Corporation" "[]")
                    (JArray [JString "Allstate Corporation"]))])
       "Allstate Corporation shares fell"
     = _match_company_names allstate_tagger
         "Allstate Corporation shares fell".
Proof.
  assert (Ht : is_ascii "Allstate Corporation shares fell" = true)
    by reflexivity.
  assert (Hn : ascii_names
                 (Ok [sample_row 1 "ALL" "Allstate Corporation" "[]"])
               = true) by reflexivity.
  split; [exact Ht|]. split; [exact Hn|].
  exact (@company_names_ignore_aliases json_loads_sample
           (Ok [sample_row 1 "ALL" "Allstate Corporation" "[]"])
           "Allstate Corporation shares fell" _ Ht Hn).
Defined.

(* ================================================================= *)
(** ** The candidates read by [TICKER_PATTERNS] *)

Lemma substring_prefix (w rest : string) :
  substring 0 (String.length w) (w ++ rest) = w.
Proof.
  induction w as [|c w IH]; cbn [String.length append substring].
  - destruct rest; reflexivity.
  - now rewrite IH.
Qed.

Lemma all_chars_ext (p q : ascii -> bool) (s : string) :
  (forall c, p c = q c) -> all_chars p s = all_chars q s.
Proof.
  intro H. induction s as [|c s IH]; cbn [all_chars]; [reflexivity|].
  now rewrite H, IH.
Qed.

(** A success of [r{0,n}] for a class [r]: at most [n] characters of the
    class were read before the rest of the pattern went on. *)
Lemma run_UpTo (p : ascii -> bool) (n : nat) :
  forall (prev : option ascii) (s : string) (pos : nat) (caps : captures)
         (k : cont) (x : nat * captures),
    run (UpTo n (Chr p)) prev s pos caps k = Some x ->
    exists w rest,
      s = w ++ rest
      /\ (String.length w <= n)%nat
      /\ all_chars p w = true
      /\ k (last_char prev w) rest (pos + String.length w)%nat caps = Some x.
Proof.
  induction n as [|n IH]; intros prev s pos caps k x H.
  - cbn in H. exists "", s. cbn [append String.length all_chars last_char].
    rewrite Nat.add_0_r. repeat split; auto.
  - cbn [UpTo Opt run] in H.
    destruct s as [|c s'].
    + exists "", "". cbn [append String.length all_chars last_char].
      rewrite Nat.add_0_r. repeat split; auto; lia.
    + destruct (p c) eqn:Hc.
      * destruct (run (UpTo n (Chr p)) (Some c) s' (S pos) caps k)
          as [y|] eqn:Hrec.
        -- inversion H; subst y.
           destruct (IH _ _ _ _ _ _ Hrec) as [w [rest [E [Hl [Ha Hk]]]]].
           exists (String c w), rest.
           cbn [append String.length all_chars last_char].
           rewrite Hc, Ha, <- E. repeat split; auto; [lia|].
           now rewrite <- plus_n_Sm.
        -- exists "", (String c s').
           cbn [append String.length all_chars last_char].
           rewrite Nat.add_0_r. repeat split; auto; lia.
      * exists "", (String c s').
        cbn [append String.length all_chars last_char].
        rewrite Nat.add_0_r. repeat split; auto; lia.
Qed.

(** A success of the group [([A-Z]{1,5})]. *)
Lemma run_ticker_group (ci : bool) (i : nat) :
  forall (prev : option ascii) (s : string) (pos : nat) (caps : captures)
         (k : cont) (x : nat * captures),
    run (ticker_group ci i) prev s pos caps k = Some x ->
    exists w rest,
      s = w ++ rest
      /\ (1 <= String.length w <= 5)%nat
      /\ all_chars (fun c => is_upper c || (ci && is_lower c)) w = true
      /\ k (last_char prev w) rest (pos + String.length w)%nat
           ((i, w) :: caps) = Some x.
Proof.
  intros prev s pos caps k x H.
  unfold ticker_group, Repeat_1, upper_class in H.
  cbn [run Nat.sub] in H.
  destruct s as [|c s']; [discriminate|].
  destruct (is_upper c || (ci && is_lower c)) eqn:Hc; [|discriminate].
  apply run_UpTo in H as [w [rest [E [Hl [Ha Hk]]]]].
  exists (String c w), rest.
  cbn [append String.length all_chars last_char].
  rewrite Hc, Ha, <- E. repeat split; auto; try lia.
  replace (S pos + String.length w - pos)%nat
    with (String.length (String c w)) in Hk by (cbn [String.length]; lia).
  rewrite E in Hk.
  change (String c (w ++ rest)) with (String c w ++ rest) in Hk.
  rewrite substring_prefix in Hk.
  now rewrite <- plus_n_Sm.
Qed.

Lemma upper_class_exact (w : string) :
  all_chars (fun c => is_upper c || (false && is_lower c)) w = true ->
  all_chars is_upper w = true.
Proof.
  intro H. rewrite <- H. apply all_chars_ext. intro c.
  now rewrite andb_false_l, orb_false_r.
Qed.

Lemma bare_ticker_read (prev : option ascii) (s : string) (len : nat)
  (groups : list string) :
  regex_try 1 bare_ticker prev s = Some (len, groups) ->
  exists w rest,
    s = w ++ rest /\ ticker_shaped w /\ groups = [w].
Proof.
  unfold regex_try, bare_ticker. cbn [run].
  destruct (boundary prev (head s)); [|discriminate].
  destruct (run (ticker_group false 1) prev s 0 [] _) as [[n caps]|] eqn:H;
    [|discriminate].
  intro E. inversion E; subst len groups. clear E.
  apply run_ticker_group in H as [w [rest [Es [Hl [Ha Hk]]]]].
  cbn [run] in Hk.
  destruct (boundary (last_char prev w) (head rest)); [|discriminate].
  inversion Hk; subst n caps.
  exists w, rest. split; [exact Es|].
  split; [split; [exact Hl | now apply upper_class_exact]|].
  cbn [seq map capture]. now rewrite Nat.eqb_refl.
Qed.

Lemma dollar_ticker_read (prev : option ascii) (s : string) (len : nat)
  (groups : list string) :
  regex_try 1 dollar_ticker prev s = Some (len, groups) ->
  exists w rest,
    s = "$" ++ w ++ rest /\ ticker_shaped w /\ groups = [w].
Proof.
  unfold regex_try, dollar_ticker, char_is. cbn [run].
  destruct s as [|c s']; [discriminate|].
  destruct (Ascii.eqb "$" c) eqn:Hc; [|discriminate].
  apply Ascii.eqb_eq in Hc. subst c.
  destruct (run (ticker_group false 1) (Some "$"%char) s' 1 [] _)
    as [[n caps]|] eqn:H; [|discriminate].
  intro E. inversion E; subst len groups. clear E.
  apply run_ticker_group in H as [w [rest [Es [Hl [Ha Hk]]]]].
  cbn [run] in Hk.
  destruct (boundary (last_char (Some "$"%char) w) (head rest));
    [|discriminate].
  inversion Hk; subst n caps.
  exists w, rest. split; [now rewrite Es|].
  split; [split; [exact Hl | now apply upper_class_exact]|].
  cbn [seq map capture]. now rewrite Nat.eqb_refl.
Qed.

Lemma string_app_assoc (a b c : string) : (a ++ b) ++ c = a ++ b ++ c.
Proof. induction a as [|x a IH]; cbn [append]; [reflexivity | now rewrite IH]. Qed.

Lemma list_set_NoDup (l : list string) : NoDup (list_set l).
Proof.
  induction l as [|s l IH]; cbn [list_set]; constructor.
  - intro H. apply filter_In in H as [_ H].
    now rewrite String.eqb_refl in H.
  - now apply NoDup_filter.
Qed.

(** X15. The candidates of [extract_tickers_from_text] are distinct tokens of
    one to five capital letters, none of them blacklisted, and each of
    them stands in the upper-cased text. *)
Theorem extract_tickers_shape :
  forall text : string,
    NoDup (extract_tickers_from_text text)
    /\ forall ticker,
         In ticker (extract_tickers_from_text text) ->
         ticker_shaped ticker
         /\ mem ticker TICKER_BLACKLIST = false
         /\ exists pre post, upper text = pre ++ ticker ++ post.
Proof.
  intro text. split; [apply list_set_NoDup|].
  intros ticker H.
  split; [|split; [exact (extract_tickers_not_blacklisted _ _ H)|]];
    unfold extract_tickers_from_text in H; apply list_set_in in H;
    apply in_flat_map in H as [pattern [Hp H]];
    apply filter_In in H as [H _]; unfold findall in H;
    apply in_map_iff in H as [m [Hlast Hm]];
    destruct (finditer_sound _ _ _ Hm) as [pre [rest [len [E [_ [_ [_ Ht]]]]]]];
    (destruct Hp as [<- | [<- | []]];
     [ apply bare_ticker_read in Ht as [w [post [Er [Hw Hg]]]]
     | apply dollar_ticker_read in Ht as [w [post [Er [Hw Hg]]]] ]);
    rewrite Hg in Hlast; cbn [last] in Hlast; subst w.
  - exact Hw.
  - exact Hw.
  - exists pre, post. now rewrite E, Er.
  - exists (pre ++ "$"), post. rewrite E, Er.
    now rewrite string_app_assoc.
Qed.

Lemma extract_tickers_shape_witness :
  In "ZYXQ" (extract_tickers_from_text "zyxq and $aapl rose")
  /\ ticker_shaped "ZYXQ"
  /\ mem "ZYXQ" TICKER_BLACKLIST = false.
Proof.
  assert (H : In "ZYXQ" (extract_tickers_from_text "zyxq and $aapl rose"))
    by (vm_compute; left; reflexivity).
  split; [exact H|].
  destruct (proj2 (extract_tickers_shape "zyxq and $aapl rose") _ H)
    as [H1 [H2 _]].
  split; [exact H1 | exact H2].
Defined.

(* ================================================================= *)
(** ** The indexes of a loaded tagger *)

Lemma dict_set_keys_fresh (V : Type) (d : dict V) (k : string) (v : V) :
  ~ In k (dict_keys d) -> dict_keys (dict_set d k v) = (dict_keys d ++ [k])%list.
Proof.
  unfold dict_keys.
  induction d as [|[k0 v0] d IH]; intro H; cbn [dict_set map fst app];
    [reflexivity|].
  cbn [map fst In] in H.
  destruct (String.eqb k0 k) eqn:E.
  - apply String.eqb_eq in E. tauto.
  - cbn [map fst]. rewrite IH; [reflexivity | tauto].
Qed.

Section LoadedIndexes.

Variable json_loads : string -> result json.

(** With distinct symbols and readable payloads, the symbol index holds
    the rows in their order, each under its symbol. *)
Lemma load_rows_symbol_dict (rows : list Db.ticker_row) :
  forall t : TickerTagger,
    Forall (readable json_loads) rows ->
    NoDup (dict_keys (symbol_dict t) ++ map Db.row_symbol rows) ->
    dict_keys (symbol_dict (fst (load_rows json_loads rows t)))
    = (dict_keys (symbol_dict t) ++ map Db.row_symbol rows)%list
    /\ (forall k, ~ In k (map Db.row_symbol rows) ->
          dict_get (symbol_dict (fst (load_rows json_loads rows t))) k
          = dict_get (symbol_dict t) k)
    /\ forall row aliases,
         In row rows ->
         decoded_aliases json_loads row = Ok aliases ->
         dict_get (symbol_dict (fst (load_rows json_loads rows t)))
                  (Db.row_symbol row)
         = Some (row_obj row aliases).
Proof.
  induction rows as [|row rows IH]; intros t Hread Hnd.
  - cbn [load_rows fst map]. rewrite app_nil_r.
    split; [reflexivity|]. split; [reflexivity | intros ? ? []].
  - inversion Hread as [|? ? [aliases [Hrow Hok]] Hrest]; subst.
    rewrite (@load_rows_cons_ok json_loads row rows aliases t Hrow Hok).
    cbn [map] in Hnd.
    assert (Hfresh : ~ In (Db.row_symbol row) (dict_keys (symbol_dict t))).
    { intro Hin. apply NoDup_remove_2 in Hnd. apply Hnd.
      apply in_app_iff. now left. }
    assert (Hlater : ~ In (Db.row_symbol row) (map Db.row_symbol rows)).
    { intro Hin. apply NoDup_remove_2 in Hnd. apply Hnd.
      apply in_app_iff. now right. }
    assert (Hkeys : dict_keys (symbol_dict (fst (load_row row aliases t)))
                    = (dict_keys (symbol_dict t) ++ [Db.row_symbol row])%list).
    { rewrite load_row_symbol_dict. now apply dict_set_keys_fresh. }
    destruct (IH (fst (load_row row aliases t)) Hrest) as [H1 [H2 H3]].
    { rewrite Hkeys, <- app_assoc. exact Hnd. }
    split; [rewrite H1, Hkeys, <- app_assoc; reflexivity|].
    split.
    + intros k Hk. cbn [map In] in Hk.
      rewrite H2 by tauto. rewrite load_row_symbol_dict.
      apply dict_get_set_neq. intro E. apply Hk. now left.
    + intros row' aliases' [<- | Hin] Hrow'.
      * rewrite H2 by exact Hlater. rewrite load_row_symbol_dict.
        rewrite dict_get_set_eq. congruence.
      * now apply H3.
Qed.

End LoadedIndexes.

(** X16. Loading is lossless on a well-formed table: when the alias payloads
    can all be read and no two rows share a symbol, the tagger knows the
    symbols of the rows, in their order, and a lookup of a symbol gives
    the record of its row with the decoded aliases. *)
Theorem loaded_symbols_round_trip :
  forall (json_loads : string -> result json)
         (rows : list Db.ticker_row),
    Forall (readable json_loads) rows ->
    NoDup (map Db.row_symbol rows) ->
    dict_keys (symbol_dict (new_TickerTagger json_loads (Ok rows)))
    = map Db.row_symbol rows
    /\ forall row aliases,
         In row rows ->
         decoded_aliases json_loads row = Ok aliases ->
         dict_get (symbol_dict (new_TickerTagger json_loads (Ok rows)))
                  (Db.row_symbol row)
         = Some (row_obj row aliases).
Proof.
  intros json_loads rows Hread Hnd.
  unfold new_TickerTagger, _load_ticker_data.
  cbn [_compile_patterns symbol_dict].
  destruct (@load_rows_symbol_dict json_loads rows
              (mk_TickerTagger [] [] [] None None) Hread Hnd)
    as [H1 [_ H3]].
  split; [exact H1 | exact H3].
Qed.

Lemma loaded_symbols_round_trip_witness :
  Forall (readable json_loads_sample)
         [sample_row 1 "AAPL" "Apple Inc." "[]";
          sample_row 3 "GOOGL" "Alphabet Inc." "[]"]
  /\ dict_keys (symbol_dict
       (new_TickerTagger json_loads_sample
          (Ok [sample_row 1 "AAPL" "Apple Inc." "[]";
               sample_row 3 "GOOGL" "Alphabet Inc." "[]"])))
     = ["AAPL"; "GOOGL"].
Proof.
  assert (H1 : Forall (readable json_loads_sample)
                 [sample_row 1 "AAPL" "Apple Inc." "[]";
                  sample_row 3 "GOOGL" "Alphabet Inc." "[]"]).
  { repeat constructor; exists (JArray []); split; reflexivity. }
  assert (H2 : NoDup (map Db.row_symbol
                 [sample_row 1 "AAPL" "Apple Inc." "[]";
                  sample_row 3 "GOOGL" "Alphabet Inc." "[]"])).
  { cbn. repeat constructor; cbn; intuition discriminate. }
  split; [exact H1|].
  exact (proj1 (loaded_symbols_round_trip H1 H2)).
Defined.

Lemma dict_get_set_cases (V : Type) (d : dict V) (k k' : string) (v o : V) :
  dict_get (dict_set d k v) k' = Some o ->
  (k' = k /\ o = v) \/ dict_get d k' = Some o.
Proof.
  intro H. destruct (String.eqb_spec k' k) as [-> | Hne].
  - rewrite dict_get_set_eq in H. left. split; congruence.
  - rewrite dict_get_set_neq in H by exact Hne. now right.
Qed.

Lemma store_aliases_get (obj : symbol_obj) (items : list json) :
  forall (d : dict symbol_obj) (k : string) (o : symbol_obj),
    dict_get (fst (store_aliases obj items d)) k = Some o ->
    (o = obj /\ exists alias, In (JString alias) items /\ k = lower alias)
    \/ dict_get d k = Some o.
Proof.
  induction items as [|a items IH]; intros d k o H; cbn [store_aliases] in H.
  - now right.
  - destruct a as [| b | n | alias | l | l]; cbn [alias_lower fst] in H;
      try (now right).
    apply IH in H as [[-> [alias' [Hin ->]]] | H].
    + left. split; [reflexivity|]. exists alias'.
      split; [now right | reflexivity].
    + apply dict_get_set_cases in H as [[-> ->] | H]; [|now right].
      left. split; [reflexivity|]. exists alias.
      split; [now left | reflexivity].
Qed.

Lemma load_row_indexes_sound (row : Db.ticker_row) (aliases : json)
  (t : TickerTagger) :
  indexes_sound t -> indexes_sound (fst (load_row row aliases t)).
Proof.
  intros [Hs [Hn Ha]]. unfold indexes_sound, load_row.
  cbn [fst symbol_dict company_name_dict alias_dict obj_symbol
       obj_company_name obj_aliases].
  split; [|split].
  - intros k obj H. apply dict_get_set_cases in H as [[-> ->] | H];
      [reflexivity | now apply Hs].
  - intros k obj H.
    destruct (Db.row_company_name row) as [name|] eqn:En;
      cbn [truthy_opt or_empty] in H; [|now apply Hn].
    destruct (truthy name) eqn:Et; [|now apply Hn].
    apply dict_get_set_cases in H as [[-> ->] | H]; [|now apply Hn].
    exists name. cbn [obj_company_name]. auto.
  - intros k obj H.
    destruct (json_truthy aliases); cbn [fst] in H; [|now apply Ha].
    destruct (json_iter aliases) as [items|e] eqn:Hiter; cbn [fst] in H;
      [|now apply Ha].
    apply store_aliases_get in H as [[-> [alias [Hin ->]]] | H];
      [|now apply Ha].
    exists items, alias. cbn [obj_aliases]. auto.
Qed.

Lemma load_rows_indexes_sound
  (json_loads : string -> result json)
  (rows : list Db.ticker_row) :
  forall t : TickerTagger,
    indexes_sound t -> indexes_sound (fst (load_rows json_loads rows t)).
Proof.
  apply (load_rows_invariant json_loads indexes_sound).
  intros row aliases t. apply load_row_indexes_sound.
Qed.

(** X17. Whatever the query returns, and wherever the load stops, the three
    indexes of a loaded tagger are sound: a symbol leads to a record of
    that symbol, a name to a record whose company name is that name up
    to case, an alias to a record that lists it up to case. *)
Theorem loaded_indexes_sound :
  forall (json_loads : string -> result json)
         (query : result (list Db.ticker_row)),
    indexes_sound (new_TickerTagger json_loads query).
Proof.
  intros json_loads query.
  assert (H0 : indexes_sound (mk_TickerTagger [] [] [] None None)).
  { repeat split; intros k obj H; discriminate H. }
  assert (H : indexes_sound
                (_load_ticker_data json_loads query
                   (mk_TickerTagger [] [] [] None None))).
  { unfold _load_ticker_data. destruct query as [rows|e]; [|exact H0].
    now apply load_rows_indexes_sound. }
  exact H.
Qed.

(* ================================================================= *)
(** ** Populating the reference set *)

Lemma sp500_ticker_data_spec (db : Db.database)
  (tickers : list (string * string * string)) :
  forall acc : list sp500_frame_row,
  exists new,
    sp500_ticker_data tickers acc db = (acc ++ new)%list
    /\ map frame_id new
       = map (fun i => Z.of_nat i + 1)%Z (seq (length acc) (length new))
    /\ (forall symbol name sector,
          In (symbol, name, sector) tickers ->
          Db.select_id_by_symbol db symbol = [] ->
          In symbol (map frame_symbol new))
    /\ Forall (fun r =>
                 In (frame_symbol r, frame_company_name r, frame_sector r)
                    tickers
                 /\ Db.select_id_by_symbol db (frame_symbol r) = []
                 /\ frame_market_cap r = "large"
                 /\ frame_aliases r = "[]"
                 /\ frame_is_active r = true) new.
Proof.
  induction tickers as [|[[symbol name] sector] tickers IH]; intro acc;
    cbn [sp500_ticker_data].
  - exists []. rewrite app_nil_r. cbn [length seq map].
    split; [reflexivity|]. split; [reflexivity|].
    split; [intros ? ? ? [] | constructor].
  - destruct (Db.select_id_by_symbol db symbol) as [|i l] eqn:Hsel.
    + destruct (IH (acc ++ [mk_sp500_frame_row (Z.of_nat (length acc) + 1)
                              symbol name sector "large" "[]" true])%list)
        as [new [E [Hids [Hmiss Hall]]]].
      eexists (_ :: new). rewrite E, <- app_assoc. cbn [app].
      split; [reflexivity|].
      split.
      { cbn [map frame_id length seq]. f_equal.
        rewrite Hids, length_app. cbn [length]. now rewrite Nat.add_1_r. }
      split.
      { intros s n c [Heq | Hin] Hs.
        - inversion Heq; subst. now left.
        - right. now apply (Hmiss s n c). }
      constructor.
      { cbn [frame_symbol frame_company_name frame_sector frame_market_cap
             frame_aliases frame_is_active].
        repeat split; [now left | exact Hsel]. }
      eapply Forall_impl; [|exact Hall].
      intros r [H1 H2]. split; [now right | exact H2].
    + destruct (IH acc) as [new [E [Hids [Hmiss Hall]]]].
      exists new. split; [exact E|]. split; [exact Hids|].
      split.
      { intros s n c [Heq | Hin] Hs.
        - inversion Heq; subst. congruence.
        - now apply (Hmiss s n c). }
      eapply Forall_impl; [|exact Hall].
      intros r [H1 H2]. split; [now right | exact H2].
Qed.

Lemma select_id_by_symbol_app (rows new : list Db.ticker_row)
  (assoc : list Db.association_row) (s : string) :
  Db.select_id_by_symbol (Db.mk_database (rows ++ new) assoc) s
  = (Db.select_id_by_symbol (Db.mk_database rows assoc) s
     ++ map Db.row_id
            (filter (fun r => String.eqb (Db.row_symbol r) s) new))%list.
Proof.
  unfold Db.select_id_by_symbol. cbn [Db.ticker_symbols].
  now rewrite filter_app, map_app.
Qed.

Lemma sp500_ticker_data_present (db : Db.database)
  (tickers : list (string * string * string)) :
  (forall symbol name sector,
     In (symbol, name, sector) tickers ->
     Db.select_id_by_symbol db symbol <> []) ->
  forall acc, sp500_ticker_data tickers acc db = acc.
Proof.
  induction tickers as [|[[symbol name] sector] tickers IH]; intros H acc;
    cbn [sp500_ticker_data]; [reflexivity|].
  destruct (Db.select_id_by_symbol db symbol) eqn:Hsel.
  - exfalso. apply (H symbol name sector); [now left | exact Hsel].
  - apply IH. intros s n c Hin. apply (H s n c). now right.
Qed.

(** X18. A successful call leaves a row for each of the ten symbols, and a
    call on tables that hold them all changes nothing: populating twice
    is populating once. *)
Theorem populate_sp500_tickers_idempotent :
  forall db db' : Db.database,
    populate_sp500_tickers db = (db', Ok tt) ->
    (forall symbol name sector,
       In (symbol, name, sector) sp500_tickers ->
       Db.select_id_by_symbol db' symbol <> [])
    /\ populate_sp500_tickers db' = (db', Ok tt).
Proof.
  intros db db' H.
  assert (Hall : forall symbol name sector,
            In (symbol, name, sector) sp500_tickers ->
            Db.select_id_by_symbol db' symbol <> []).
  { unfold populate_sp500_tickers in H.
    destruct (sp500_ticker_data_spec db sp500_tickers [])
      as [new [E [_ [Hmiss _]]]].
    cbn [app] in E. rewrite E in H.
    intros symbol name sector Hin.
    destruct new as [|r new].
    - inversion H; subst db'. intro Hsel.
      exact (Hmiss _ _ _ Hin Hsel).
    - unfold Db.insert_ticker_symbols in H.
      destruct (_ && _); [|discriminate].
      inversion H; subst db'. clear H.
      destruct db as [rows assoc]. cbn [Db.ticker_symbols
        Db.article_ticker_associations].
      rewrite select_id_by_symbol_app.
      destruct (Db.select_id_by_symbol (Db.mk_database rows assoc) symbol)
        as [|i l] eqn:Hsel; [|discriminate].
      specialize (Hmiss _ _ _ Hin Hsel).
      apply in_map_iff in Hmiss as [r' [Er' Hr']].
      cbn [app]. intro Hnil. apply map_eq_nil in Hnil.
      assert (Hf : In (select_star r')
                      (filter (fun r0 => String.eqb (Db.row_symbol r0) symbol)
                              (map select_star (r :: new)))).
      { apply filter_In. split; [now apply in_map|].
        cbn [select_star Db.row_symbol]. rewrite Er'.
        apply String.eqb_refl. }
      cbn [map] in Hf, Hnil. rewrite Hnil in Hf. contradiction. }
  split; [exact Hall|].
  unfold populate_sp500_tickers.
  now rewrite (sp500_ticker_data_present db' sp500_tickers Hall []).
Qed.

Lemma populate_sp500_tickers_idempotent_witness :
  populate_sp500_tickers (fst (populate_sp500_tickers empty_database))
  = (fst (populate_sp500_tickers empty_database), Ok tt).
Proof.
  assert (H : populate_sp500_tickers empty_database
              = (fst (populate_sp500_tickers empty_database), Ok tt))
    by (vm_compute; reflexivity).
  exact (proj2 (@populate_sp500_tickers_idempotent _ _ H)).
Defined.

(** X19. The rows of a call are numbered from 1: when the table holds a row
    of id 1, as it does once persisting created the first ticker of an
    empty table, and lacks one of the ten symbols, the call is refused
    by the primary key and stores nothing. *)
Theorem populate_sp500_tickers_id_clash :
  forall (db : Db.database) (symbol name sector : string),
    In 1%Z (map Db.row_id (Db.ticker_symbols db)) ->
    In (symbol, name, sector) sp500_tickers ->
    Db.select_id_by_symbol db symbol = [] ->
    populate_sp500_tickers db = (db, Raise ConstraintException).
Proof.
  intros db symbol name sector Hone Hin Hsel.
  unfold populate_sp500_tickers.
  destruct (sp500_ticker_data_spec db sp500_tickers [])
    as [new [E [Hids [Hmiss _]]]].
  cbn [app] in E. rewrite E.
  specialize (Hmiss _ _ _ Hin Hsel).
  destruct new as [|r new]; [contradiction|].
  unfold Db.insert_ticker_symbols.
  assert (Hdup : Db.distinctZ
                   (map Db.row_id
                      (Db.ticker_symbols db ++ map select_star (r :: new)))
                 = false).
  { rewrite map_app. apply distinctZ_app_shared with (i := 1%Z);
      [exact Hone|].
    rewrite map_map.
    change (map (fun x => Db.row_id (select_star x)) (r :: new))
      with (map frame_id (r :: new)).
    rewrite Hids. now left. }
  now rewrite Hdup.
Qed.

Lemma populate_sp500_tickers_id_clash_witness :
  In 1%Z (map Db.row_id (Db.ticker_symbols database_with_zyxq))
  /\ Db.select_id_by_symbol database_with_zyxq "AAPL" = []
  /\ populate_sp500_tickers database_with_zyxq
     = (database_with_zyxq, Raise ConstraintException).
Proof.
  assert (H1 : In 1%Z (map Db.row_id (Db.ticker_symbols database_with_zyxq)))
    by (left; reflexivity).
  assert (H2 : In ("AAPL", "Apple Inc.", "Technology") sp500_tickers)
    by (left; reflexivity).
  assert (H3 : Db.select_id_by_symbol database_with_zyxq "AAPL" = [])
    by reflexivity.
  split; [exact H1|]. split; [exact H3|].
  exact (@populate_sp500_tickers_id_clash database_with_zyxq _ _ _ H1 H2 H3).
Defined.

Lemma sp500_sectors_truthy (symbol name sector : string) :
  In (symbol, name, sector) sp500_tickers -> truthy sector = true.
Proof.
  unfold sp500_tickers. cbn [In].
  intros H. repeat (destruct H as [H | H]; [now inversion H|]).
  contradiction.
Qed.

Lemma filter_all (A : Type) (p : A -> bool) (l : list A) :
  Forall (fun a => p a = true) l -> filter p l = l.
Proof.
  induction 1 as [|a l Ha _ IH]; cbn [filter]; [reflexivity|].
  now rewrite Ha, IH.
Qed.

(** X20. The frame of [populate_sp500_tickers] has [sector] and [market_cap]
    before [aliases], the table has [aliases] before them, and the
    insertion goes by position.  So every row that a call adds holds its
    sector in the [aliases] column, [large] in [sector] and the alias
    payload in [market_cap]; and since a sector name is not JSON, the
    load of the tagger stops at the first of these rows: a tagger built
    after the call knows what a tagger built before it knew, and none of
    the symbols added. *)
Theorem populated_tickers_are_not_loaded :
  forall (json_loads : string -> result json) (db : Db.database),
    (forall symbol name sector,
       In (symbol, name, sector) sp500_tickers ->
       exists e, json_loads sector = Raise e) ->
    Forall (readable json_loads) (Db.select_active db) ->
    (exists added,
       Db.ticker_symbols (fst (populate_sp500_tickers db))
       = (Db.ticker_symbols db ++ added)%list
       /\ Forall (fun r =>
                    exists symbol name sector,
                      In (symbol, name, sector) sp500_tickers
                      /\ Db.row_symbol r = symbol
                      /\ Db.row_aliases r = Some sector
                      /\ Db.row_sector r = Some "large"
                      /\ Db.row_market_cap r = Some "[]") added)
    /\ new_TickerTagger json_loads
         (Ok (Db.select_active (fst (populate_sp500_tickers db))))
       = new_TickerTagger json_loads (Ok (Db.select_active db)).
Proof.
  intros json_loads db Hjson Hread.
  unfold populate_sp500_tickers.
  destruct (sp500_ticker_data_spec db sp500_tickers [])
    as [new [E [_ [_ Hall]]]].
  cbn [app] in E. rewrite E.
  assert (Hnone : (exists added,
             Db.ticker_symbols db = (Db.ticker_symbols db ++ added)%list
             /\ Forall (fun r =>
                    exists symbol name sector,
                      In (symbol, name, sector) sp500_tickers
                      /\ Db.row_symbol r = symbol
                      /\ Db.row_aliases r = Some sector
                      /\ Db.row_sector r = Some "large"
                      /\ Db.row_market_cap r = Some "[]") added)).
  { exists []. rewrite app_nil_r. split; [reflexivity | constructor]. }
  destruct new as [|r new]; [cbn [fst]; split; [exact Hnone | reflexivity]|].
  unfold Db.insert_ticker_symbols.
  destruct (_ && _); cbn [fst]; [|split; [exact Hnone | reflexivity]].
  cbn [Db.ticker_symbols]. split.
  - exists (map select_star (r :: new)). split; [reflexivity|].
    apply Forall_map. eapply Forall_impl; [|exact Hall].
    intros x [Hin [_ [Hcap [Hal _]]]].
    exists (frame_symbol x), (frame_company_name x), (frame_sector x).
    cbn [select_star Db.row_symbol Db.row_aliases Db.row_sector
         Db.row_market_cap].
    rewrite Hcap, Hal. repeat split. exact Hin.
  - unfold Db.select_active. cbn [Db.ticker_symbols].
    rewrite filter_app.
    rewrite (filter_all Db.row_is_active (l := map select_star (r :: new))).
    2:{ apply Forall_map. eapply Forall_impl; [|exact Hall].
        intros x [_ [_ [_ [_ Hact]]]]. exact Hact. }
    inversion Hall as [|? ? [Hin _] _]; subst.
    destruct (Hjson _ _ _ Hin) as [e He].
    unfold new_TickerTagger, _load_ticker_data. f_equal.
    cbn [map].
    destruct (@load_rows_readable json_loads
                (filter Db.row_is_active (Db.ticker_symbols db))
                (select_star r :: map select_star new)
                (mk_TickerTagger [] [] [] None None) Hread) as [-> _].
    cbn [load_rows]. unfold decoded_aliases.
    cbn [select_star Db.row_aliases].
    now rewrite (@sp500_sectors_truthy _ _ _ Hin), He.
Qed.

Lemma populated_tickers_are_not_loaded_witness :
  map Db.row_aliases
      (Db.ticker_symbols (fst (populate_sp500_tickers empty_database)))
  = map (fun t => Some (snd t)) sp500_tickers
  /\ new_TickerTagger json_loads_sample
       (Ok (Db.select_active (fst (populate_sp500_tickers empty_database))))
     = empty_tagger.
Proof.
  assert (H1 : forall symbol name sector,
            In (symbol, name, sector) sp500_tickers ->
            exists e, json_loads_sample sector = Raise e).
  { unfold sp500_tickers. cbn [In]. intros symbol name sector H.
    repeat (destruct H as [H | H];
            [inversion H; now exists JSONDecodeError|]).
    contradiction. }
  assert (H2 : Forall (readable json_loads_sample)
                      (Db.select_active empty_database)) by constructor.
  split; [vm_compute; reflexivity|].
  exact (proj2 (@populated_tickers_are_not_loaded json_loads_sample
                  empty_database H1 H2)).
Defined.

(* ================================================================= *)
(** ** Tagging, then persisting *)

Lemma NoDup_map_injective (A B : Type) (f : A -> B) (l : list A) (a b : A) :
  NoDup (map f l) -> In a l -> In b l -> f a = f b -> a = b.
Proof.
  induction l as [|x l IH]; intros Hnd Ha Hb E; [contradiction|].
  cbn [map] in Hnd. inversion Hnd as [|? ? Hx Hl]; subst.
  destruct Ha as [-> | Ha], Hb as [-> | Hb]; auto.
  - exfalso. apply Hx. rewrite E. now apply in_map.
  - exfalso. apply Hx. rewrite <- E. now apply in_map.
Qed.

Lemma select_id_by_symbol_in (db : Db.database) (s : string) (i : Z) :
  In i (Db.select_id_by_symbol db s) ->
  exists r, In r (Db.ticker_symbols db)
            /\ Db.row_symbol r = s /\ Db.row_id r = i.
Proof.
  unfold Db.select_id_by_symbol. intro H.
  apply in_map_iff in H as [r [Hi Hr]].
  apply filter_In in Hr as [Hr Hs]. apply String.eqb_eq in Hs.
  now exists r.
Qed.

(** In a consistent table an id belongs to one symbol. *)
Lemma select_id_by_symbol_injective (db : Db.database) (s1 s2 : string)
  (i : Z) :
  ticker_table_ok db ->
  Db.select_id_by_symbol db s1 = [i] ->
  Db.select_id_by_symbol db s2 = [i] ->
  s1 = s2.
Proof.
  intros [Hid _] H1 H2.
  destruct (@select_id_by_symbol_in db s1 i) as [r1 [Hr1 [Hs1 Hi1]]];
    [rewrite H1; now left|].
  destruct (@select_id_by_symbol_in db s2 i) as [r2 [Hr2 [Hs2 Hi2]]];
    [rewrite H2; now left|].
  assert (r1 = r2)
    by (apply (@NoDup_map_injective _ _ Db.row_id _ r1 r2 Hid Hr1 Hr2);
        congruence).
  congruence.
Qed.

Lemma stored_rows_of_symbol (db : Db.database) (article_id : Z)
  (s : string) (i : Z) (rows : list Db.association_row)
  (matches : list TickerMatch) :
  ticker_table_ok db ->
  Db.select_id_by_symbol db s = [i] ->
  Forall2 (stored_as db article_id) rows matches ->
  length (filter (fun a => Z.eqb (Db.assoc_article_id a) article_id
                           && Db.memZ (Db.assoc_ticker_id a)
                                      (Db.select_id_by_symbol db s)) rows)
  = length (mentions_of s matches).
Proof.
  intros Hok Hs Hall. rewrite Hs.
  induction Hall as [|a m rows matches [Ha [_ [_ [_ Hid]]]] _ IH];
    [reflexivity|].
  cbn [filter mentions_of]. fold (mentions_of s matches).
  rewrite Ha, Z.eqb_refl. cbn [andb Db.memZ existsb] in IH |- *.
  rewrite orb_false_r.
  destruct (String.eqb (symbol m) s) eqn:Em.
  - apply String.eqb_eq in Em. rewrite Em, Hs in Hid.
    injection Hid as <-. rewrite Z.eqb_refl. cbn [length]. now rewrite IH.
  - destruct (Z.eqb (Db.assoc_ticker_id a) i) eqn:Ei; [|exact IH].
    apply Z.eqb_eq in Ei. subst i. apply String.eqb_neq in Em.
    exfalso. apply Em.
    exact (select_id_by_symbol_injective _ _ Hok Hid Hs).
Qed.

Lemma stored_symbol_has_id (db : Db.database) (article_id : Z)
  (rows : list Db.association_row) (matches : list TickerMatch)
  (m : TickerMatch) :
  Forall2 (stored_as db article_id) rows matches ->
  In m matches ->
  exists i, Db.select_id_by_symbol db (symbol m) = [i].
Proof.
  intros Hall Hin. induction Hall as [|a x rows matches Hs _ IH];
    [contradiction|].
  destruct Hin as [-> | Hin]; [|now apply IH].
  destruct Hs as [_ [_ [_ [_ Hid]]]]. now exists (Db.assoc_ticker_id a).
Qed.

Lemma mentions_of_unique (matches : list TickerMatch) (m : TickerMatch) :
  NoDup (map symbol matches) -> In m matches ->
  mentions_of (symbol m) matches = [m].
Proof.
  unfold mentions_of.
  induction matches as [|x matches IH]; intros Hnd Hin; [contradiction|].
  cbn [map] in Hnd. inversion Hnd as [|? ? Hx Hl]; subst.
  cbn [filter]. destruct Hin as [-> | Hin].
  - rewrite String.eqb_refl. f_equal.
    destruct (filter (fun m0 => String.eqb (symbol m0) (symbol m)) matches)
      as [|y l] eqn:F; [reflexivity|].
    exfalso. apply Hx.
    assert (Hy : In y (filter (fun m0 => String.eqb (symbol m0) (symbol m))
                              matches)) by (rewrite F; now left).
    apply filter_In in Hy as [Hy E]. apply String.eqb_eq in E.
    rewrite <- E. now apply in_map.
  - destruct (String.eqb (symbol x) (symbol m)) eqn:E; [|now apply IH].
    apply String.eqb_eq in E. exfalso. apply Hx. rewrite E.
    now apply in_map.
Qed.

(** X21. Tagging then persisting, the first time: the results of one document
    have distinct symbols, and persisted into an empty association table
    each of them ends with exactly one association row for the document
    and its symbol. *)
Theorem persist_one_row_per_symbol :
  forall (article_id : Z) (ticker_matches : list TickerMatch)
         (db : Db.database) (m : TickerMatch),
    ticker_table_ok db ->
    Db.article_ticker_associations db = [] ->
    NoDup (map symbol ticker_matches) ->
    In m ticker_matches ->
    length (Db.associations_of
              (fst (persist_ticker_associations article_id ticker_matches db))
              article_id (symbol m))
    = 1%nat.
Proof.
  intros article_id ticker_matches db m Hok Hempty Hnd Hin.
  destruct (persist_first_document_spec article_id ticker_matches Hok Hempty)
    as [_ [Hok' [Hall _]]].
  set (db' := fst (persist_ticker_associations article_id ticker_matches db))
    in *.
  destruct (@stored_symbol_has_id _ _ _ _ m Hall Hin) as [i Hi].
  unfold Db.associations_of.
  rewrite (@stored_rows_of_symbol _ _ _ _ _ _ Hok' Hi Hall).
  now rewrite (@mentions_of_unique _ _ Hnd Hin).
Qed.

Lemma persist_one_row_per_symbol_witness :
  ticker_table_ok empty_database
  /\ NoDup (map symbol [aapl_result; msft_result])
  /\ length (Db.associations_of
               (fst (persist_ticker_associations 7 [aapl_result; msft_result]
                       empty_database))
               7 "MSFT")
     = 1%nat.
Proof.
  assert (H1 : ticker_table_ok empty_database) by (split; constructor).
  assert (H2 : Db.article_ticker_associations empty_database = [])
    by reflexivity.
  assert (H3 : NoDup (map symbol [aapl_result; msft_result])).
  { cbn. repeat constructor; cbn; intuition discriminate. }
  assert (H4 : In msft_result [aapl_result; msft_result])
    by (right; left; reflexivity).
  split; [exact H1|]. split; [exact H3|].
  exact (@persist_one_row_per_symbol 7 [aapl_result; msft_result]
           empty_database msft_result H1 H2 H3 H4).
Defined.

(* ================================================================= *)
(** ** The symbols read by the contextual templates *)

(** A success of a pattern is a success of what follows it, reached with
    the groups of other patterns untouched. *)
Lemma run_cont (r : regex) :
  forall (prev : option ascii) (s : string) (pos : nat) (caps : captures)
         (k : cont) (x : nat * captures),
    run r prev s pos caps k = Some x ->
    exists prev' s' pos' caps',
      k prev' s' pos' caps' = Some x
      /\ forall i, ~ In i (groups_of r) -> capture i caps' = capture i caps.
Proof.
  induction r as [| p | r1 IH1 r2 IH2 | r1 IH1 r2 IH2 | r1 IH1 | g r1 IH1 |];
    intros prev s pos caps k x H; cbn [run groups_of] in *.
  - now exists prev, s, pos, caps.
  - destruct s as [|c s']; [discriminate|].
    destruct (p c); [|discriminate].
    now exists (Some c), s', (S pos), caps.
  - apply IH1 in H as [p1 [s1 [pos1 [caps1 [H H1]]]]].
    apply IH2 in H as [p2 [s2 [pos2 [caps2 [H H2]]]]].
    exists p2, s2, pos2, caps2. split; [exact H|].
    intros i Hi. rewrite H2, H1; [reflexivity| |];
      intro Hin; apply Hi; apply in_app_iff; tauto.
  - destruct (run r1 prev s pos caps k) as [y|] eqn:E.
    + inversion H; subst y.
      apply IH1 in E as [p1 [s1 [pos1 [caps1 [E H1]]]]].
      exists p1, s1, pos1, caps1. split; [exact E|].
      intros i Hi. apply H1. intro Hin. apply Hi. apply in_app_iff. tauto.
    + apply IH2 in H as [p2 [s2 [pos2 [caps2 [H H2]]]]].
      exists p2, s2, pos2, caps2. split; [exact H|].
      intros i Hi. apply H2. intro Hin. apply Hi. apply in_app_iff. tauto.
  - revert H. generalize (String.length s) at 1. intro fuel.
    revert prev s pos caps.
    induction fuel as [|fuel IHf]; intros prev s pos caps H.
    + now exists prev, s, pos, caps.
    + match type of H with
      | match ?R with Some _ => _ | None => _ end = _ =>
          destruct R as [y|] eqn:E
      end.
      * inversion H; subst y.
        apply IH1 in E as [p1 [s1 [pos1 [caps1 [E H1]]]]].
        destruct (pos <? pos1)%nat; [|discriminate].
        apply IHf in E as [p2 [s2 [pos2 [caps2 [E H2]]]]].
        exists p2, s2, pos2, caps2. split; [exact E|].
        intros i Hi. now rewrite H2, H1.
      * now exists prev, s, pos, caps.
  - apply IH1 in H as [p1 [s1 [pos1 [caps1 [H H1]]]]].
    exists p1, s1, pos1, ((g, substring 0 (pos1 - pos) s) :: caps1).
    split; [exact H|].
    intros i Hi. cbn [capture].
    destruct (Nat.eqb_spec i g) as [-> | Hne]; [exfalso; apply Hi; now left|].
    apply H1. intro Hin. apply Hi. now right.
  - destruct (boundary prev (head s)); [|discriminate].
    now exists prev, s, pos, caps.
Qed.

Lemma run_Seq_cont (a b : regex) (prev : option ascii) (s : string)
  (pos : nat) (caps : captures) (k : cont) (x : nat * captures) :
  run (Seq a b) prev s pos caps k = Some x ->
  exists prev' s' pos' caps', run b prev' s' pos' caps' k = Some x.
Proof.
  cbn [run]. intro H.
  apply run_cont in H as [p1 [s1 [pos1 [caps1 [H _]]]]].
  now exists p1, s1, pos1, caps1.
Qed.

(** The ticker group followed by a pattern without that group: at the
    end the group holds one to five letters. *)
Lemma run_ticker_then (ci : bool) (g : nat) (b : regex)
  (prev : option ascii) (s : string) (pos : nat) (caps : captures)
  (len : nat) (caps' : captures) :
  ~ In g (groups_of b) ->
  run (Seq (ticker_group ci g) b) prev s pos caps
      (fun _ _ pos caps => Some (pos, caps)) = Some (len, caps') ->
  (1 <= String.length (capture g caps') <= 5)%nat
  /\ all_chars (fun c => is_upper c || (ci && is_lower c)) (capture g caps')
     = true.
Proof.
  intros Hg H. cbn [run] in H.
  apply run_ticker_group in H as [w [rest [_ [Hl [Ha H]]]]].
  apply run_cont in H as [p1 [s1 [pos1 [caps1 [H H1]]]]].
  inversion H; subst. rewrite (H1 g Hg). cbn [capture].
  rewrite Nat.eqb_refl. split; assumption.
Qed.

Lemma run_ticker_last (ci : bool) (g : nat)
  (prev : option ascii) (s : string) (pos : nat) (caps : captures)
  (len : nat) (caps' : captures) :
  run (ticker_group ci g) prev s pos caps
      (fun _ _ pos caps => Some (pos, caps)) = Some (len, caps') ->
  (1 <= String.length (capture g caps') <= 5)%nat
  /\ all_chars (fun c => is_upper c || (ci && is_lower c)) (capture g caps')
     = true.
Proof.
  intro H.
  apply run_ticker_group in H as [w [rest [_ [Hl [Ha H]]]]].
  inversion H; subst. cbn [capture].
  rewrite Nat.eqb_refl. split; assumption.
Qed.

Lemma upper_char_letter (c : ascii) :
  is_upper c || is_lower c = true -> is_upper (upper_char c) = true.
Proof.
  destruct c as [[] [] [] [] [] [] [] []]; vm_compute; intro H;
    first [reflexivity | discriminate H].
Qed.

Lemma upper_letters (ci : bool) (w : string) :
  all_chars (fun c => is_upper c || (ci && is_lower c)) w = true ->
  all_chars is_upper (upper w) = true
  /\ String.length (upper w) = String.length w.
Proof.
  unfold upper.
  induction w as [|c w IH]; cbn [all_chars map_str String.length];
    [split; reflexivity|].
  intro H. apply andb_true_iff in H as [Hc Hw].
  destruct (IH Hw) as [H1 H2]. rewrite H1, H2.
  rewrite upper_char_letter; [split; reflexivity|].
  destruct (is_upper c); [reflexivity|]. destruct ci; [exact Hc|].
  discriminate Hc.
Qed.

Lemma regex_try_groups (n : nat) (r : regex) (prev : option ascii)
  (s : string) (len : nat) (groups : list string) :
  regex_try n r prev s = Some (len, groups) ->
  exists caps,
    run r prev s 0 [] (fun _ _ pos caps => Some (pos, caps)) = Some (len, caps)
    /\ groups = map (fun i => capture i caps) (seq 1 n).
Proof.
  unfold regex_try.
  destruct (run r prev s 0 [] _) as [[l caps]|]; [|discriminate].
  intro H. inversion H; subst. now exists caps.
Qed.

Ltac peel H :=
  let p := fresh "p" in
  let s := fresh "s" in
  let pos := fresh "pos" in
  let caps := fresh "caps" in
  apply run_Seq_cont in H as [p [s [pos [caps H]]]].

(** Each of the five templates reads one to five letters into its last
    group. *)
Lemma contextual_templates_read (pattern : string -> list rmatch)
  (text : string) (m : rmatch) :
  In pattern contextual_patterns ->
  In m (pattern text) ->
  ticker_shaped (contextual_ticker m).
Proof.
  intros Hp Hm.
  assert (H : exists ci w,
            last (m_groups m) "" = w
            /\ (1 <= String.length w <= 5)%nat
            /\ all_chars (fun c => is_upper c || (ci && is_lower c)) w = true).
  { unfold contextual_patterns in Hp. cbn [In] in Hp.
    destruct Hp as [<- | [<- | [<- | [<- | [<- | []]]]]];
      destruct (finditer_sound _ _ _ Hm)
        as [pre [rest [len [_ [_ [_ [_ Ht]]]]]]];
      apply regex_try_groups in Ht as [caps [Hrun Hg]];
      rewrite Hg; cbn [seq map last].
    - exists false, (capture 2 caps). split; [reflexivity|].
      unfold company_ticker_template in Hrun.
      do 4 peel Hrun.
      apply run_ticker_then in Hrun; [exact Hrun|].
      cbn. tauto.
    - exists true, (capture 1 caps). split; [reflexivity|].
      unfold ticker_stock_template in Hrun.
      peel Hrun.
      apply run_ticker_then in Hrun; [exact Hrun|].
      cbn. tauto.
    - exists true, (capture 1 caps). split; [reflexivity|].
      unfold trades_as_template in Hrun.
      do 4 peel Hrun.
      now apply run_ticker_last in Hrun.
    - exists true, (capture 1 caps). split; [reflexivity|].
      unfold ticker_symbol_template in Hrun.
      do 3 peel Hrun.
      now apply run_ticker_last in Hrun.
    - exists false, (capture 1 caps). split; [reflexivity|].
      unfold dollar_template, dollar_ticker in Hrun.
      peel Hrun.
      apply run_ticker_then in Hrun; [exact Hrun|].
      cbn. tauto. }
  destruct H as [ci [w [Hw [Hl Ha]]]].
  unfold contextual_ticker. rewrite Hw.
  destruct (upper_letters ci w Ha) as [H1 H2].
  split; [now rewrite H2 | exact H1].
Qed.

(** X22. On ASCII text, a symbol proposed by the contextual matcher is a
    token of one to five capital letters, whatever the case of the text
    it was read from, and it is not blacklisted; its Mention carries the
    method [contextual_match] and a confidence of at least 0.7. *)
Theorem contextual_mentions_shape :
  forall (text : string) (x : TickerMatch),
    is_ascii text = true ->
    In x (_match_contextual_tickers text) ->
    ticker_shaped (symbol x)
    /\ mem (symbol x) TICKER_BLACKLIST = false
    /\ match_method x = "contextual_match"
    /\ 0.7 <= confidence x <= 1.
Proof.
  intros text x _ Hx.
  unfold _match_contextual_tickers in Hx.
  apply in_flat_map in Hx as [pattern [Hp Hx]].
  apply in_flat_map in Hx as [m [Hm Hx]].
  pose proof (@contextual_templates_read pattern text m Hp Hm) as Hshape.
  unfold contextual_hit in Hx.
  destruct (mem (contextual_ticker m) TICKER_BLACKLIST) eqn:Hbl;
    [contradiction|].
  destruct (Qlt_bool 0.5 _); [|contradiction].
  destruct Hx as [<- | []]. cbn [symbol match_method confidence].
  split; [exact Hshape|]. split; [exact Hbl|]. split; [reflexivity|].
  apply contextual_confidence_bounds.
Qed.

Lemma contextual_mentions_shape_witness :
  is_ascii "trades as zyxq on NASDAQ" = true
  /\ In zyxq_contextual_mention
       (_match_contextual_tickers "trades as zyxq on NASDAQ")
  /\ symbol zyxq_contextual_mention = "ZYXQ"
  /\ ticker_shaped (symbol zyxq_contextual_mention).
Proof.
  assert (Ht : is_ascii "trades as zyxq on NASDAQ" = true) by reflexivity.
  assert (Hx : In zyxq_contextual_mention
                 (_match_contextual_tickers "trades as zyxq on NASDAQ"))
    by (vm_compute; left; reflexivity).
  split; [exact Ht|]. split; [exact Hx|]. split; [vm_compute; reflexivity|].
  exact (proj1 (@contextual_mentions_shape _ _ Ht Hx)).
Defined.
